(** * CRAX++ exploit-synthesis core: a shallow embedding and its properties

    The development follows the sources file by file:
    - [MemoryManager]  : Core/MemoryManager.cpp (readConcrete, search, getMapInfo)
    - [DynamicRop]     : Modules/DynamicRop/DynamicRop.cpp
    - [Ret2syscall]    : Techniques/Ret2syscall.cpp
    - [CoreGenerator]  : Modules/IOStates/LeakBasedCoreGenerator.cpp
    - [Crax]           : CRAX.cpp (onSymbolicRip)

    Unsigned 64-bit quantities are integers of [Z] with the wrap-around
    written out ([wrap64]); bytes are [Byte.byte]; the symbolic-execution
    engine, which the sources only call, is an explicit record of the
    primitives that each file uses. *)

From Stdlib Require Import ZArith Zdiv Lia.
From Stdlib Require Import Strings.Byte.
From stdpp Require Import base numbers option list sorting strings pretty gmap.

Open Scope Z_scope.

#[global] Instance byte_eq_dec : EqDecision byte := Byte.byte_eq_dec.

(** ** Machine integers *)

Definition wrap64 (z : Z) : Z := z mod 2 ^ 64.
Definition wrap32 (z : Z) : Z := z mod 2 ^ 32.

Definition in_u64 (z : Z) : Prop := 0 <= z < 2 ^ 64.

(** ** Outcomes of a call

    A call either returns, or leaves its caller early: a failed [assert],
    a dereference of a null pointer, an index or key that is out of range
    ([at] throws, [operator[]] is undefined), the engine's
    [CpuExitException], or, for the probing loops that are run with fuel,
    not having finished. *)

Inductive res (A : Type) : Type :=
| Ok (a : A)
| AssertFail (what : string)
| NullDeref (what : string)
| OutOfRange (what : string)
| CpuExit
| OutOfFuel.
Arguments Ok {A} a.
Arguments AssertFail {A} what.
Arguments NullDeref {A} what.
Arguments OutOfRange {A} what.
Arguments CpuExit {A}.
Arguments OutOfFuel {A}.

Definition res_bind {A B : Type} (m : res A) (k : A -> res B) : res B :=
  match m with
  | Ok a => k a
  | AssertFail w => AssertFail w
  | NullDeref w => NullDeref w
  | OutOfRange w => OutOfRange w
  | CpuExit => CpuExit
  | OutOfFuel => OutOfFuel
  end.

(** A line of the warning log: the text and the values printed by [hexval]. *)
Inductive LogEntry : Type :=
| Warn (text : string) (hexvals : list Z).

#[global] Instance LogEntry_eq_dec : EqDecision LogEntry.
Proof. solve_decision. Defined.

(** * Core/MemoryManager.cpp *)

Module MemoryManager.

(** [struct MemoryRegion { start; end; prot }]. *)
Record MemoryRegion : Type := mkRegion {
  start : Z;
  end_ : Z;
  prot : Z;
}.

#[global] Instance MemoryRegion_eq_dec : EqDecision MemoryRegion.
Proof. solve_decision. Defined.

(** What the file asks of the engine for the current execution state:
    [mem()->symbolic], [mem()->read], [mem()->getHostAddress], the concrete
    value of RSP, the MemoryMap plugin ([m_map], null when the plugin is not
    loaded: [initialize] only warns) with its [iterateRegions] per pid, and
    the pid of the target process. *)
Record Engine : Type := mkEngine {
  mem_symbolic : Z -> Z -> bool;
  mem_read : Z -> Z -> option (list byte);
  mem_getHostAddress : Z -> Z;
  reg_readConcrete_RSP : Z;
  m_map : option (Z -> list (Z * Z * Z));
  getTargetProcessPid : Z;
}.

Section WithEngine.

(** [TARGET_PAGE_SIZE] is [1 << TARGET_PAGE_BITS] in the engine's headers, and
    [MM_READ], [MM_WRITE] are the engine's region-type flags: they are taken
    as given. *)
Variable TARGET_PAGE_BITS : Z.
Variables MM_READ MM_WRITE : Z.
Variable e : Engine.

Definition TARGET_PAGE_SIZE : Z := Z.shiftl 1 TARGET_PAGE_BITS.

(** [MemoryManager::isSymbolic] *)
Definition isSymbolic (virtAddr size : Z) : bool := mem_symbolic e virtAddr size.

(** [MemoryManager::isMapped]: [getHostAddress(virtAddr) != -1]. *)
Definition isMapped (virtAddr : Z) : bool :=
  negb (mem_getHostAddress e virtAddr =? wrap64 (-1)).

Definition cannot_read (a : Z) : LogEntry :=
  Warn "Cannot read concrete data from memory: " [a].

(** The byte-by-byte loop of [readConcrete]: [i] is the loop counter, [n]
    the number of iterations left, [ret] the vector being filled.  A
    symbolic byte is skipped ([continue]); a failed read clears [ret] and
    leaves the loop. *)
Fixpoint readLoop (virtAddr : Z) (n : nat) (i : nat) (ret : list byte)
  : list byte * list LogEntry :=
  match n with
  | O => (ret, [])
  | S n' =>
      let a := wrap64 (virtAddr + Z.of_nat i) in
      if isSymbolic a 1 then readLoop virtAddr n' (S i) ret
      else match mem_read e a 1 with
           | Some bs => readLoop virtAddr n' (S i) (<[i := hd x00 bs]> ret)
           | None => ([], [cannot_read a])
           end
  end.

(** [MemoryManager::readConcrete]: the returned vector and the warnings
    logged.  [ret(size)] is value-initialised, i.e. all zero. *)
Definition readConcrete (virtAddr size : Z) (concretize : bool)
  : list byte * list LogEntry :=
  let ret := replicate (Z.to_nat size) x00 in
  if concretize then
    match mem_read e virtAddr size with
    | Some bs => (take (Z.to_nat size) (bs ++ ret), [])
    | None => ([], [cannot_read virtAddr])
    end
  else readLoop virtAddr (Z.to_nat size) 0 ret.

(** Modelled from the spec: [kmp] (Utils/Algorithm.h) is not among the
    sources; the spec gives it Knuth-Morris-Pratt semantics, the offsets at
    which [needle] occurs in [haystack], in increasing order. *)
Definition occurs_at (haystack needle : list byte) (i : nat) : bool :=
  bool_decide (take (length needle) (drop i haystack) = needle).

Definition kmp (haystack needle : list byte) : list Z :=
  Z.of_nat <$>
    filter (fun i => occurs_at haystack needle i = true)
           (seq 0 (S (length haystack) - length needle)).

(** The loop [while (!isMapped(region.start) && region.start < region.end)
    ++region.start;] of [search]; it runs at most [end - start] times. *)
Fixpoint skipUnmapped (n : nat) (s en : Z) : Z :=
  match n with
  | O => s
  | S n' =>
      if negb (isMapped s) && (s <? en) then skipUnmapped n' (wrap64 (s + 1)) en
      else s
  end.

(** The advanced [region.start] of one iteration of [search]. *)
Definition accessibleStart (region : MemoryRegion) : Z :=
  skipUnmapped (Z.to_nat (end_ region - start region)) (start region) (end_ region).

(** The [haystack] read for a region (after the unmapped prefix is skipped). *)
Definition haystackOf (region : MemoryRegion) : list byte :=
  let s := accessibleStart region in
  fst (readConcrete s (wrap64 (end_ region - s)) false).

(** The body of the loop of [search]: what one region appends to [ret]. *)
Definition searchRegion (needle : list byte) (region : MemoryRegion) : list Z :=
  let s := accessibleStart region in
  if end_ region <=? s then []
  else (fun r => wrap64 (r + s)) <$> kmp (haystackOf region) needle.

(** Modelled from the spec: [MemoryRegionCmp] (MemoryManager.h) is not among
    the sources; the spec has the region set ordered and keyed by start
    address.  [set_insert] is [std::set::insert] for that comparator: an
    element with an equivalent key is not inserted. *)
Fixpoint set_insert (r : MemoryRegion) (l : list MemoryRegion) : list MemoryRegion :=
  match l with
  | [] => [r]
  | x :: l' =>
      if start r <? start x then r :: x :: l'
      else if start x <? start r then x :: set_insert r l'
      else x :: l'
  end.

(** The two probing loops of [getMapInfo].  [probeDown] is
    [while (isMapped(stackBegin)) stackBegin -= TARGET_PAGE_SIZE;] and
    [probeUp] its mirror image; [None] when the fuel is used up. *)
Fixpoint probeDown (fuel : nat) (a : Z) : option Z :=
  match fuel with
  | O => None
  | S f => if isMapped a then probeDown f (wrap64 (a - TARGET_PAGE_SIZE)) else Some a
  end.

Fixpoint probeUp (fuel : nat) (a : Z) : option Z :=
  match fuel with
  | O => None
  | S f => if isMapped a then probeUp f (wrap64 (a + TARGET_PAGE_SIZE)) else Some a
  end.

Definition page_mask : Z := wrap64 (Z.lnot (TARGET_PAGE_SIZE - 1)).

(** The stack region that [getMapInfo] synthesises: [(stackBegin, stackEnd)]. *)
Definition probeStack (fuel : nat) : option (Z * Z) :=
  let rsp := reg_readConcrete_RSP e in
  match probeDown fuel (Z.land rsp page_mask) with
  | None => None
  | Some b =>
      let stackBegin := wrap64 (b + TARGET_PAGE_SIZE) in
      match probeUp fuel (Z.land rsp page_mask) with
      | None => None
      | Some t =>
          let stackEnd := wrap64 (t - TARGET_PAGE_SIZE) in
          Some (stackBegin, stackEnd)
      end
  end.

(** [MemoryManager::getMapInfo] *)
Definition getMapInfo (fuel : nat) (pid : Z) : res (list MemoryRegion) :=
  match m_map e with
  | None => NullDeref "m_map"
  | Some iterateRegions =>
      let ret :=
        foldl (fun ret '(s, en, p) => set_insert (mkRegion s en p) ret)
              [] (iterateRegions pid) in
      match probeStack fuel with
      | None => OutOfFuel
      | Some (stackBegin, stackEnd) =>
          Ok (set_insert (mkRegion stackBegin stackEnd (Z.lor MM_READ MM_WRITE)) ret)
      end
  end.

(** [MemoryManager::search] *)
Definition search (fuel : nat) (needle : list byte) : res (list Z) :=
  res_bind (getMapInfo fuel (getTargetProcessPid e))
           (fun regions => Ok (concat (searchRegion needle <$> regions))).

(** ** Properties of [readConcrete] *)

(** A genuine memory fault at offset [i]: the byte is not symbolic and the
    engine cannot read it. *)
Definition faultAt (virtAddr : Z) (i : nat) : Prop :=
  isSymbolic (wrap64 (virtAddr + Z.of_nat i)) 1 = false /\
  mem_read e (wrap64 (virtAddr + Z.of_nat i)) 1 = None.

#[local] Instance faultAt_dec virtAddr i : Decision (faultAt virtAddr i).
Proof. unfold faultAt. apply _. Defined.

Lemma readLoop_fault virtAddr n i ret j :
  (i <= j < i + n)%nat -> faultAt virtAddr j ->
  exists k, (i <= k <= j)%nat /\ faultAt virtAddr k /\
            readLoop virtAddr n i ret = ([], [cannot_read (wrap64 (virtAddr + Z.of_nat k))]).
Proof.
  revert i ret. induction n as [|n IH]; intros i ret Hj Hf; [lia|].
  simpl. destruct (decide (i = j)) as [->|Hne].
  - destruct Hf as [Hs Hr]. rewrite Hs, Hr. exists j. repeat split; first [done | lia].
  - destruct (isSymbolic (wrap64 (virtAddr + Z.of_nat i)) 1) eqn:Hs.
    + destruct (IH (S i) ret) as (k & Hk & Hfk & Heq); [lia|done|].
      exists k. split; [lia|]. by split.
    + destruct (mem_read e (wrap64 (virtAddr + Z.of_nat i)) 1) as [bs|] eqn:Hr.
      * destruct (IH (S i) (<[i:=hd x00 bs]> ret)) as (k & Hk & Hfk & Heq); [lia|done|].
        exists k. split; [lia|]. by split.
      * exists i. split; [lia|]. by split.
Qed.

Lemma readLoop_ok virtAddr n i ret :
  (forall j, (i <= j < i + n)%nat -> ~ faultAt virtAddr j) ->
  exists ret',
    readLoop virtAddr n i ret = (ret', []) /\
    length ret' = length ret /\
    (forall j, (j < i)%nat -> ret' !! j = ret !! j) /\
    (forall j, (i + n <= j)%nat -> ret' !! j = ret !! j) /\
    (forall j, (i <= j < i + n)%nat ->
       isSymbolic (wrap64 (virtAddr + Z.of_nat j)) 1 = true -> ret' !! j = ret !! j) /\
    (forall j, (i <= j < i + n)%nat -> (j < length ret)%nat ->
       isSymbolic (wrap64 (virtAddr + Z.of_nat j)) 1 = false ->
       exists bs, mem_read e (wrap64 (virtAddr + Z.of_nat j)) 1 = Some bs /\
                  ret' !! j = Some (hd x00 bs)).
Proof.
  revert i ret. induction n as [|n IH]; intros i ret Hnf.
  - exists ret. simpl. repeat split; auto; intros; lia.
  - simpl. destruct (isSymbolic (wrap64 (virtAddr + Z.of_nat i)) 1) eqn:Hs.
    + destruct (IH (S i) ret) as (ret' & Heq & Hlen & Hlo & Hhi & Hsym & Hcon).
      { intros j Hj. apply Hnf. lia. }
      exists ret'. split; [done|]. split; [done|].
      split; [intros j Hj; apply Hlo; lia|].
      split; [intros j Hj; apply Hhi; lia|].
      split.
      * intros j Hj Hsj. destruct (decide (j = i)) as [->|Hne].
        -- apply Hlo. lia.
        -- apply Hsym; [lia|done].
      * intros j Hj Hlt Hsj. destruct (decide (j = i)) as [->|Hne]; [congruence|].
        apply Hcon; [lia|done|done].
    + destruct (mem_read e (wrap64 (virtAddr + Z.of_nat i)) 1) as [bs|] eqn:Hr.
      * destruct (IH (S i) (<[i:=hd x00 bs]> ret)) as (ret' & Heq & Hlen & Hlo & Hhi & Hsym & Hcon).
        { intros j Hj. apply Hnf. lia. }
        rewrite length_insert in Hlen.
        exists ret'. split; [done|]. split; [done|].
        split; [intros j Hj; rewrite Hlo by lia; apply list_lookup_insert_ne; lia|].
        split; [intros j Hj; rewrite Hhi by lia; apply list_lookup_insert_ne; lia|].
        split.
        -- intros j Hj Hsj. destruct (decide (j = i)) as [->|Hne]; [congruence|].
           rewrite Hsym by (done || lia). apply list_lookup_insert_ne; lia.
        -- intros j Hj Hlt Hsj. destruct (decide (j = i)) as [->|Hne].
           ++ exists bs. split; [done|]. rewrite Hlo by lia.
              apply list_lookup_insert_eq. lia.
           ++ apply Hcon; [lia| by rewrite length_insert |done].
      * exfalso. apply (Hnf i); [lia|]. by split.
Qed.

Lemma faultAt_bounded virtAddr n :
  (exists i, (i < n)%nat /\ faultAt virtAddr i) \/
  (forall i, (i < n)%nat -> ~ faultAt virtAddr i).
Proof.
  induction n as [|n [(i & Hi & Hf)|IH]].
  - right. intros i Hi. lia.
  - left. exists i. split; [lia|done].
  - destruct (decide (faultAt virtAddr n)) as [Hf|Hf].
    + left. exists n. split; [lia|done].
    + right. intros i Hi. destruct (decide (i = n)) as [->|]; [done|].
      apply IH. lia.
Qed.

Lemma readConcrete_on_fault (virtAddr size : Z) :
  (exists i, (i < Z.to_nat size)%nat /\ faultAt virtAddr i) ->
  (readConcrete virtAddr size false).1 = [] /\
  exists a, (readConcrete virtAddr size false).2 = [cannot_read a].
Proof.
  intros (i & Hi & Hf). unfold readConcrete.
  destruct (readLoop_fault virtAddr (Z.to_nat size) 0 (replicate (Z.to_nat size) x00) i)
    as (k & _ & _ & ->); [lia|done|].
  split; [done|]. by eexists.
Qed.

Lemma readConcrete_no_fault (virtAddr size : Z) :
  (forall i, (i < Z.to_nat size)%nat -> ~ faultAt virtAddr i) ->
  length (readConcrete virtAddr size false).1 = Z.to_nat size /\
  (readConcrete virtAddr size false).2 = [] /\
  (forall i, (i < Z.to_nat size)%nat ->
     isSymbolic (wrap64 (virtAddr + Z.of_nat i)) 1 = true ->
     (readConcrete virtAddr size false).1 !! i = Some x00) /\
  (forall i, (i < Z.to_nat size)%nat ->
     isSymbolic (wrap64 (virtAddr + Z.of_nat i)) 1 = false ->
     exists bs, mem_read e (wrap64 (virtAddr + Z.of_nat i)) 1 = Some bs /\
                (readConcrete virtAddr size false).1 !! i = Some (hd x00 bs)).
Proof.
  intros Hnf. unfold readConcrete.
  destruct (readLoop_ok virtAddr (Z.to_nat size) 0 (replicate (Z.to_nat size) x00))
    as (ret' & -> & Hlen & _ & _ & Hsym & Hcon).
  { intros j Hj. apply Hnf. lia. }
  rewrite length_replicate in Hlen. simpl.
  split; [done|]. split; [done|]. split.
  - intros i Hi Hs. rewrite Hsym by (done || lia). apply lookup_replicate_2. lia.
  - intros i Hi Hs. apply Hcon; [lia| by rewrite length_replicate |done].
Qed.

(** C7. [readConcrete(addr, size, false)] fails (clears the vector and logs
    a warning) exactly when some byte of the range is not symbolic and cannot
    be read; symbolic bytes alone never make it fail: without such a fault
    the vector keeps its [size] bytes, nothing is logged, and every byte that
    is not symbolic holds what the engine read there. *)
Theorem readConcrete_fails_only_on_fault (virtAddr size : Z) :
  let r := readConcrete virtAddr size false in
  ((exists i, (i < Z.to_nat size)%nat /\ faultAt virtAddr i) <->
   (r.1 = [] /\ exists a, r.2 = [cannot_read a])) /\
  ((forall i, (i < Z.to_nat size)%nat -> ~ faultAt virtAddr i) <->
   (length r.1 = Z.to_nat size /\ r.2 = [])) /\
  (r.2 = [] ->
   forall i, (i < Z.to_nat size)%nat ->
     isSymbolic (wrap64 (virtAddr + Z.of_nat i)) 1 = false ->
     exists bs, mem_read e (wrap64 (virtAddr + Z.of_nat i)) 1 = Some bs /\
                r.1 !! i = Some (hd x00 bs)).
Proof.
  cbv zeta.
  pose proof (readConcrete_on_fault virtAddr size) as Hfault.
  pose proof (readConcrete_no_fault virtAddr size) as Hok.
  destruct (faultAt_bounded virtAddr (Z.to_nat size)) as [Hf|Hnf].
  - destruct (Hfault Hf) as [Hnil [a Ha]].
    split; [|split].
    + split; [done|]. intros _. exact Hf.
    + split.
      * intros Hnf. destruct Hf as (i & Hi & Hfi). by destruct (Hnf i Hi).
      * intros [_ Hlog]. congruence.
    + intros Hlog. congruence.
  - destruct (Hok Hnf) as (Hlen & Hlog & _ & Hcon).
    split; [|split].
    + split; [intros Hf; by apply Hfault|].
      intros [_ [a Ha]]. congruence.
    + split; [done|]. intros _. exact Hnf.
    + intros _. exact Hcon.
Qed.

(** C10. When no memory fault occurs, [readConcrete(addr, size, false)]
    returns exactly [size] bytes and the byte at every symbolic address is
    0x00; so the haystack that [search] hands to [kmp] for a region holds
    0x00 at every symbolic position. *)
Theorem readConcrete_zero_fills_symbolic_bytes (virtAddr size : Z) (region : MemoryRegion) :
  ((forall i, (i < Z.to_nat size)%nat -> ~ faultAt virtAddr i) ->
   length (readConcrete virtAddr size false).1 = Z.to_nat size /\
   forall i, (i < Z.to_nat size)%nat ->
     isSymbolic (wrap64 (virtAddr + Z.of_nat i)) 1 = true ->
     (readConcrete virtAddr size false).1 !! i = Some x00) /\
  (let s := accessibleStart region in
   let len := Z.to_nat (wrap64 (end_ region - s)) in
   (forall i, (i < len)%nat -> ~ faultAt s i) ->
   length (haystackOf region) = len /\
   forall i, (i < len)%nat ->
     isSymbolic (wrap64 (s + Z.of_nat i)) 1 = true ->
     haystackOf region !! i = Some x00).
Proof.
  assert (Hzero : forall a sz,
            (forall i, (i < Z.to_nat sz)%nat -> ~ faultAt a i) ->
            length (readConcrete a sz false).1 = Z.to_nat sz /\
            forall i, (i < Z.to_nat sz)%nat ->
              isSymbolic (wrap64 (a + Z.of_nat i)) 1 = true ->
              (readConcrete a sz false).1 !! i = Some x00).
  { intros a sz Hnf. unfold readConcrete.
    destruct (readLoop_ok a (Z.to_nat sz) 0 (replicate (Z.to_nat sz) x00))
      as (ret' & -> & Hlen & _ & _ & Hsym & _).
    { intros j Hj. apply Hnf. lia. }
    rewrite length_replicate in Hlen. simpl. split; [done|].
    intros i Hi Hs. rewrite Hsym by (done || lia).
    apply lookup_replicate_2. lia. }
  split.
  - apply Hzero.
  - cbv zeta. unfold haystackOf. apply Hzero.
Qed.

(** ** Properties of [search] *)

Lemma kmp_spec (haystack needle : list byte) (k : nat) :
  Z.of_nat k ∈ kmp haystack needle <->
  (k + length needle <= length haystack)%nat /\
  take (length needle) (drop k haystack) = needle.
Proof.
  unfold kmp. rewrite list_elem_of_fmap. split.
  - intros (i & Hi & Hin). apply Nat2Z.inj in Hi. subst i.
    apply list_elem_of_filter in Hin as [Hocc Hseq].
    apply elem_of_seq in Hseq.
    unfold occurs_at in Hocc. apply bool_decide_eq_true in Hocc.
    split; [lia|done].
  - intros [Hle Heq]. exists k. split; [done|].
    apply list_elem_of_filter. split.
    + unfold occurs_at. by apply bool_decide_eq_true.
    + apply elem_of_seq. lia.
Qed.

Lemma kmp_bounds (haystack needle : list byte) (z : Z) :
  z ∈ kmp haystack needle ->
  0 <= z /\ z + Z.of_nat (length needle) <= Z.of_nat (length haystack).
Proof.
  unfold kmp. rewrite list_elem_of_fmap. intros (i & -> & Hin).
  apply list_elem_of_filter in Hin as [_ Hseq].
  apply elem_of_seq in Hseq. lia.
Qed.

Lemma wrap64_id z : in_u64 z -> wrap64 z = z.
Proof. unfold in_u64, wrap64. intros. apply Z.mod_small. lia. Qed.

(** A region whose bytes are all accessible and concrete, with [content]
    the bytes it holds. *)
Definition regionConcrete (region : MemoryRegion) (content : list byte) : Prop :=
  0 <= start region /\ start region < end_ region /\ end_ region < 2 ^ 64 /\
  Z.of_nat (length content) = end_ region - start region /\
  forall (i : nat) (b : byte), content !! i = Some b ->
    isMapped (start region + Z.of_nat i) = true /\
    isSymbolic (start region + Z.of_nat i) 1 = false /\
    mem_read e (start region + Z.of_nat i) 1 = Some [b].

Lemma regionConcrete_start region content :
  regionConcrete region content -> accessibleStart region = start region.
Proof.
  intros (H0 & Hlt & Hhi & Hlen & Hb). unfold accessibleStart.
  destruct (Z.to_nat (end_ region - start region)) as [|n] eqn:Hn; [done|].
  simpl. destruct content as [|b content]; [simpl in Hlen; lia|].
  destruct (Hb O b eq_refl) as (Hm & _ & _).
  rewrite Z.add_0_r in Hm. by rewrite Hm.
Qed.

Lemma regionConcrete_haystack region content :
  regionConcrete region content -> haystackOf region = content.
Proof.
  intros Hrc. pose proof Hrc as (H0 & Hlt & Hhi & Hlen & Hb).
  unfold haystackOf. rewrite (regionConcrete_start _ _ Hrc). cbv zeta.
  rewrite (wrap64_id (end_ region - start region)) by (unfold in_u64; lia).
  assert (Hsz : Z.to_nat (end_ region - start region) = length content) by lia.
  assert (Hnf : forall i, (i < Z.to_nat (end_ region - start region))%nat ->
                          ~ faultAt (start region) i).
  { intros i Hi [_ Hr]. rewrite Hsz in Hi.
    destruct (lookup_lt_is_Some_2 content i Hi) as [b Hbi].
    destruct (Hb i b Hbi) as (_ & _ & Hrd).
    rewrite wrap64_id in Hr by (unfold in_u64; lia). congruence. }
  destruct (readConcrete_no_fault (start region) (end_ region - start region) Hnf)
    as (Hl & _ & _ & Hcon).
  apply list_eq. intros i.
  destruct (decide (i < length content)%nat) as [Hi|Hi].
  - destruct (lookup_lt_is_Some_2 content i Hi) as [b Hbi].
    destruct (Hb i b Hbi) as (_ & Hsy & Hrd).
    destruct (Hcon i) as (bs & Hbs & ->); [lia| |].
    + rewrite wrap64_id by (unfold in_u64; lia). done.
    + rewrite wrap64_id in Hbs by (unfold in_u64; lia).
      rewrite Hrd in Hbs. injection Hbs as <-. by rewrite Hbi.
  - rewrite !lookup_ge_None_2; [done|lia|lia].
Qed.

Lemma skipUnmapped_range n s en :
  0 <= s -> s <= en -> en < 2 ^ 64 ->
  s <= skipUnmapped n s en <= en.
Proof.
  revert s. induction n as [|n IH]; intros s H0 Hle Hhi; simpl; [lia|].
  destruct (negb (isMapped s) && (s <? en)) eqn:Hc; [|lia].
  apply andb_true_iff in Hc as [_ Hlt]. apply Z.ltb_lt in Hlt.
  rewrite wrap64_id by (unfold in_u64; lia).
  specialize (IH (s + 1)). lia.
Qed.

Lemma haystackOf_length region :
  (length (haystackOf region) <= Z.to_nat (wrap64 (end_ region - accessibleStart region)))%nat.
Proof.
  unfold haystackOf. cbv zeta.
  set (s := accessibleStart region). set (sz := wrap64 (end_ region - s)).
  destruct (faultAt_bounded s (Z.to_nat sz)) as [Hx|Hx].
  - apply readConcrete_on_fault in Hx as [-> _]. simpl. lia.
  - apply readConcrete_no_fault in Hx as [-> _]. lia.
Qed.

Lemma searchRegion_within needle region a :
  in_u64 (start region) -> in_u64 (end_ region) ->
  a ∈ searchRegion needle region ->
  start region <= a /\ a + Z.of_nat (length needle) <= end_ region.
Proof.
  intros [Hs0 Hs1] [He0 He1]. unfold searchRegion. cbv zeta.
  destruct (end_ region <=? accessibleStart region) eqn:Hc;
    [by intros ?%elem_of_nil|].
  apply Z.leb_gt in Hc.
  assert (start region <= end_ region) as Hle.
  { destruct (decide (start region <= end_ region)) as [|Hgt]; [done|].
    unfold accessibleStart in Hc.
    replace (Z.to_nat (end_ region - start region)) with O in Hc by lia.
    simpl in Hc. lia. }
  pose proof (skipUnmapped_range (Z.to_nat (end_ region - start region))
                (start region) (end_ region) Hs0 Hle He1) as Hrange.
  fold (accessibleStart region) in Hrange.
  rewrite list_elem_of_fmap. intros (z & -> & Hz).
  apply kmp_bounds in Hz as [Hz0 Hz1].
  pose proof (haystackOf_length region) as Hlen.
  rewrite wrap64_id in Hlen by (unfold in_u64; lia).
  rewrite wrap64_id by (unfold in_u64; lia). lia.
Qed.

Lemma elem_of_concat_regions needle regions a :
  a ∈ concat (searchRegion needle <$> regions) <->
  exists region, region ∈ regions /\ a ∈ searchRegion needle region.
Proof.
  rewrite list_elem_of_In, in_concat. split.
  - intros (l & Hl & Ha). apply list_elem_of_In, list_elem_of_fmap in Hl as (r & -> & Hr).
    exists r. split; [done|]. by apply list_elem_of_In.
  - intros (r & Hr & Ha). exists (searchRegion needle r). split.
    + apply list_elem_of_In, list_elem_of_fmap. by exists r.
    + by apply list_elem_of_In.
Qed.

(** C6. With [regions] the map that [getMapInfo] returned, [search] returns
    what the regions contribute one after the other, and
    - a region whose bytes are all accessible and concrete and hold [needle]
      at offset [k] makes the result contain [start + k];
    - such a region that does not hold [needle] contributes no match;
    - every address found lies, with the whole match, inside a single
      region, so a match that spans two regions is not found. *)
Theorem search_matches_within_single_region
    (fuel : nat) (needle : list byte) (regions : list MemoryRegion) :
  getMapInfo fuel (getTargetProcessPid e) = Ok regions ->
  search fuel needle = Ok (concat (searchRegion needle <$> regions)) /\
  (forall region content (k : nat),
     region ∈ regions -> regionConcrete region content ->
     (k + length needle <= length content)%nat ->
     take (length needle) (drop k content) = needle ->
     exists found, search fuel needle = Ok found /\
                   (start region + Z.of_nat k) ∈ found) /\
  (forall region content,
     regionConcrete region content ->
     (forall k : nat, (k + length needle <= length content)%nat ->
                      take (length needle) (drop k content) <> needle) ->
     searchRegion needle region = []) /\
  (forall found a,
     (forall region, region ∈ regions -> in_u64 (start region) /\ in_u64 (end_ region)) ->
     search fuel needle = Ok found -> a ∈ found ->
     exists region, region ∈ regions /\
       start region <= a /\ a + Z.of_nat (length needle) <= end_ region).
Proof.
  intros Hmap.
  assert (Hsearch : search fuel needle = Ok (concat (searchRegion needle <$> regions))).
  { unfold search. by rewrite Hmap. }
  split; [done|]. split; [|split].
  - intros region content k Hin Hrc Hk Hocc.
    eexists. split; [exact Hsearch|].
    apply elem_of_concat_regions. exists region. split; [done|].
    pose proof Hrc as (H0 & Hlt & Hhi & Hlen & _).
    unfold searchRegion. cbv zeta.
    rewrite (regionConcrete_start _ _ Hrc), (regionConcrete_haystack _ _ Hrc).
    replace (end_ region <=? start region) with false by (symmetry; apply Z.leb_gt; lia).
    apply list_elem_of_fmap. exists (Z.of_nat k). split.
    + rewrite wrap64_id; [lia|]. unfold in_u64. lia.
    + by apply kmp_spec.
  - intros region content Hrc Hno.
    unfold searchRegion. cbv zeta.
    rewrite (regionConcrete_haystack _ _ Hrc).
    destruct (end_ region <=? accessibleStart region); [done|].
    replace (kmp content needle) with (@nil Z); [done|].
    symmetry. apply elem_of_nil_inv. intros z Hz.
    pose proof (kmp_bounds _ _ _ Hz) as [Hz0 _].
    replace z with (Z.of_nat (Z.to_nat z)) in Hz by lia.
    apply kmp_spec in Hz as [Hle Heq]. by apply (Hno (Z.to_nat z)).
  - intros found a Hrange Hfound Ha.
    rewrite Hsearch in Hfound. injection Hfound as <-.
    apply elem_of_concat_regions in Ha as (region & Hin & Ha).
    exists region. split; [done|].
    destruct (Hrange region Hin) as [Hs He].
    by apply searchRegion_within.
Qed.

(** ** Properties of [getMapInfo] *)

Definition startLt (r1 r2 : MemoryRegion) : Prop := start r1 < start r2.

(** Two half-open regions overlap. *)
Definition overlap (r1 r2 : MemoryRegion) : Prop :=
  start r1 < end_ r2 /\ start r2 < end_ r1.

Definition noOverlap (l : list MemoryRegion) : Prop :=
  forall r1 r2, r1 ∈ l -> r2 ∈ l -> r1 <> r2 -> ~ overlap r1 r2.

Definition regionOf (t : Z * Z * Z) : MemoryRegion :=
  let '(s, en, p) := t in mkRegion s en p.

Lemma set_insert_elem r l x :
  x ∈ set_insert r l -> x = r \/ x ∈ l.
Proof.
  induction l as [|y l IH]; simpl.
  - intros ->%list_elem_of_singleton. by left.
  - destruct (start r <? start y).
    + intros [->|Hx]%elem_of_cons; [by left|by right].
    + destruct (start y <? start r); [|by right].
      intros [->|Hx]%elem_of_cons; [right; left|].
      destruct (IH Hx) as [->|?]; [by left|right; by right].
Qed.

Lemma set_insert_Forall (P : MemoryRegion -> Prop) r l :
  P r -> Forall P l -> Forall P (set_insert r l).
Proof.
  intros Hr Hl. apply Forall_forall. intros x Hx.
  destruct (set_insert_elem _ _ _ Hx) as [->|Hin]; [done|].
  by eapply Forall_forall in Hl.
Qed.

Lemma set_insert_sorted r l :
  StronglySorted startLt l -> StronglySorted startLt (set_insert r l).
Proof.
  induction 1 as [|y l Hs IH Hall]; simpl.
  - repeat constructor.
  - destruct (start r <? start y) eqn:Hry.
    + apply Z.ltb_lt in Hry. constructor; [by constructor|].
      constructor; [done|]. eapply Forall_impl; [exact Hall|].
      unfold startLt. intros; lia.
    + destruct (start y <? start r) eqn:Hyr; [|by constructor].
      apply Z.ltb_lt in Hyr. constructor; [done|].
      by apply set_insert_Forall.
Qed.

Lemma foldl_set_insert_sorted (ts : list (Z * Z * Z)) acc :
  StronglySorted startLt acc ->
  StronglySorted startLt
    (foldl (fun ret '(s, en, p) => set_insert (mkRegion s en p) ret) acc ts).
Proof.
  revert acc. induction ts as [|[[s en] p] ts IH]; intros acc Hacc; simpl; [done|].
  apply IH. by apply set_insert_sorted.
Qed.

Lemma foldl_set_insert_elem (ts : list (Z * Z * Z)) acc x :
  x ∈ foldl (fun ret '(s, en, p) => set_insert (mkRegion s en p) ret) acc ts ->
  x ∈ acc \/ x ∈ regionOf <$> ts.
Proof.
  revert acc. induction ts as [|[[s en] p] ts IH]; intros acc; simpl; [by left|].
  intros Hx. destruct (IH _ Hx) as [Hin|Hin].
  - destruct (set_insert_elem _ _ _ Hin) as [->|?]; [right; left|by left].
  - right. by right.
Qed.

Lemma sorted_distinct_starts l r1 r2 :
  StronglySorted startLt l -> r1 ∈ l -> r2 ∈ l -> r1 <> r2 -> start r1 <> start r2.
Proof.
  induction 1 as [|y l Hs IH Hall]; [by intros ?%elem_of_nil|].
  rewrite Forall_forall in Hall. unfold startLt in Hall.
  intros [->|H1]%elem_of_cons [->|H2]%elem_of_cons Hne.
  - done.
  - specialize (Hall _ H2). lia.
  - specialize (Hall _ H1). lia.
  - by apply IH.
Qed.

Definition aligned (z : Z) : Prop := z mod TARGET_PAGE_SIZE = 0.

Section PageArithmetic.

Hypothesis page_bits : 0 <= TARGET_PAGE_BITS <= 30.

Lemma page_size_pow : TARGET_PAGE_SIZE = 2 ^ TARGET_PAGE_BITS.
Proof. unfold TARGET_PAGE_SIZE. apply Z.shiftl_1_l. Qed.

Lemma page_size_pos : 0 < TARGET_PAGE_SIZE.
Proof. rewrite page_size_pow. apply Z.pow_pos_nonneg; lia. Qed.

Lemma page_size_divides : (TARGET_PAGE_SIZE | 2 ^ 64).
Proof.
  rewrite page_size_pow. exists (2 ^ (64 - TARGET_PAGE_BITS)).
  rewrite <- Z.pow_add_r by lia. f_equal. lia.
Qed.

Lemma wrap64_mod_page z : wrap64 z mod TARGET_PAGE_SIZE = z mod TARGET_PAGE_SIZE.
Proof.
  unfold wrap64. apply Z.mod_mod_divide, page_size_divides.
Qed.

Lemma aligned_step_down z : aligned z -> aligned (wrap64 (z - TARGET_PAGE_SIZE)).
Proof.
  unfold aligned. intros Hz. rewrite wrap64_mod_page.
  pose proof page_size_pos.
  rewrite Zminus_mod, Hz, Z_mod_same_full. simpl. apply Z.mod_0_l. lia.
Qed.

Lemma aligned_step_up z : aligned z -> aligned (wrap64 (z + TARGET_PAGE_SIZE)).
Proof.
  unfold aligned. intros Hz. rewrite wrap64_mod_page.
  pose proof page_size_pos.
  rewrite Zplus_mod, Hz, Z_mod_same_full. simpl. apply Z.mod_0_l. lia.
Qed.

Lemma page_mask_aligned : aligned page_mask.
Proof.
  unfold aligned, page_mask. rewrite wrap64_mod_page, page_size_pow.
  replace (Z.lnot (2 ^ TARGET_PAGE_BITS - 1)) with (- (1) * 2 ^ TARGET_PAGE_BITS)
    by (unfold Z.lnot; lia).
  apply Z_mod_mult.
Qed.

Lemma land_page_mask_aligned rsp : aligned (Z.land rsp page_mask).
Proof.
  pose proof page_mask_aligned as Hm. unfold aligned in *.
  rewrite page_size_pow in *.
  rewrite <- Z.land_ones in * by lia.
  by rewrite <- Z.land_assoc, Hm, Z.land_0_r.
Qed.

Lemma probeDown_aligned fuel a b :
  aligned a -> probeDown fuel a = Some b -> aligned b.
Proof.
  revert a. induction fuel as [|f IH]; intros a Ha; simpl; [done|].
  destruct (isMapped a); [|by intros [= <-]].
  apply IH. by apply aligned_step_down.
Qed.

Lemma probeUp_aligned fuel a b :
  aligned a -> probeUp fuel a = Some b -> aligned b.
Proof.
  revert a. induction fuel as [|f IH]; intros a Ha; simpl; [done|].
  destruct (isMapped a); [|by intros [= <-]].
  apply IH. by apply aligned_step_up.
Qed.

End PageArithmetic.

(** Enough fuel: a probing loop ends as soon as an unmapped page is met. *)
Lemma probeDown_enough (n fuel : nat) (a : Z) :
  isMapped (Nat.iter n (fun x => wrap64 (x - TARGET_PAGE_SIZE)) a) = false ->
  (n < fuel)%nat -> exists b, probeDown fuel a = Some b.
Proof.
  revert n a. induction fuel as [|f IH]; intros n a Hn Hlt; [lia|].
  simpl. destruct (isMapped a) eqn:Ha; [|by eexists].
  destruct n as [|n]; [simpl in Hn; congruence|].
  rewrite Nat.iter_succ_r in Hn. apply (IH n); [done|lia].
Qed.

Lemma probeUp_enough (n fuel : nat) (a : Z) :
  isMapped (Nat.iter n (fun x => wrap64 (x + TARGET_PAGE_SIZE)) a) = false ->
  (n < fuel)%nat -> exists b, probeUp fuel a = Some b.
Proof.
  revert n a. induction fuel as [|f IH]; intros n a Hn Hlt; [lia|].
  simpl. destruct (isMapped a) eqn:Ha; [|by eexists].
  destruct n as [|n]; [simpl in Hn; congruence|].
  rewrite Nat.iter_succ_r in Hn. apply (IH n); [done|lia].
Qed.

Lemma set_insert_keeps r l x : x ∈ l -> x ∈ set_insert r l.
Proof.
  induction l as [|y l IH]; simpl; [by intros ?%elem_of_nil|].
  intros Hx. destruct (start r <? start y); [by right|].
  destruct (start y <? start r); [|done].
  apply elem_of_cons in Hx as [->|Hx]; [left|right; by apply IH].
Qed.

Lemma set_insert_fresh r l :
  (forall x, x ∈ l -> start x <> start r) -> r ∈ set_insert r l.
Proof.
  induction l as [|y l IH]; simpl; intros Hfresh; [left|].
  destruct (start r <? start y) eqn:H1; [left|].
  destruct (start y <? start r) eqn:H2.
  - right. apply IH. intros x Hx. apply Hfresh. by right.
  - apply Z.ltb_ge in H1, H2. destruct (Hfresh y); [left|lia].
Qed.

Lemma set_insert_start r l : exists x, x ∈ set_insert r l /\ start x = start r.
Proof.
  induction l as [|y l (x & Hx & Hs)]; simpl.
  - exists r. split; [left|done].
  - destruct (start r <? start y) eqn:H1; [exists r; split; [left|done]|].
    destruct (start y <? start r) eqn:H2.
    + exists x. split; [by right|done].
    + apply Z.ltb_ge in H1, H2. exists y. split; [left|lia].
Qed.

Lemma foldl_set_insert_keeps (ts : list (Z * Z * Z)) acc x :
  x ∈ acc ->
  x ∈ foldl (fun ret '(s, en, p) => set_insert (mkRegion s en p) ret) acc ts.
Proof.
  revert acc. induction ts as [|[[s en] p] ts IH]; intros acc Hx; simpl; [done|].
  apply IH. by apply set_insert_keeps.
Qed.

(** ** Which regions the set holds *)

(** [r] occurs in [l] and nothing before that occurrence has its start: the
    first of the elements of [l] that start where it starts. *)
Definition firstWithStart (r : MemoryRegion) (l : list MemoryRegion) : Prop :=
  exists pre post, l = pre ++ r :: post /\ forall x, x ∈ pre -> start x <> start r.

Lemma firstWithStart_cons r x l :
  firstWithStart r (x :: l) <-> r = x \/ (start x <> start r /\ firstWithStart r l).
Proof.
  split.
  - intros (pre & post & Heq & Hpre). destruct pre as [|y pre]; simpl in Heq.
    + injection Heq as -> ->. by left.
    + injection Heq as -> ->. right. split; [apply Hpre; left|].
      exists pre, post. split; [done|]. intros z Hz. apply Hpre. by right.
  - intros [->|(Hne & pre & post & -> & Hpre)].
    + exists [], l. split; [done|]. by intros z ?%elem_of_nil.
    + exists (x :: pre), post. split; [done|].
      intros z [->|Hz]%elem_of_cons; [done|by apply Hpre].
Qed.

Lemma firstWithStart_elem r l : firstWithStart r l -> r ∈ l.
Proof. intros (pre & post & -> & _). apply elem_of_app. right. left. Qed.

Lemma firstWithStart_app_l r l l' : firstWithStart r l -> firstWithStart r (l ++ l').
Proof.
  intros (pre & post & -> & Hpre). exists pre, (post ++ l').
  split; [by rewrite <- app_assoc|done].
Qed.

(** Of the elements with a given start, one is the first. *)
Lemma firstWithStart_exists l y :
  y ∈ l -> exists r, firstWithStart r l /\ start r = start y.
Proof.
  induction l as [|x l IH]; [by intros ?%elem_of_nil|].
  intros Hy. destruct (decide (start x = start y)) as [Heq|Hne].
  - exists x. split; [|done]. apply firstWithStart_cons. by left.
  - apply elem_of_cons in Hy as [->|Hy]; [done|].
    destruct (IH Hy) as (r & Hr & Hs). exists r. split; [|done].
    apply firstWithStart_cons. right. split; [congruence|done].
Qed.

Lemma set_insert_member r l x :
  StronglySorted startLt l ->
  x ∈ set_insert r l <-> x ∈ l \/ (x = r /\ forall y, y ∈ l -> start y <> start r).
Proof.
  intros Hl. split.
  - induction Hl as [|y l Hs IH Hall]; simpl.
    + intros ->%list_elem_of_singleton. right. split; [done|]. by intros y ?%elem_of_nil.
    + rewrite Forall_forall in Hall. unfold startLt in Hall.
      destruct (start r <? start y) eqn:Hry.
      * apply Z.ltb_lt in Hry. intros [->|Hx]%elem_of_cons; [|by left].
        right. split; [done|].
        intros z [->|Hz]%elem_of_cons; [lia|]. specialize (Hall _ Hz). lia.
      * destruct (start y <? start r) eqn:Hyr; [|by left].
        apply Z.ltb_lt in Hyr. intros [->|Hx]%elem_of_cons; [left; left|].
        destruct (IH Hx) as [Hin|[-> Hfresh]]; [left; by right|].
        right. split; [done|]. intros z [->|Hz]%elem_of_cons; [lia|by apply Hfresh].
  - intros [Hin|[-> Hfresh]]; [by apply set_insert_keeps|by apply set_insert_fresh].
Qed.

Lemma foldl_set_insert_member (ts : list (Z * Z * Z)) acc x :
  StronglySorted startLt acc ->
  x ∈ foldl (fun ret '(s, en, p) => set_insert (mkRegion s en p) ret) acc ts <->
  x ∈ acc \/
  (firstWithStart x (regionOf <$> ts) /\ forall y, y ∈ acc -> start y <> start x).
Proof.
  revert acc. induction ts as [|[[s en] p] ts IH]; intros acc Hacc; simpl.
  - split; [by left|]. intros [?|[(pre & post & Heq & _) _]]; [done|].
    by destruct pre.
  - rewrite (IH _ (set_insert_sorted (mkRegion s en p) acc Hacc)).
    rewrite firstWithStart_cons. split.
    + intros [Hin|[Hfirst Hfresh]].
      * apply (set_insert_member _ _ _ Hacc) in Hin as [?|[-> Hnew]]; [by left|].
        right. split; [by left|done].
      * right. split.
        -- right. split; [|done].
           destruct (set_insert_start (mkRegion s en p) acc) as (z & Hz & Hs).
           rewrite <- Hs. by apply Hfresh.
        -- intros y Hy. apply Hfresh. by apply set_insert_keeps.
    + intros [Hin|[[->|[Hne Hfirst]] Hfresh]].
      * left. by apply set_insert_keeps.
      * left. by apply set_insert_fresh.
      * right. split; [done|]. intros y Hy.
        destruct (set_insert_elem _ _ _ Hy) as [->|Hin]; [done|by apply Hfresh].
Qed.

(** The set returned, region by region: the first reported region for each
    start, and the synthesised stack region when no reported region starts
    where it starts. *)
Lemma getMapInfo_member fuel pid iterateRegions regions stackBegin stackEnd :
  m_map e = Some iterateRegions ->
  probeStack fuel = Some (stackBegin, stackEnd) ->
  getMapInfo fuel pid = Ok regions ->
  StronglySorted startLt regions /\
  forall r, r ∈ regions <->
    firstWithStart r (regionOf <$> iterateRegions pid) \/
    (r = mkRegion stackBegin stackEnd (Z.lor MM_READ MM_WRITE) /\
     forall t, t ∈ iterateRegions pid -> start (regionOf t) <> stackBegin).
Proof.
  intros Hmap Hstack. unfold getMapInfo. rewrite Hmap, Hstack. intros [= <-].
  set (stack := mkRegion stackBegin stackEnd (Z.lor MM_READ MM_WRITE)).
  set (ret := foldl (fun ret '(s, en, p) => set_insert (mkRegion s en p) ret)
                    [] (iterateRegions pid)).
  assert (Hret : StronglySorted startLt ret)
    by (apply foldl_set_insert_sorted; constructor).
  assert (Hmem : forall x, x ∈ ret <-> firstWithStart x (regionOf <$> iterateRegions pid)).
  { intros x. unfold ret. rewrite foldl_set_insert_member by constructor. split.
    - intros [?%elem_of_nil|[? _]]; done.
    - intros Hfirst. right. split; [done|]. by intros y ?%elem_of_nil. }
  split; [by apply set_insert_sorted|].
  intros r. rewrite (set_insert_member _ _ _ Hret), Hmem.
  split; (intros [Hfirst|[-> Hfresh]]; [by left|right; split; [done|]]).
  - intros t Ht.
    destruct (firstWithStart_exists (regionOf <$> iterateRegions pid) (regionOf t))
      as (x & Hx & Hs); [apply list_elem_of_fmap; by exists t|].
    rewrite <- Hs. apply Hfresh. by apply Hmem.
  - intros y Hy. apply Hmem, firstWithStart_elem in Hy.
    apply list_elem_of_fmap in Hy as (t & -> & Ht). by apply Hfresh.
Qed.

(** C5 (as amended). When the MemoryMap plugin is present and each probing
    loop meets an unmapped page, [getMapInfo] returns (with enough fuel) a
    region set that is strictly ordered by start address and is not empty.
    It holds one region for each start: of the reported regions that start
    at one address the one reported first, and the synthesised stack region
    when no reported region starts where it starts; it holds nothing else.
    It has no two overlapping regions whenever the reported regions and the
    stack region do not overlap one another; and the start of the stack
    region is page-aligned. *)
Theorem getMapInfo_sorted_and_stack_start_aligned
    (fuel n m : nat) (pid : Z) (iterateRegions : Z -> list (Z * Z * Z)) :
  0 <= TARGET_PAGE_BITS <= 30 ->
  m_map e = Some iterateRegions ->
  isMapped (Nat.iter n (fun a => wrap64 (a - TARGET_PAGE_SIZE))
                     (Z.land (reg_readConcrete_RSP e) page_mask)) = false ->
  isMapped (Nat.iter m (fun a => wrap64 (a + TARGET_PAGE_SIZE))
                     (Z.land (reg_readConcrete_RSP e) page_mask)) = false ->
  (n < fuel)%nat -> (m < fuel)%nat ->
  exists regions stackBegin stackEnd,
    probeStack fuel = Some (stackBegin, stackEnd) /\
    getMapInfo fuel pid = Ok regions /\
    StronglySorted startLt regions /\
    regions <> [] /\
    (forall r, r ∈ regions <->
       firstWithStart r (regionOf <$> iterateRegions pid) \/
       (r = mkRegion stackBegin stackEnd (Z.lor MM_READ MM_WRITE) /\
        forall t, t ∈ iterateRegions pid -> start (regionOf t) <> stackBegin)) /\
    (forall r, r ∈ regions ->
       r = mkRegion stackBegin stackEnd (Z.lor MM_READ MM_WRITE) \/
       r ∈ regionOf <$> iterateRegions pid) /\
    (noOverlap (mkRegion stackBegin stackEnd (Z.lor MM_READ MM_WRITE)
                  :: (regionOf <$> iterateRegions pid)) ->
     noOverlap regions) /\
    stackBegin mod TARGET_PAGE_SIZE = 0.
Proof.
  intros Hbits Hmap Hdown Hup Hn Hm.
  destruct (probeDown_enough _ _ _ Hdown Hn) as [b Hb].
  destruct (probeUp_enough _ _ _ Hup Hm) as [t Ht].
  set (stackBegin := wrap64 (b + TARGET_PAGE_SIZE)).
  set (stackEnd := wrap64 (t - TARGET_PAGE_SIZE)).
  set (stack := mkRegion stackBegin stackEnd (Z.lor MM_READ MM_WRITE)).
  assert (Hprobe : probeStack fuel = Some (stackBegin, stackEnd))
    by (unfold probeStack; by rewrite Hb, Ht).
  destruct (getMapInfo fuel pid) as [regions| | | | |] eqn:Hrun.
  2-6: unfold getMapInfo in Hrun; by rewrite Hmap, Hprobe in Hrun.
  destruct (getMapInfo_member _ _ _ _ _ _ Hmap Hprobe Hrun) as [Hsorted Hmem].
  fold stack in Hmem.
  assert (Helem : forall r, r ∈ regions ->
                    r = stack \/ r ∈ regionOf <$> iterateRegions pid).
  { intros r Hr. apply Hmem in Hr as [Hfirst|[-> _]]; [right|by left].
    by apply firstWithStart_elem. }
  exists regions, stackBegin, stackEnd.
  split; [done|]. split; [done|]. split; [done|]. split; [|split; [exact Hmem|]].
  - unfold getMapInfo in Hrun. rewrite Hmap, Hprobe in Hrun. injection Hrun as <-.
    intros Hnil.
    destruct (set_insert_start stack
                (foldl (fun ret '(s, en, p) => set_insert (mkRegion s en p) ret)
                       [] (iterateRegions pid))) as (x & Hx & _).
    fold stack in Hnil. rewrite Hnil in Hx. by apply elem_of_nil in Hx.
  - split; [exact Helem|]. split.
    + intros Hno r1 r2 H1 H2 Hne. apply Hno; [| |done].
      * destruct (Helem _ H1) as [->|?]; [left|by right].
      * destruct (Helem _ H2) as [->|?]; [left|by right].
    + apply (aligned_step_up Hbits).
      eapply (probeDown_aligned Hbits); [|exact Hb].
      apply (land_page_mask_aligned Hbits).
Qed.

(** ** Further properties of [readConcrete] *)

(** In either mode the result is never partial: it has [size] bytes, or it
    is empty and one warning names the address that could not be read. *)
Theorem readConcrete_all_or_nothing (virtAddr size : Z) (concretize : bool) :
  let r := readConcrete virtAddr size concretize in
  (length r.1 = Z.to_nat size /\ r.2 = []) \/
  (r.1 = [] /\ exists a, r.2 = [cannot_read a]).
Proof.
  cbv zeta. destruct concretize.
  - unfold readConcrete. destruct (mem_read e virtAddr size) as [bs|]; simpl.
    + left. split; [|done].
      rewrite length_take, length_app, length_replicate. lia.
    + right. split; [done|]. by eexists.
  - destruct (faultAt_bounded virtAddr (Z.to_nat size)) as [Hf|Hnf].
    + right. by apply readConcrete_on_fault.
    + left. by destruct (readConcrete_no_fault virtAddr size Hnf) as (? & ? & _).
Qed.

(** The byte-by-byte read stops at the first fault: the warning names the
    lowest address of the range that is neither symbolic nor readable. *)
Theorem readConcrete_reports_first_fault (virtAddr size : Z) (i : nat) :
  (i < Z.to_nat size)%nat ->
  faultAt virtAddr i ->
  (forall j, (j < i)%nat -> ~ faultAt virtAddr j) ->
  readConcrete virtAddr size false
  = ([], [cannot_read (wrap64 (virtAddr + Z.of_nat i))]).
Proof.
  intros Hi Hf Hfirst. unfold readConcrete.
  destruct (readLoop_fault virtAddr (Z.to_nat size) 0 (replicate (Z.to_nat size) x00) i)
    as (k & Hk & Hfk & ->); [lia|done|].
  destruct (decide (k = i)) as [->|Hne]; [done|].
  destruct (Hfirst k); [lia|done].
Qed.

(** ** Further properties of [search] *)

(** The loop that skips an inaccessible prefix stops at the first mapped
    address of the region, or at its end when no address is mapped. *)
Lemma skipUnmapped_first_mapped n s en :
  0 <= s -> s <= en -> en < 2 ^ 64 -> (Z.to_nat (en - s) <= n)%nat ->
  let s' := skipUnmapped n s en in
  s <= s' <= en /\
  (forall a, s <= a < s' -> isMapped a = false) /\
  (s' < en -> isMapped s' = true).
Proof.
  revert s. induction n as [|n IH]; intros s H0 Hle Hhi Hn; simpl.
  - split; [lia|]. split; [intros a Ha; lia|]. intros Hlt. lia.
  - destruct (isMapped s) eqn:Hm; simpl.
    + split; [lia|]. split; [intros a Ha; lia|]. done.
    + destruct (s <? en) eqn:Hlt.
      * apply Z.ltb_lt in Hlt. rewrite wrap64_id by (unfold in_u64; lia).
        destruct (IH (s + 1)) as (Hr & Hun & Hmap); [lia|lia|lia|lia|].
        split; [lia|]. split; [|done].
        intros a Ha. destruct (decide (a = s)) as [->|Hne]; [done|].
        apply Hun. lia.
      * apply Z.ltb_ge in Hlt. split; [lia|]. split; [intros a Ha; lia|]. lia.
Qed.

(** What [search] reads of a region starts at its first mapped address:
    the addresses before it are unmapped, every address found is at or after
    it, and a region without any mapped address contributes nothing. *)
Theorem search_skips_unmapped_prefix (needle : list byte) (region : MemoryRegion) :
  0 <= start region -> start region <= end_ region -> end_ region < 2 ^ 64 ->
  let s := accessibleStart region in
  start region <= s <= end_ region /\
  (forall a, start region <= a < s -> isMapped a = false) /\
  (s < end_ region -> isMapped s = true) /\
  (forall a, a ∈ searchRegion needle region -> s <= a) /\
  ((forall a, start region <= a < end_ region -> isMapped a = false) ->
   searchRegion needle region = []).
Proof.
  intros H0 Hle Hhi. cbv zeta.
  destruct (skipUnmapped_first_mapped (Z.to_nat (end_ region - start region))
              (start region) (end_ region) H0 Hle Hhi) as (Hr & Hun & Hmap); [lia|].
  fold (accessibleStart region) in Hr, Hun, Hmap.
  split; [done|]. split; [done|]. split; [done|]. split.
  - intros a. unfold searchRegion. cbv zeta.
    destruct (end_ region <=? accessibleStart region) eqn:Hc;
      [by intros ?%elem_of_nil|].
    apply Z.leb_gt in Hc.
    rewrite list_elem_of_fmap. intros (z & -> & Hz).
    apply kmp_bounds in Hz as [Hz0 Hz1].
    pose proof (haystackOf_length region) as Hlen.
    rewrite wrap64_id in Hlen by (unfold in_u64; lia).
    rewrite wrap64_id by (unfold in_u64; lia). lia.
  - intros Hnone. unfold searchRegion. cbv zeta.
    destruct (end_ region <=? accessibleStart region) eqn:Hc; [done|].
    apply Z.leb_gt in Hc. specialize (Hmap Hc).
    rewrite Hnone in Hmap by lia. done.
Qed.

(** One unreadable concrete byte hides a whole region: when some byte of
    what [search] reads of a region is neither symbolic nor readable, the
    haystack is empty and, for a needle that is not empty, the region
    contributes no match. *)
Theorem search_region_lost_on_fault (needle : list byte) (region : MemoryRegion) (i : nat) :
  let s := accessibleStart region in
  (i < Z.to_nat (wrap64 (end_ region - s)))%nat ->
  faultAt s i ->
  needle <> [] ->
  haystackOf region = [] /\ searchRegion needle region = [].
Proof.
  cbv zeta. intros Hi Hf Hne.
  assert (Hhay : haystackOf region = []).
  { unfold haystackOf. cbv zeta. apply readConcrete_on_fault. by exists i. }
  split; [exact Hhay|].
  unfold searchRegion. cbv zeta. rewrite Hhay.
  destruct (end_ region <=? accessibleStart region); [done|].
  unfold kmp. simpl. destruct needle as [|b needle]; [done|]. done.
Qed.

(** ** Further properties of the stack probe *)

Definition pageDown (a : Z) : Z := wrap64 (a - TARGET_PAGE_SIZE).
Definition pageUp (a : Z) : Z := wrap64 (a + TARGET_PAGE_SIZE).

(** The page of RSP, from which both loops start. *)
Definition rspPage : Z := Z.land (reg_readConcrete_RSP e) page_mask.

Lemma wrap64_idemp z : wrap64 (wrap64 z) = wrap64 z.
Proof. unfold wrap64. apply Z.mod_mod. lia. Qed.

Lemma wrap64_range z : in_u64 (wrap64 z).
Proof. unfold in_u64, wrap64. apply Z.mod_pos_bound. lia. Qed.

Lemma rspPage_range : in_u64 rspPage.
Proof.
  unfold rspPage. replace (Z.land (reg_readConcrete_RSP e) page_mask)
    with (wrap64 (Z.land (reg_readConcrete_RSP e) page_mask)); [apply wrap64_range|].
  unfold wrap64. rewrite <- Z.land_ones by lia.
  rewrite <- Z.land_assoc. f_equal.
  rewrite Z.land_ones by lia. unfold page_mask. apply wrap64_idemp.
Qed.

Lemma iter_pageDown (n : nat) (a : Z) :
  in_u64 a -> Nat.iter n pageDown a = wrap64 (a - Z.of_nat n * TARGET_PAGE_SIZE).
Proof.
  intros Ha. induction n as [|n IH].
  - simpl. rewrite Z.sub_0_r. symmetry. by apply wrap64_id.
  - rewrite Nat.iter_succ, IH. unfold pageDown, wrap64.
    rewrite Zminus_mod_idemp_l. f_equal. lia.
Qed.

Lemma iter_pageUp (n : nat) (a : Z) :
  in_u64 a -> Nat.iter n pageUp a = wrap64 (a + Z.of_nat n * TARGET_PAGE_SIZE).
Proof.
  intros Ha. induction n as [|n IH].
  - simpl. rewrite Z.add_0_r. symmetry. by apply wrap64_id.
  - rewrite Nat.iter_succ, IH. unfold pageUp, wrap64.
    rewrite Zplus_mod_idemp_l. f_equal. lia.
Qed.

Lemma probeDown_stops fuel a b :
  probeDown fuel a = Some b ->
  exists n, (n < fuel)%nat /\ b = Nat.iter n pageDown a /\ isMapped b = false /\
            forall k, (k < n)%nat -> isMapped (Nat.iter k pageDown a) = true.
Proof.
  revert a. induction fuel as [|f IH]; intros a; simpl; [done|].
  destruct (isMapped a) eqn:Ha.
  - intros Hp. destruct (IH _ Hp) as (n & Hn & -> & Hb & Hall).
    exists (Datatypes.S n). split; [lia|]. rewrite Nat.iter_succ_r.
    split; [done|]. split; [done|].
    intros [|k] Hk; [done|]. rewrite Nat.iter_succ_r. apply Hall. lia.
  - intros [= <-]. exists O. split; [lia|]. split; [done|]. split; [done|].
    intros k Hk. lia.
Qed.

Lemma probeUp_stops fuel a b :
  probeUp fuel a = Some b ->
  exists n, (n < fuel)%nat /\ b = Nat.iter n pageUp a /\ isMapped b = false /\
            forall k, (k < n)%nat -> isMapped (Nat.iter k pageUp a) = true.
Proof.
  revert a. induction fuel as [|f IH]; intros a; simpl; [done|].
  destruct (isMapped a) eqn:Ha.
  - intros Hp. destruct (IH _ Hp) as (n & Hn & -> & Hb & Hall).
    exists (Datatypes.S n). split; [lia|]. rewrite Nat.iter_succ_r.
    split; [done|]. split; [done|].
    intros [|k] Hk; [done|]. rewrite Nat.iter_succ_r. apply Hall. lia.
  - intros [= <-]. exists O. split; [lia|]. split; [done|]. split; [done|].
    intros k Hk. lia.
Qed.

(** The synthesised stack region is delimited by the first unmapped page on
    each side of the page of RSP: [n] pages down and [m] pages up are
    mapped, the next one on each side is not, the start is one page above
    the unmapped page below and the end one page below the unmapped page
    above.  When the page of RSP is mapped, both bounds are mapped pages. *)
Theorem stack_probe_stops_at_unmapped_pages (fuel : nat) (stackBegin stackEnd : Z) :
  probeStack fuel = Some (stackBegin, stackEnd) ->
  exists n m : nat,
    stackBegin = wrap64 (rspPage - Z.of_nat n * TARGET_PAGE_SIZE + TARGET_PAGE_SIZE) /\
    stackEnd = wrap64 (rspPage + Z.of_nat m * TARGET_PAGE_SIZE - TARGET_PAGE_SIZE) /\
    (forall k : nat, (k < n)%nat ->
       isMapped (wrap64 (rspPage - Z.of_nat k * TARGET_PAGE_SIZE)) = true) /\
    isMapped (wrap64 (rspPage - Z.of_nat n * TARGET_PAGE_SIZE)) = false /\
    (forall k : nat, (k < m)%nat ->
       isMapped (wrap64 (rspPage + Z.of_nat k * TARGET_PAGE_SIZE)) = true) /\
    isMapped (wrap64 (rspPage + Z.of_nat m * TARGET_PAGE_SIZE)) = false /\
    (isMapped rspPage = true -> isMapped stackBegin = true /\ isMapped stackEnd = true).
Proof.
  unfold probeStack. fold rspPage.
  destruct (probeDown fuel rspPage) as [b|] eqn:Hd; [|done].
  destruct (probeUp fuel rspPage) as [t|] eqn:Hu; [|done].
  intros [= <- <-].
  apply probeDown_stops in Hd as (n & _ & -> & Hdn & Hdall).
  apply probeUp_stops in Hu as (m & _ & -> & Hum & Huall).
  pose proof rspPage_range as Hrange.
  rewrite iter_pageDown in Hdn |- * by done.
  rewrite iter_pageUp in Hum |- * by done.
  assert (Hsb : wrap64 (wrap64 (rspPage - Z.of_nat n * TARGET_PAGE_SIZE) + TARGET_PAGE_SIZE)
                = wrap64 (rspPage - Z.of_nat n * TARGET_PAGE_SIZE + TARGET_PAGE_SIZE)).
  { unfold wrap64. by rewrite Zplus_mod_idemp_l. }
  assert (Hse : wrap64 (wrap64 (rspPage + Z.of_nat m * TARGET_PAGE_SIZE) - TARGET_PAGE_SIZE)
                = wrap64 (rspPage + Z.of_nat m * TARGET_PAGE_SIZE - TARGET_PAGE_SIZE)).
  { unfold wrap64. by rewrite Zminus_mod_idemp_l. }
  exists n, m. rewrite Hsb, Hse.
  split; [done|]. split; [done|].
  split; [intros k Hk; rewrite <- iter_pageDown by done; by apply Hdall|].
  split; [done|].
  split; [intros k Hk; rewrite <- iter_pageUp by done; by apply Huall|].
  split; [done|].
  intros Hbase. split.
  - destruct n as [|n].
    { simpl in Hdn. rewrite Z.sub_0_r, wrap64_id in Hdn by done. congruence. }
    replace (rspPage - Z.of_nat (Datatypes.S n) * TARGET_PAGE_SIZE + TARGET_PAGE_SIZE)
      with (rspPage - Z.of_nat n * TARGET_PAGE_SIZE) by lia.
    rewrite <- iter_pageDown by done. apply Hdall. lia.
  - destruct m as [|m].
    { simpl in Hum. rewrite Z.add_0_r, wrap64_id in Hum by done. congruence. }
    replace (rspPage + Z.of_nat (Datatypes.S m) * TARGET_PAGE_SIZE - TARGET_PAGE_SIZE)
      with (rspPage + Z.of_nat m * TARGET_PAGE_SIZE) by lia.
    rewrite <- iter_pageUp by done. apply Huall. lia.
Qed.

(** When the page of RSP itself is not mapped, both loops stop at once and
    the synthesised region is turned inside out: it starts one page above
    and ends one page below that page.  Such a region, like any region whose
    end is not above its start, contributes nothing to [search]. *)
Theorem stack_probe_on_unmapped_rsp_page (fuel : nat) (needle : list byte) (p : Z) :
  isMapped rspPage = false ->
  (0 < fuel)%nat ->
  0 < TARGET_PAGE_SIZE ->
  TARGET_PAGE_SIZE <= rspPage -> rspPage + TARGET_PAGE_SIZE < 2 ^ 64 ->
  probeStack fuel
    = Some (rspPage + TARGET_PAGE_SIZE, rspPage - TARGET_PAGE_SIZE) /\
  searchRegion needle
    (mkRegion (rspPage + TARGET_PAGE_SIZE) (rspPage - TARGET_PAGE_SIZE) p) = [].
Proof.
  intros Hun Hfuel Hpos Hlo Hhi. split.
  - unfold probeStack. fold rspPage.
    destruct fuel as [|f]; [lia|]. simpl. rewrite Hun.
    rewrite !wrap64_id by (unfold in_u64; lia). done.
  - unfold searchRegion, accessibleStart. simpl.
    replace (Z.to_nat (rspPage - TARGET_PAGE_SIZE - (rspPage + TARGET_PAGE_SIZE)))
      with O by lia.
    simpl. replace (rspPage - TARGET_PAGE_SIZE <=? rspPage + TARGET_PAGE_SIZE) with true
      by (symmetry; apply Z.leb_le; lia).
    done.
Qed.

(** ** Further properties of the region set *)

(** The set that [getMapInfo] returns is never empty and has one region
    for each start.  Of the reported regions that start at one address it
    keeps the one reported first and drops those reported later; it has a
    region starting at every reported start and at the start of the stack
    probe.  The synthesised stack region is in the set when no reported
    region starts where it starts, and is dropped when one does. *)
Theorem getMapInfo_keeps_first_region_per_start
    (fuel : nat) (pid : Z) (iterateRegions : Z -> list (Z * Z * Z))
    (regions : list MemoryRegion) (stackBegin stackEnd : Z) :
  m_map e = Some iterateRegions ->
  probeStack fuel = Some (stackBegin, stackEnd) ->
  getMapInfo fuel pid = Ok regions ->
  regions <> [] /\
  (forall r1 r2, r1 ∈ regions -> r2 ∈ regions -> start r1 = start r2 -> r1 = r2) /\
  (forall pre t post,
     iterateRegions pid = pre ++ t :: post ->
     (forall t', t' ∈ pre -> start (regionOf t') <> start (regionOf t)) ->
     regionOf t ∈ regions) /\
  (forall pre t post t',
     iterateRegions pid = pre ++ t :: post ->
     t' ∈ pre -> start (regionOf t') = start (regionOf t) ->
     regionOf t ∉ regionOf <$> pre ->
     regionOf t ∉ regions) /\
  (forall t, t ∈ iterateRegions pid ->
     exists r, r ∈ regions /\ start r = start (regionOf t)) /\
  (exists r, r ∈ regions /\ start r = stackBegin) /\
  ((forall t, t ∈ iterateRegions pid -> start (regionOf t) <> stackBegin) ->
   mkRegion stackBegin stackEnd (Z.lor MM_READ MM_WRITE) ∈ regions) /\
  (forall t, t ∈ iterateRegions pid -> start (regionOf t) = stackBegin ->
   mkRegion stackBegin stackEnd (Z.lor MM_READ MM_WRITE) ∉ regionOf <$> iterateRegions pid ->
   mkRegion stackBegin stackEnd (Z.lor MM_READ MM_WRITE) ∉ regions).
Proof.
  intros Hmap Hstack Hrun.
  destruct (getMapInfo_member _ _ _ _ _ _ Hmap Hstack Hrun) as [Hsorted Hmem].
  set (stack := mkRegion stackBegin stackEnd (Z.lor MM_READ MM_WRITE)) in *.
  assert (Hone : forall r1 r2, r1 ∈ regions -> r2 ∈ regions ->
                   start r1 = start r2 -> r1 = r2).
  { intros r1 r2 H1 H2 Hs. destruct (decide (r1 = r2)) as [|Hne]; [done|].
    by destruct (sorted_distinct_starts _ _ _ Hsorted H1 H2 Hne). }
  assert (Hfirst : forall pre t post,
            iterateRegions pid = pre ++ t :: post ->
            (forall t', t' ∈ pre -> start (regionOf t') <> start (regionOf t)) ->
            regionOf t ∈ regions).
  { intros pre t post Heq Hpre. apply Hmem. left.
    exists (regionOf <$> pre), (regionOf <$> post).
    split; [by rewrite Heq, fmap_app|].
    intros x (t' & -> & Ht')%list_elem_of_fmap. by apply Hpre. }
  assert (Hstart : forall t, t ∈ iterateRegions pid ->
            exists r, r ∈ regions /\ r ∈ regionOf <$> iterateRegions pid /\
                      start r = start (regionOf t)).
  { intros t Ht.
    destruct (firstWithStart_exists (regionOf <$> iterateRegions pid) (regionOf t))
      as (x & Hx & Hs); [apply list_elem_of_fmap; by exists t|].
    exists x. split; [apply Hmem; by left|]. split; [by apply firstWithStart_elem|done]. }
  split; [|split; [exact Hone|split; [exact Hfirst|split; [|split; [|split; [|split]]]]]].
  - intros Hnil. unfold getMapInfo in Hrun. rewrite Hmap, Hstack in Hrun.
    injection Hrun as Hrun.
    destruct (set_insert_start stack
                (foldl (fun ret '(s, en, p) => set_insert (mkRegion s en p) ret)
                       [] (iterateRegions pid))) as (x & Hx & _).
    fold stack in Hrun. rewrite Hrun, Hnil in Hx. by apply elem_of_nil in Hx.
  - intros pre t post t' Heq Ht' Hs Hnew Hin.
    destruct (firstWithStart_exists (regionOf <$> pre) (regionOf t'))
      as (x & Hx & Hxs); [apply list_elem_of_fmap; by exists t'|].
    assert (Hxin : x ∈ regions).
    { apply Hmem. left. rewrite Heq, fmap_app. by apply firstWithStart_app_l. }
    apply Hnew. rewrite <- (Hone x (regionOf t) Hxin Hin) by congruence.
    by apply firstWithStart_elem.
  - intros t Ht. destruct (Hstart t Ht) as (r & Hr & _ & Hs). by exists r.
  - unfold getMapInfo in Hrun. rewrite Hmap, Hstack in Hrun. injection Hrun as <-.
    apply (set_insert_start stack).
  - intros Hfresh. apply Hmem. by right.
  - intros t Ht Hs Hnew Hin.
    destruct (Hstart t Ht) as (r & Hr & Hrep & Hrs).
    apply Hnew. rewrite <- (Hone r stack Hr Hin) by (simpl; congruence). done.
Qed.

End WithEngine.

(** ** Concrete engines *)

Definition hostAddressIn (ranges : list (Z * Z)) (a : Z) : Z :=
  if existsb (fun '(lo, hi) => (lo <=? a) && (a <? hi)) ranges then a else wrap64 (-1).

(** The stack occupies the pages from 0x5000 to 0x6fff, which the memory map
    does not report, and the map reports the region [0x7000, 0x9000) right
    above it. *)
Definition engAdjacent : Engine := {|
  mem_symbolic := fun _ _ => false;
  mem_read := fun _ _ => Some [x00];
  mem_getHostAddress := hostAddressIn [(0x5000, 0x9000)];
  reg_readConcrete_RSP := 0x6ff8;
  m_map := Some (fun _ => [(0x7000, 0x9000, 1)]);
  getTargetProcessPid := 1;
|}.

(** Nothing reported, a stack of one page. *)
Definition engOnePage : Engine := {|
  mem_symbolic := fun _ _ => false;
  mem_read := fun _ _ => Some [x00];
  mem_getHostAddress := hostAddressIn [(0x7000, 0x8000)];
  reg_readConcrete_RSP := 0x7008;
  m_map := Some (fun _ => []);
  getTargetProcessPid := 1;
|}.

(** A four-byte region holding "ABCD" at 0x1000, with the byte at 0x1001
    symbolic when [sym] is set, and a stack page at 0x7000. *)
Definition engData (sym : bool) : Engine := {|
  mem_symbolic := fun a _ => sym && (a =? 0x1001);
  mem_read := fun a _ =>
    if (0x1000 <=? a) && (a <? 0x1004)
    then Some [nth (Z.to_nat (a - 0x1000)) [x41; x42; x43; x44] x00]
    else None;
  mem_getHostAddress := hostAddressIn [(0x1000, 0x1004); (0x7000, 0x9000)];
  reg_readConcrete_RSP := 0x7008;
  m_map := Some (fun _ => [(0x1000, 0x1004, 1)]);
  getTargetProcessPid := 1;
|}.

Example getMapInfo_engData :
  getMapInfo 12 1 2 (engData false) 8 1
  = Ok [mkRegion 0x1000 0x1004 1; mkRegion 0x7000 0x8000 3].
Proof. vm_compute. reflexivity. Qed.

Example search_engData :
  search 12 1 2 (engData false) 8 [x42; x43] = Ok [0x1001].
Proof. vm_compute. reflexivity. Qed.

Example readConcrete_engData_symbolic :
  readConcrete (engData true) 0x1000 4 false = ([x41; x00; x43; x44], []).
Proof. vm_compute. reflexivity. Qed.

Example readConcrete_engData_fault :
  readConcrete (engData true) 0x1002 4 false = ([], [cannot_read 0x1004]).
Proof. vm_compute. reflexivity. Qed.

(** C5, refuted as stated.  With a reported region right above the stack,
    the probe runs on into it and the synthesised stack region
    [0x5000, 0x8000) overlaps the reported [0x7000, 0x9000); and for a stack
    of a single page the synthesised region has its start equal to its
    end. *)
Lemma getMapInfo_overlap_and_empty_stack_counterexample :
  (getMapInfo 12 1 2 engAdjacent 8 1
     = Ok [mkRegion 0x5000 0x8000 3; mkRegion 0x7000 0x9000 1] /\
   ~ noOverlap [mkRegion 0x5000 0x8000 3; mkRegion 0x7000 0x9000 1]) /\
  (getMapInfo 12 1 2 engOnePage 8 1 = Ok [mkRegion 0x7000 0x7000 3] /\
   probeStack 12 engOnePage 8 = Some (0x7000, 0x7000) /\
   ~ (0x7000 < 0x7000)).
Proof.
  split; [split|split; [|split]].
  - vm_compute. reflexivity.
  - intros Hno.
    apply (Hno (mkRegion 0x5000 0x8000 3) (mkRegion 0x7000 0x9000 1)).
    + left.
    + right. left.
    + discriminate.
    + unfold overlap. simpl. lia.
  - vm_compute. reflexivity.
  - vm_compute. reflexivity.
  - lia.
Qed.

Lemma getMapInfo_sorted_and_stack_start_aligned_witness :
  getMapInfo 12 1 2 (engData false) 8 1
    = Ok [mkRegion 0x1000 0x1004 1; mkRegion 0x7000 0x8000 3] /\
  StronglySorted startLt [mkRegion 0x1000 0x1004 1; mkRegion 0x7000 0x8000 3] /\
  noOverlap [mkRegion 0x1000 0x1004 1; mkRegion 0x7000 0x8000 3] /\
  (forall r, r ∈ [mkRegion 0x1000 0x1004 1; mkRegion 0x7000 0x8000 3] <->
     firstWithStart r (regionOf <$> [(0x1000, 0x1004, 1)]) \/
     (r = mkRegion 0x7000 0x8000 (Z.lor 1 2) /\
      forall t, t ∈ [(0x1000, 0x1004, 1)] -> start (regionOf t) <> 0x7000)) /\
  0x7000 mod TARGET_PAGE_SIZE 12 = 0.
Proof.
  destruct (getMapInfo_sorted_and_stack_start_aligned 12 1 2 (engData false) 8 1 2 1
              (fun _ => [(0x1000, 0x1004, 1)]))
    as (regions & stackBegin & stackEnd & Hp & Hg & Hs & _ & Hmem & _ & Hno & Hal).
  - lia.
  - reflexivity.
  - vm_compute. reflexivity.
  - vm_compute. reflexivity.
  - lia.
  - lia.
  - assert (Hp' : probeStack 12 (engData false) 8 = Some (0x7000, 0x8000))
      by (vm_compute; reflexivity).
    rewrite Hp' in Hp. injection Hp as <- <-.
    rewrite getMapInfo_engData in Hg. injection Hg as <-.
    split; [exact getMapInfo_engData|]. split; [exact Hs|].
    split; [|split; [exact Hmem|exact Hal]].
    apply Hno. simpl. intros r1 r2 H1 H2 Hne [Ha Hb].
    apply elem_of_cons in H1 as [->|H1]; [|apply list_elem_of_singleton in H1 as ->];
      (apply elem_of_cons in H2 as [->|H2]; [|apply list_elem_of_singleton in H2 as ->]);
      simpl in *; try done; lia.
Defined.

Lemma engData_regionConcrete :
  regionConcrete (engData false) (mkRegion 0x1000 0x1004 1) [x41; x42; x43; x44].
Proof.
  unfold regionConcrete. simpl.
  split; [lia|]. split; [lia|]. split; [lia|]. split; [lia|].
  intros i b Hi.
  destruct i as [|[|[|[|i]]]]; simpl in Hi; [| | | |discriminate];
    injection Hi as <-; vm_compute; auto.
Defined.

(** The same four bytes reported as two adjacent regions: "BC" lies across
    the boundary and is not found, while "AB" and "CD" are. *)
Definition engSplit : Engine := {|
  mem_symbolic := mem_symbolic (engData false);
  mem_read := mem_read (engData false);
  mem_getHostAddress := mem_getHostAddress (engData false);
  reg_readConcrete_RSP := 0x7008;
  m_map := Some (fun _ => [(0x1000, 0x1002, 1); (0x1002, 0x1004, 1)]);
  getTargetProcessPid := 1;
|}.

Example search_engSplit :
  search 12 1 2 engSplit 8 [x42; x43] = Ok [] /\
  search 12 1 2 engSplit 8 [x41; x42] = Ok [0x1000] /\
  search 12 1 2 engSplit 8 [x43; x44] = Ok [0x1002].
Proof. vm_compute. auto. Qed.

Lemma search_matches_within_single_region_witness :
  (exists found, search 12 1 2 (engData false) 8 [x42; x43] = Ok found /\
                 (0x1000 + Z.of_nat 1) ∈ found) /\
  searchRegion (engData false) [x5a] (mkRegion 0x1000 0x1004 1) = [] /\
  (forall a, a ∈ [0x1001] ->
     exists region,
       region ∈ [mkRegion 0x1000 0x1004 1; mkRegion 0x7000 0x8000 3] /\
       start region <= a /\ a + Z.of_nat (length [x42; x43]) <= end_ region).
Proof.
  split; [|split].
  - destruct (search_matches_within_single_region 12 1 2 (engData false) 8 [x42; x43]
                [mkRegion 0x1000 0x1004 1; mkRegion 0x7000 0x8000 3])
      as (_ & Hfound & _); [vm_compute; reflexivity|].
    apply (Hfound (mkRegion 0x1000 0x1004 1) [x41; x42; x43; x44] 1%nat).
    + left.
    + exact engData_regionConcrete.
    + simpl. lia.
    + reflexivity.
  - destruct (search_matches_within_single_region 12 1 2 (engData false) 8 [x5a]
                [mkRegion 0x1000 0x1004 1; mkRegion 0x7000 0x8000 3])
      as (_ & _ & Hnone & _); [vm_compute; reflexivity|].
    apply (Hnone (mkRegion 0x1000 0x1004 1) [x41; x42; x43; x44]).
    + exact engData_regionConcrete.
    + intros k Hk. simpl in Hk.
      destruct k as [|[|[|[|k]]]]; [| | | |lia]; vm_compute; discriminate.
  - destruct (search_matches_within_single_region 12 1 2 (engData false) 8 [x42; x43]
                [mkRegion 0x1000 0x1004 1; mkRegion 0x7000 0x8000 3])
      as (_ & _ & _ & Hwithin); [vm_compute; reflexivity|].
    intros a Ha. apply (Hwithin [0x1001] a).
    + intros region Hin.
      apply elem_of_cons in Hin as [->|Hin];
        [|apply list_elem_of_singleton in Hin as ->];
        unfold in_u64; simpl; lia.
    + vm_compute. reflexivity.
    + exact Ha.
Defined.

Lemma engData_no_fault (i : nat) : (i < 4)%nat -> ~ faultAt (engData true) 0x1000 i.
Proof.
  intros Hi [_ Hr].
  destruct i as [|[|[|[|i]]]]; [| | | |lia]; vm_compute in Hr; discriminate.
Defined.

Lemma readConcrete_fails_only_on_fault_witness :
  exists bs, mem_read (engData true) (wrap64 (0x1000 + Z.of_nat 2)) 1 = Some bs /\
             (readConcrete (engData true) 0x1000 4 false).1 !! 2%nat = Some (hd x00 bs).
Proof.
  destruct (readConcrete_fails_only_on_fault (engData true) 0x1000 4) as (_ & _ & Hcon).
  apply Hcon.
  - vm_compute. reflexivity.
  - vm_compute. lia.
  - vm_compute. reflexivity.
Defined.

Lemma readConcrete_zero_fills_symbolic_bytes_witness :
  (length (readConcrete (engData true) 0x1000 4 false).1 = Z.to_nat 4 /\
   (readConcrete (engData true) 0x1000 4 false).1 !! 1%nat = Some x00) /\
  haystackOf (engData true) (mkRegion 0x1000 0x1004 1) !! 1%nat = Some x00.
Proof.
  destruct (readConcrete_zero_fills_symbolic_bytes (engData true) 0x1000 4
              (mkRegion 0x1000 0x1004 1)) as [Hread Hhay].
  split.
  - destruct Hread as [Hlen Hzero].
    + intros i Hi. apply engData_no_fault. exact Hi.
    + split; [exact Hlen|]. apply Hzero.
      * vm_compute. lia.
      * vm_compute. reflexivity.
  - cbv zeta in Hhay.
    change (accessibleStart (engData true) (mkRegion 0x1000 0x1004 1)) with 0x1000 in Hhay.
    destruct Hhay as [_ Hzero].
    + intros i Hi. apply engData_no_fault. exact Hi.
    + apply Hzero.
      * vm_compute. lia.
      * vm_compute. reflexivity.
Defined.

(** ** Further concrete runs *)

(** Nothing is mapped, not even the page of RSP. *)
Definition engNoStack : Engine := {|
  mem_symbolic := fun _ _ => false;
  mem_read := fun _ _ => None;
  mem_getHostAddress := hostAddressIn [];
  reg_readConcrete_RSP := 0x7008;
  m_map := Some (fun _ => []);
  getTargetProcessPid := 1;
|}.

Example getMapInfo_engNoStack :
  getMapInfo 12 1 2 engNoStack 1 1 = Ok [mkRegion 0x8000 0x6000 3] /\
  search 12 1 2 engNoStack 1 [x41] = Ok [].
Proof. vm_compute. auto. Qed.

Lemma readConcrete_reports_first_fault_witness :
  readConcrete (engData true) 0x1002 4 false
  = ([], [cannot_read (wrap64 (0x1002 + Z.of_nat 2))]).
Proof.
  apply (readConcrete_reports_first_fault (engData true) 0x1002 4 2%nat).
  - vm_compute. lia.
  - split; vm_compute; reflexivity.
  - intros j Hj [_ Hr].
    destruct j as [|[|j]]; [| |lia]; vm_compute in Hr; discriminate.
Defined.

Lemma search_skips_unmapped_prefix_witness :
  accessibleStart (engData false) (mkRegion 0x0ffe 0x1004 1) = 0x1000 /\
  (forall a, a ∈ searchRegion (engData false) [x42; x43] (mkRegion 0x0ffe 0x1004 1) ->
             accessibleStart (engData false) (mkRegion 0x0ffe 0x1004 1) <= a).
Proof.
  destruct (search_skips_unmapped_prefix (engData false) [x42; x43]
              (mkRegion 0x0ffe 0x1004 1)) as (_ & _ & _ & Hafter & _).
  - simpl. lia.
  - simpl. lia.
  - simpl. lia.
  - split; [vm_compute; reflexivity|exact Hafter].
Defined.

Lemma search_region_lost_on_fault_witness :
  haystackOf (engData false) (mkRegion 0x1000 0x1006 1) = [] /\
  searchRegion (engData false) [x41] (mkRegion 0x1000 0x1006 1) = [].
Proof.
  apply (search_region_lost_on_fault (engData false) [x41] (mkRegion 0x1000 0x1006 1) 4%nat).
  - vm_compute. lia.
  - split; vm_compute; reflexivity.
  - discriminate.
Defined.

Lemma stack_probe_stops_at_unmapped_pages_witness :
  exists n m : nat,
    0x5000 = wrap64 (rspPage 12 engAdjacent - Z.of_nat n * TARGET_PAGE_SIZE 12
                     + TARGET_PAGE_SIZE 12) /\
    0x8000 = wrap64 (rspPage 12 engAdjacent + Z.of_nat m * TARGET_PAGE_SIZE 12
                     - TARGET_PAGE_SIZE 12) /\
    isMapped engAdjacent (wrap64 (rspPage 12 engAdjacent
                                  - Z.of_nat n * TARGET_PAGE_SIZE 12)) = false /\
    isMapped engAdjacent (wrap64 (rspPage 12 engAdjacent
                                  + Z.of_nat m * TARGET_PAGE_SIZE 12)) = false.
Proof.
  destruct (stack_probe_stops_at_unmapped_pages 12 engAdjacent 8 0x5000 0x8000)
    as (n & m & Hb & He & _ & Hdn & _ & Hup & _).
  - vm_compute. reflexivity.
  - exists n, m. auto.
Defined.

Lemma stack_probe_on_unmapped_rsp_page_witness :
  probeStack 12 engNoStack 1
    = Some (rspPage 12 engNoStack + TARGET_PAGE_SIZE 12,
            rspPage 12 engNoStack - TARGET_PAGE_SIZE 12) /\
  searchRegion engNoStack [x41]
    (mkRegion (rspPage 12 engNoStack + TARGET_PAGE_SIZE 12)
              (rspPage 12 engNoStack - TARGET_PAGE_SIZE 12) 3) = [].
Proof.
  apply (stack_probe_on_unmapped_rsp_page 12 engNoStack 1 [x41] 3).
  - vm_compute. reflexivity.
  - lia.
  - vm_compute. reflexivity.
  - vm_compute. discriminate.
  - vm_compute. reflexivity.
Defined.

(** Two reported regions start at 0x1000: the first one reported is kept. *)
Definition engTwice : Engine := {|
  mem_symbolic := fun _ _ => false;
  mem_read := fun _ _ => Some [x00];
  mem_getHostAddress := hostAddressIn [(0x1000, 0x3000); (0x7000, 0x9000)];
  reg_readConcrete_RSP := 0x7008;
  m_map := Some (fun _ => [(0x1000, 0x2000, 1); (0x1000, 0x3000, 5)]);
  getTargetProcessPid := 1;
|}.

(** The stack occupies the pages from 0x5000 to 0x8fff and the memory map
    reports a region that starts with it. *)
Definition engShadow : Engine := {|
  mem_symbolic := fun _ _ => false;
  mem_read := fun _ _ => Some [x00];
  mem_getHostAddress := hostAddressIn [(0x5000, 0x9000)];
  reg_readConcrete_RSP := 0x6ff8;
  m_map := Some (fun _ => [(0x5000, 0x6000, 1)]);
  getTargetProcessPid := 1;
|}.

Example getMapInfo_engShadow :
  probeStack 12 engShadow 8 = Some (0x5000, 0x8000) /\
  getMapInfo 12 1 2 engShadow 8 1 = Ok [mkRegion 0x5000 0x6000 1].
Proof. vm_compute. auto. Qed.

Lemma getMapInfo_keeps_first_region_per_start_witness :
  (regionOf (0x1000, 0x2000, 1)
     ∈ [mkRegion 0x1000 0x2000 1; mkRegion 0x7000 0x8000 3] /\
   (regionOf (0x1000, 0x3000, 5)
      ∉ [mkRegion 0x1000 0x2000 1; mkRegion 0x7000 0x8000 3]) /\
   mkRegion 0x7000 0x8000 (Z.lor 1 2)
     ∈ [mkRegion 0x1000 0x2000 1; mkRegion 0x7000 0x8000 3]) /\
  mkRegion 0x5000 0x8000 (Z.lor 1 2) ∉ [mkRegion 0x5000 0x6000 1].
Proof.
  split.
  - destruct (getMapInfo_keeps_first_region_per_start 12 1 2 engTwice 8 1
                (fun _ => [(0x1000, 0x2000, 1); (0x1000, 0x3000, 5)])
                [mkRegion 0x1000 0x2000 1; mkRegion 0x7000 0x8000 3] 0x7000 0x8000)
      as (_ & _ & Hfirst & Hlater & _ & _ & Hstack & _).
    + reflexivity.
    + vm_compute. reflexivity.
    + vm_compute. reflexivity.
    + split; [|split].
      * apply (Hfirst [] (0x1000, 0x2000, 1) [(0x1000, 0x3000, 5)]).
        -- reflexivity.
        -- intros t' Ht'. by apply elem_of_nil in Ht'.
      * apply (Hlater [(0x1000, 0x2000, 1)] (0x1000, 0x3000, 5) [] (0x1000, 0x2000, 1)).
        -- reflexivity.
        -- left.
        -- reflexivity.
        -- simpl. intros Hin. apply list_elem_of_singleton in Hin. discriminate.
      * apply Hstack. intros t Ht.
        apply elem_of_cons in Ht as [->|Ht];
          [|apply list_elem_of_singleton in Ht as ->]; simpl; lia.
  - destruct (getMapInfo_keeps_first_region_per_start 12 1 2 engShadow 8 1
                (fun _ => [(0x5000, 0x6000, 1)])
                [mkRegion 0x5000 0x6000 1] 0x5000 0x8000)
      as (_ & _ & _ & _ & _ & _ & _ & Hdropped).
    + reflexivity.
    + vm_compute. reflexivity.
    + vm_compute. reflexivity.
    + apply (Hdropped (0x5000, 0x6000, 1)).
      * left.
      * reflexivity.
      * simpl. intros Hin. apply list_elem_of_singleton in Hin. discriminate.
Defined.

End MemoryManager.

(** * Expressions, constraints and the engine seen by the modules *)

(** [klee::Expr] with the subclasses that the sources build: constants, and
    CRAX's [ByteVectorExpr] and [BaseOffsetExpr]; [OtherExpr] stands for any
    other (non-constant) expression. *)
Inductive BaseType : Type := VAR | SYM | GOT | BSS.

Inductive Expr : Type :=
| ConstantExpr (value : Z) (width : Z)
| ByteVectorExpr (bytes : list byte)
| BaseOffsetExpr (base : BaseType) (elf : string) (symbol : option string)
| OtherExpr (name : string).

#[global] Instance BaseType_eq_dec : EqDecision BaseType.
Proof. solve_decision. Defined.
#[global] Instance Expr_eq_dec : EqDecision Expr.
Proof. solve_decision. Defined.

Definition Int64 : Z := 64.

(** A [RopSubchain] is a [std::vector<ref<Expr>>]. *)
Definition RopSubchain : Type := list Expr.

Inductive Register : Type :=
| RAX | RBX | RCX | RDX | RSI | RDI | RBP | RSP
| R8 | R9 | R10 | R11 | R12 | R13 | R14 | R15 | RIP.

#[global] Instance Register_eq_dec : EqDecision Register.
Proof. solve_decision. Defined.

(** Execution states are named by a number. *)
Definition StateId : Type := nat.

(** [DynamicRop::Constraint] is a [std::variant] of the two. *)
Inductive Constraint : Type :=
| RegisterConstraint (reg : Register) (expr : Expr)
| MemoryConstraint (addr : Z) (expr : Expr).

#[global] Instance Constraint_eq_dec : EqDecision Constraint.
Proof. solve_decision. Defined.

(** The calls made into the engine, in the order in which they are made. *)
Inductive Event : Type :=
| EvAddRegisterConstraint (state : StateId) (reg : Register) (e : Expr)
| EvRegWriteSymbolic (state : StateId) (reg : Register) (e : Expr)
| EvAddMemoryConstraint (state : StateId) (addr : Z) (e : Expr)
| EvMemWriteSymbolic (state : StateId) (addr : Z) (e : Expr)
| EvSetRipSymbolic (state : StateId) (e : Expr)
| EvTerminateState (state : StateId) (message : string).

#[global] Instance Event_eq_dec : EqDecision Event.
Proof. solve_decision. Defined.

(** The engine's side of those calls, over its own data [S].
    [terminateState] also tells whether the call returns to its caller: the
    executor leaves by a [CpuExitException] when it is asked to terminate the
    state that it is running.  [mapInfo_find] is [getMapInfo().find(addr)]
    followed by [->moduleName] ([None] for [end()]). *)
Record EngineOps (S : Type) : Type := mkOps {
  addRegisterConstraint : S -> StateId -> Register -> Expr -> S * bool;
  addMemoryConstraint : S -> StateId -> Z -> Expr -> S * bool;
  reg_writeSymbolic : S -> StateId -> Register -> Expr -> S;
  mem_writeSymbolic : S -> StateId -> Z -> Expr -> S;
  reg_readConcrete : S -> StateId -> Register -> Z;
  reg_setRipSymbolic : S -> StateId -> Expr -> S;
  showRegInfo : S -> StateId -> list LogEntry;
  showMapInfo : S -> StateId -> list LogEntry;
  terminateState : S -> StateId -> string -> S * bool;
  mapInfo_find : S -> StateId -> Z -> option string;
}.
Arguments addRegisterConstraint {S}.
Arguments addMemoryConstraint {S}.
Arguments reg_writeSymbolic {S}.
Arguments mem_writeSymbolic {S}.
Arguments reg_readConcrete {S}.
Arguments reg_setRipSymbolic {S}.
Arguments showRegInfo {S}.
Arguments showMapInfo {S}.
Arguments terminateState {S}.
Arguments mapInfo_find {S}.

(** The world in which the modules run: the engine's data, the selector of
    the current state, the DynamicRop module's group under construction and
    its per-state queues, and what has been observed so far. *)
Record World (S : Type) : Type := mkWorld {
  engine : S;
  currentState : StateId;
  m_currentConstraintGroup : list Constraint;
  constraintsQueue : gmap StateId (list (list Constraint));
  trace : list Event;
  warnings : list LogEntry;
}.
Arguments mkWorld {S}.
Arguments engine {S}.
Arguments currentState {S}.
Arguments m_currentConstraintGroup {S}.
Arguments constraintsQueue {S}.
Arguments trace {S}.
Arguments warnings {S}.

Section WorldUpdates.
Context {S : Type}.

Definition setEngine (s : S) (w : World S) : World S :=
  mkWorld s (currentState w) (m_currentConstraintGroup w) (constraintsQueue w)
          (trace w) (warnings w).

Definition setCurrentState (state : StateId) (w : World S) : World S :=
  mkWorld (engine w) state (m_currentConstraintGroup w) (constraintsQueue w)
          (trace w) (warnings w).

Definition setGroup (g : list Constraint) (w : World S) : World S :=
  mkWorld (engine w) (currentState w) g (constraintsQueue w) (trace w) (warnings w).

Definition setQueues (q : gmap StateId (list (list Constraint))) (w : World S) : World S :=
  mkWorld (engine w) (currentState w) (m_currentConstraintGroup w) q
          (trace w) (warnings w).

Definition record (evs : list Event) (w : World S) : World S :=
  mkWorld (engine w) (currentState w) (m_currentConstraintGroup w) (constraintsQueue w)
          (trace w ++ evs) (warnings w).

Definition logWarn (l : list LogEntry) (w : World S) : World S :=
  mkWorld (engine w) (currentState w) (m_currentConstraintGroup w) (constraintsQueue w)
          (trace w) (warnings w ++ l).

(** The module state of [state]: its queue, empty until something is
    committed. *)
Definition queueOf (w : World S) (state : StateId) : list (list Constraint) :=
  default [] (constraintsQueue w !! state).

End WorldUpdates.

(** * Modules/DynamicRop/DynamicRop.cpp *)

Module DynamicRop.

Section WithEngine.

Context {S : Type} (ops : EngineOps S).

(** [g_crax->getUserSpecifiedElfBase()] (0 when the user gave none),
    [ELF::rebaseAddress] and [VirtualMemoryMap::s_elfLabel] are declared
    outside the sources and taken as given. *)
Variable userSpecifiedElfBase : Z.
Variable rebaseAddress : Z -> Z -> Z.
Variable s_elfLabel : string.

(** [DynamicRop::addConstraint] *)
Definition addConstraint (w : World S) (c : Constraint) : World S :=
  setGroup (m_currentConstraintGroup w ++ [c]) w.

(** [DynamicRop::commitConstraints]: the group is moved onto the queue of the
    current state, which leaves the member empty. *)
Definition commitConstraints (w : World S) : World S :=
  let state := currentState w in
  setGroup []
    (setQueues (<[state := queueOf w state ++ [m_currentConstraintGroup w]]>
                  (constraintsQueue w)) w).

(** The end of the loop body: [if (!ok) terminateState(state, ...)]. *)
Definition checkOk (state : StateId) (ok : bool) (isRip : bool) (w : World S)
  : World S * res bool :=
  if ok then (w, Ok isRip)
  else
    let '(s', returns) := terminateState ops (engine w) state "Dynamic ROP failed" in
    let w' := record [EvTerminateState state "Dynamic ROP failed"] (setEngine s' w) in
    (w', if returns then Ok isRip else CpuExit).

(** The address after the attempt to rebase it: [e1] of the source. *)
Definition rebased (w : World S) (state : StateId) (value : Z) (expr : Expr) : Expr :=
  let isElfAddress :=
    match mapInfo_find ops (engine w) state value with
    | Some moduleName => bool_decide (moduleName = s_elfLabel)
    | None => false
    end in
  if negb (userSpecifiedElfBase =? 0) && isElfAddress
  then ConstantExpr (rebaseAddress value userSpecifiedElfBase) Int64
  else expr.

(** One iteration of the loop over the front group.  The result tells
    whether the constraint was on RIP.  [dyn_cast<ConstantExpr>] yields a null
    pointer for an expression that is not a constant, and [ce] is
    dereferenced unconditionally. *)
Definition applyConstraint (state : StateId) (c : Constraint) (w : World S)
  : World S * res bool :=
  match c with
  | RegisterConstraint reg expr =>
      match expr with
      | ConstantExpr value _ =>
          let e1 := rebased w state value expr in
          let e2 := expr in
          let '(s1, ok) := addRegisterConstraint ops (engine w) state reg e1 in
          let s2 := reg_writeSymbolic ops s1 (currentState w) reg e2 in
          let w' := record [EvAddRegisterConstraint state reg e1;
                            EvRegWriteSymbolic (currentState w) reg e2]
                           (setEngine s2 w) in
          checkOk state ok (bool_decide (reg = RIP)) w'
      | _ => (w, NullDeref "ce")
      end
  | MemoryConstraint addr expr =>
      let '(s1, ok) := addMemoryConstraint ops (engine w) state addr expr in
      let s2 := mem_writeSymbolic ops s1 (currentState w) addr expr in
      let w' := record [EvAddMemoryConstraint state addr expr;
                        EvMemWriteSymbolic (currentState w) addr expr]
                       (setEngine s2 w) in
      checkOk state ok false w'
  end.

(** The loop [for (const auto &c : modState->constraintsQueue.front())]. *)
Fixpoint applyGroup (state : StateId) (cs : list Constraint) (hasRipConstraint : bool)
    (w : World S) : World S * res bool :=
  match cs with
  | [] => (w, Ok hasRipConstraint)
  | c :: cs' =>
      match applyConstraint state c w with
      | (w', Ok isRip) => applyGroup state cs' (hasRipConstraint || isRip) w'
      | (w', failure) => (w', failure)
      end
  end.

Definition noMoreConstraints : LogEntry :=
  Warn "No more dynamic ROP constraints to apply." [].
Definition addingConstraints : LogEntry :=
  Warn "Adding dynamic ROP constraints..." [].

(** [DynamicRop::applyNextConstraintGroup] *)
Definition applyNextConstraintGroup (state : StateId) (w : World S)
  : World S * res unit :=
  match queueOf w state with
  | [] => (logWarn [noMoreConstraints] w, Ok tt)
  | front :: rest =>
      match applyGroup state front false (logWarn [addingConstraints] w) with
      | (w', Ok hasRipConstraint) =>
          let w'' := setQueues (<[state := rest]> (constraintsQueue w')) w' in
          (w'', if hasRipConstraint then CpuExit else Ok tt)
      | (w', AssertFail what) => (w', AssertFail what)
      | (w', NullDeref what) => (w', NullDeref what)
      | (w', OutOfRange what) => (w', OutOfRange what)
      | (w', CpuExit) => (w', CpuExit)
      | (w', OutOfFuel) => (w', OutOfFuel)
      end
  end.

(** [DynamicRop::beforeExploitGeneration]: the hook, run on the state given. *)
Definition beforeExploitGeneration (state : StateId) (w : World S) : World S * res unit :=
  applyNextConstraintGroup state w.

(** The constraints applied so far, read off the calls that mark a register
    or an address symbolic again: each carries the constraint as it was
    committed.  The calls that inject the constraints are not among them:
    [appliedInOrder], below, tells them on the whole trace. *)
Definition appliedOf (ev : Event) : option Constraint :=
  match ev with
  | EvRegWriteSymbolic _ reg e => Some (RegisterConstraint reg e)
  | EvMemWriteSymbolic _ addr e => Some (MemoryConstraint addr e)
  | _ => None
  end.

Definition applied (w : World S) : list Constraint := omap appliedOf (trace w).

(** ** What one invocation touches *)

Lemma applied_record (w : World S) evs :
  applied (record evs w) = applied w ++ omap appliedOf evs.
Proof. unfold applied, record. simpl. apply omap_app. Qed.

Lemma checkOk_spec state ok isRip (w w' : World S) o :
  checkOk state ok isRip w = (w', o) ->
  constraintsQueue w' = constraintsQueue w /\
  currentState w' = currentState w /\
  m_currentConstraintGroup w' = m_currentConstraintGroup w /\
  warnings w' = warnings w /\
  applied w' = applied w /\
  (trace w' = trace w \/
   trace w' = trace w ++ [EvTerminateState state "Dynamic ROP failed"]) /\
  (o = Ok isRip \/ (o = CpuExit /\ ok = false)).
Proof.
  unfold checkOk. destruct ok.
  - intros [= <- <-]. repeat split; auto.
  - destruct (terminateState ops (engine w) state "Dynamic ROP failed") as [s' returns].
    intros [= <- <-]. rewrite applied_record. simpl. rewrite app_nil_r.
    repeat split; auto. destruct returns; auto.
Qed.

(** The events of one constraint: the injection, the re-marking, and the
    termination when the injection failed. *)
Lemma applyConstraint_spec state c (w w' : World S) o :
  applyConstraint state c w = (w', o) ->
  constraintsQueue w' = constraintsQueue w /\
  currentState w' = currentState w /\
  m_currentConstraintGroup w' = m_currentConstraintGroup w /\
  warnings w' = warnings w /\
  ((exists what, o = NullDeref what) /\ applied w' = applied w \/
   (o = CpuExit \/ exists isRip, o = Ok isRip) /\ applied w' = applied w ++ [c]).
Proof.
  unfold applyConstraint. destruct c as [reg expr|addr expr].
  - destruct expr as [value width| | |].
    2-4: intros [= <- <-]; do 4 (split; [done|]); left; split; [by eexists|done].
    destruct (addRegisterConstraint ops (engine w) state reg _) as [s1 ok].
    intros Hc. apply checkOk_spec in Hc as (Hq & Hcur & Hg & Hw & Happ & _ & Ho).
    rewrite Happ, applied_record. simpl.
    do 4 (split; [done|]). right. split; [|done].
    destruct Ho as [->|[-> _]]; [right; by eexists|by left].
  - destruct (addMemoryConstraint ops (engine w) state addr expr) as [s1 ok].
    intros Hc. apply checkOk_spec in Hc as (Hq & Hcur & Hg & Hw & Happ & _ & Ho).
    rewrite Happ, applied_record. simpl.
    do 4 (split; [done|]). right. split; [|done].
    destruct Ho as [->|[-> _]]; [right; by eexists|by left].
Qed.

Lemma applyGroup_spec state cs hasRip (w w' : World S) o :
  applyGroup state cs hasRip w = (w', o) ->
  constraintsQueue w' = constraintsQueue w /\
  currentState w' = currentState w /\
  m_currentConstraintGroup w' = m_currentConstraintGroup w /\
  warnings w' = warnings w /\
  exists k, (k <= length cs)%nat /\ applied w' = applied w ++ take k cs /\
            ((exists b, o = Ok b) -> k = length cs).
Proof.
  revert hasRip w. induction cs as [|c cs IH]; intros hasRip w; simpl.
  - intros [= <- <-]. repeat split; auto. exists O. rewrite app_nil_r. auto.
  - destruct (applyConstraint state c w) as [w1 o1] eqn:Hc.
    apply applyConstraint_spec in Hc as (Hq & Hcur & Hg & Hw & Ho).
    destruct o1 as [isRip|what|what|what| |].
    + intros Hrec. apply IH in Hrec as (Hq' & Hcur' & Hg' & Hw' & k & Hk & Happ & Hfull).
      destruct Ho as [[[? [=]] _]|[_ Ha]].
      repeat split; try congruence.
      exists (Datatypes.S k). split; [lia|]. split.
      * rewrite Happ, Ha, <- app_assoc. done.
      * intros Hb. by rewrite Hfull.
    + intros [= <- <-]. destruct Ho as [[_ Ha]|[[[=]|[? [=]]] _]].
      repeat split; auto. exists O. rewrite Ha, app_nil_r.
      split; [lia|]. split; [done|]. intros [? [=]].
    + intros [= <- <-]. destruct Ho as [[_ Ha]|[[[=]|[? [=]]] _]].
      repeat split; auto. exists O. rewrite Ha, app_nil_r.
      split; [lia|]. split; [done|]. intros [? [=]].
    + intros [= <- <-]. destruct Ho as [[_ Ha]|[[[=]|[? [=]]] _]].
      repeat split; auto. exists O. rewrite Ha, app_nil_r.
      split; [lia|]. split; [done|]. intros [? [=]].
    + intros [= <- <-]. destruct Ho as [[[? [=]] _]|[_ Ha]].
      repeat split; auto. exists 1%nat. rewrite Ha. simpl.
      split; [lia|]. split; [by rewrite take_0|]. intros [? [=]].
    + intros [= <- <-]. destruct Ho as [[[? [=]] _]|[[[=]|[? [=]]] _]].
Qed.



(** ** Groups that go through *)

(** A register constraint whose value is a constant, or a memory
    constraint. *)
Definition constantValued (c : Constraint) : Prop :=
  match c with
  | RegisterConstraint _ (ConstantExpr _ _) => True
  | RegisterConstraint _ _ => False
  | MemoryConstraint _ _ => True
  end.

Definition onRip (c : Constraint) : bool :=
  match c with
  | RegisterConstraint reg _ => bool_decide (reg = RIP)
  | MemoryConstraint _ _ => false
  end.

(** The loop is left early only by a fault or by [terminateState] not
    returning; neither happens when [terminateState] returns to its caller or
    when no injection fails. *)
Definition terminateReturns : Prop :=
  forall s state message, (terminateState ops s state message).2 = true.

Definition injectionsSucceed : Prop :=
  (forall s state reg e, (addRegisterConstraint ops s state reg e).2 = true) /\
  (forall s state addr e, (addMemoryConstraint ops s state addr e).2 = true).

Lemma checkOk_total state ok isRip (w : World S) :
  terminateReturns \/ ok = true ->
  exists w', checkOk state ok isRip w = (w', Ok isRip).
Proof.
  intros H. unfold checkOk. destruct ok; [by eexists|].
  destruct H as [Hret|[=]].
  specialize (Hret (engine w) state "Dynamic ROP failed").
  destruct (terminateState ops (engine w) state "Dynamic ROP failed") as [s' returns].
  simpl in Hret. subst returns. by eexists.
Qed.

Lemma applyConstraint_total state c (w : World S) :
  constantValued c -> terminateReturns \/ injectionsSucceed ->
  exists w', applyConstraint state c w = (w', Ok (onRip c)).
Proof.
  intros Hc Hgo. unfold applyConstraint. destruct c as [reg expr|addr expr].
  - destruct expr as [value width| | |]; try done. simpl.
    destruct (addRegisterConstraint ops (engine w) state reg _) as [s1 ok] eqn:Hadd.
    apply checkOk_total. destruct Hgo as [?|[Hreg _]]; [by left|right].
    specialize (Hreg (engine w) state reg (rebased w state value (ConstantExpr value width))).
    by rewrite Hadd in Hreg.
  - simpl.
    destruct (addMemoryConstraint ops (engine w) state addr expr) as [s1 ok] eqn:Hadd.
    apply checkOk_total. destruct Hgo as [?|[_ Hmem]]; [by left|right].
    specialize (Hmem (engine w) state addr expr). by rewrite Hadd in Hmem.
Qed.

Lemma applyGroup_total state cs hasRip (w : World S) :
  Forall constantValued cs -> terminateReturns \/ injectionsSucceed ->
  exists w', applyGroup state cs hasRip w = (w', Ok (hasRip || existsb onRip cs)).
Proof.
  intros Hcs Hgo. revert hasRip w.
  induction Hcs as [|c cs Hc _ IH]; intros hasRip w; simpl.
  - rewrite orb_false_r. by eexists.
  - destruct (applyConstraint_total state c w Hc Hgo) as [w1 ->].
    rewrite orb_assoc. apply IH.
Qed.


(** ** The calls made for a group *)















(** ** Committing *)

Lemma foldl_addConstraint (w : World S) cs :
  foldl addConstraint w cs
  = setGroup (m_currentConstraintGroup w ++ cs) w.
Proof.
  revert w. induction cs as [|c cs IH]; intros w; simpl.
  - rewrite app_nil_r. by destruct w.
  - rewrite IH. unfold addConstraint, setGroup. simpl. by rewrite <- app_assoc.
Qed.


(** ** The queue discipline *)


(** ** Rebasing *)


(** ** Isolation of the states *)

Lemma queueOf_setQueues_insert_ne (w : World S) state other q :
  other <> state ->
  queueOf (setQueues (<[state := q]> (constraintsQueue w)) w) other = queueOf w other.
Proof. intros Hne. unfold queueOf, setQueues. simpl. by rewrite lookup_insert_ne. Qed.

Lemma applyNext_frame state (w w' : World S) o :
  applyNextConstraintGroup state w = (w', o) ->
  m_currentConstraintGroup w' = m_currentConstraintGroup w /\
  currentState w' = currentState w /\
  forall other, other <> state -> queueOf w' other = queueOf w other.
Proof.
  unfold applyNextConstraintGroup.
  destruct (queueOf w state) as [|front rest] eqn:Hq.
  - intros [= <- <-]. done.
  - destruct (applyGroup state front false (logWarn [addingConstraints] w))
      as [w1 o1] eqn:Hg.
    apply applyGroup_spec in Hg as (Hq1 & Hcur & Hgr & _ & _).
    assert (Hsame : forall other, queueOf w1 other = queueOf w other).
    { intros other. unfold queueOf. by rewrite Hq1. }
    destruct o1 as [hasRip|what|what|what| |]; intros [= <- <-].
    2-6: split; [exact Hgr|]; split; [exact Hcur|]; intros other _; apply Hsame.
    split; [exact Hgr|]. split; [exact Hcur|].
    intros other Hne. rewrite queueOf_setQueues_insert_ne by done. apply Hsame.
Qed.

(** Committing touches the queue of the current state only, where it
    appends the group as a whole, and makes no call into the engine; an
    invocation of [applyNextConstraintGroup] touches the queue of its state
    only, and keeps the group under construction and the selector of the
    current state. *)
Theorem queues_of_other_states_untouched (w : World S) :
  (queueOf (commitConstraints w) (currentState w)
     = queueOf w (currentState w) ++ [m_currentConstraintGroup w] /\
   trace (commitConstraints w) = trace w /\
   forall other, other <> currentState w ->
     queueOf (commitConstraints w) other = queueOf w other) /\
  (forall state w' o,
     applyNextConstraintGroup state w = (w', o) ->
     m_currentConstraintGroup w' = m_currentConstraintGroup w /\
     currentState w' = currentState w /\
     forall other, other <> state -> queueOf w' other = queueOf w other).
Proof.
  split.
  - unfold commitConstraints. cbv zeta. split; [|split].
    + unfold queueOf, setGroup, setQueues. simpl. by rewrite lookup_insert_eq.
    + done.
    + intros other Hne. unfold queueOf, setGroup, setQueues. simpl.
      by rewrite lookup_insert_ne.
  - intros state w' o. apply applyNext_frame.
Qed.

(** ** Constraints that are not committed *)

Lemma checkOk_setGroup g state ok isRip (w : World S) :
  checkOk state ok isRip (setGroup g w)
  = let r := checkOk state ok isRip w in (setGroup g r.1, r.2).
Proof.
  unfold checkOk. destruct ok; [done|]. simpl.
  by destruct (terminateState ops (engine w) state "Dynamic ROP failed").
Qed.

Lemma applyConstraint_setGroup g state c (w : World S) :
  applyConstraint state c (setGroup g w)
  = let r := applyConstraint state c w in (setGroup g r.1, r.2).
Proof.
  unfold applyConstraint. destruct c as [reg expr|addr expr].
  - destruct expr as [value width| | |]; try done.
    change (rebased (setGroup g w) state value (ConstantExpr value width))
      with (rebased w state value (ConstantExpr value width)).
    simpl.
    destruct (addRegisterConstraint ops (engine w) state reg _) as [s1 ok].
    exact (checkOk_setGroup g state ok _
             (record [EvAddRegisterConstraint state reg
                        (rebased w state value (ConstantExpr value width));
                      EvRegWriteSymbolic (currentState w) reg (ConstantExpr value width)]
                     (setEngine (reg_writeSymbolic ops s1 (currentState w) reg
                                   (ConstantExpr value width)) w))).
  - simpl. destruct (addMemoryConstraint ops (engine w) state addr expr) as [s1 ok].
    exact (checkOk_setGroup g state ok _
             (record [EvAddMemoryConstraint state addr expr;
                      EvMemWriteSymbolic (currentState w) addr expr]
                     (setEngine (mem_writeSymbolic ops s1 (currentState w) addr expr) w))).
Qed.

Lemma applyGroup_setGroup g state cs hasRip (w : World S) :
  applyGroup state cs hasRip (setGroup g w)
  = let r := applyGroup state cs hasRip w in (setGroup g r.1, r.2).
Proof.
  revert hasRip w. induction cs as [|c cs IH]; intros hasRip w; simpl; [done|].
  rewrite applyConstraint_setGroup. cbv zeta.
  destruct (applyConstraint state c w) as [w1 [isRip|what|what|what| |]]; simpl;
    [apply IH|done..].
Qed.

(** Constraints that were added but not committed are seen by no state:
    they change no queue, and an invocation of [applyNextConstraintGroup]
    does exactly what it does without them, leaving them in the group under
    construction. *)
Theorem uncommitted_constraints_are_invisible
    (state : StateId) (cs : list Constraint) (w : World S) :
  (forall other, queueOf (foldl addConstraint w cs) other = queueOf w other) /\
  applyNextConstraintGroup state (foldl addConstraint w cs)
  = let r := applyNextConstraintGroup state w in
    (foldl addConstraint r.1 cs, r.2).
Proof.
  split; [intros other; by rewrite foldl_addConstraint|].
  cbv zeta.
  assert (Hkeep : m_currentConstraintGroup (applyNextConstraintGroup state w).1
                  = m_currentConstraintGroup w).
  { destruct (applyNextConstraintGroup state w) as [w' o] eqn:Hrun.
    by destruct (applyNext_frame state w w' o Hrun) as [? _]. }
  rewrite !foldl_addConstraint, Hkeep.
  set (g := m_currentConstraintGroup w ++ cs).
  unfold applyNextConstraintGroup.
  change (queueOf (setGroup g w) state) with (queueOf w state).
  destruct (queueOf w state) as [|front rest]; [done|].
  change (logWarn [addingConstraints] (setGroup g w))
    with (setGroup g (logWarn [addingConstraints] w)).
  rewrite applyGroup_setGroup. cbv zeta.
  destruct (applyGroup state front false (logWarn [addingConstraints] w))
    as [w1 [hasRip|what|what|what| |]]; done.
Qed.

(** ** Groups that do not go through *)

Lemma applyGroup_app state pre cs hasRip (w : World S) :
  applyGroup state (pre ++ cs) hasRip w
  = match applyGroup state pre hasRip w with
    | (w1, Ok hasRip1) => applyGroup state cs hasRip1 w1
    | (w1, failure) => (w1, failure)
    end.
Proof.
  revert hasRip w. induction pre as [|c pre IH]; intros hasRip w; simpl; [done|].
  destruct (applyConstraint state c w) as [w1 [isRip|what|what|what| |]];
    [apply IH|done..].
Qed.

Lemma applyGroup_cons state c cs hasRip (w : World S) :
  applyGroup state (c :: cs) hasRip w
  = match applyConstraint state c w with
    | (w', Ok isRip) => applyGroup state cs (hasRip || isRip) w'
    | (w', failure) => (w', failure)
    end.
Proof. reflexivity. Qed.

(** A register constraint whose value is not a constant stops the
    invocation with a null dereference before any call is made for it: the
    constraints before it have been applied, those after it are not, and the
    group stays at the front of the queue. *)
Theorem non_constant_register_constraint_faults
    (state : StateId) (pre post : list Constraint) (reg : Register) (expr : Expr)
    (rest : list (list Constraint)) (w : World S) :
  queueOf w state = (pre ++ RegisterConstraint reg expr :: post) :: rest ->
  (forall value width, expr <> ConstantExpr value width) ->
  Forall constantValued pre ->
  terminateReturns \/ injectionsSucceed ->
  exists w',
    applyNextConstraintGroup state w = (w', NullDeref "ce") /\
    applied w' = applied w ++ pre /\
    queueOf w' state = (pre ++ RegisterConstraint reg expr :: post) :: rest.
Proof.
  intros Hq Hexpr Hpre Hgo.
  destruct (applyGroup_total state pre false (logWarn [addingConstraints] w) Hpre Hgo)
    as [w1 Hg].
  pose proof (applyGroup_spec _ _ _ _ _ _ Hg) as (Hq1 & _ & _ & _ & k & _ & Happ & Hfull).
  rewrite Hfull, firstn_all in Happ by by eexists.
  assert (Hc : applyConstraint state (RegisterConstraint reg expr) w1
               = (w1, NullDeref "ce")).
  { unfold applyConstraint. destruct expr as [value width| | |]; try done.
    by destruct (Hexpr value width). }
  exists w1. split; [|split].
  - unfold applyNextConstraintGroup. rewrite Hq, applyGroup_app, Hg.
    cbv beta iota. by rewrite applyGroup_cons, Hc.
  - exact Happ.
  - unfold queueOf. rewrite Hq1. exact Hq.
Qed.

Lemma applyConstraint_CpuExit state c (w w' : World S) :
  applyConstraint state c w = (w', CpuExit) ->
  last (trace w') = Some (EvTerminateState state "Dynamic ROP failed") /\
  applied w' = applied w ++ [c] /\
  constraintsQueue w' = constraintsQueue w.
Proof.
  intros Hc.
  pose proof (applyConstraint_spec _ _ _ _ _ Hc) as (Hq & _ & _ & _ & Ho).
  destruct Ho as [[[what [=]] _]|[_ Happ]].
  split; [|done].
  assert (Hck : forall ok isRip (x : World S),
            checkOk state ok isRip x = (w', CpuExit) ->
            last (trace w') = Some (EvTerminateState state "Dynamic ROP failed")).
  { intros ok isRip x. unfold checkOk. destruct ok; [done|].
    destruct (terminateState ops (engine x) state "Dynamic ROP failed") as [s' returns].
    destruct returns; [done|]. intros [= <-]. simpl. apply last_snoc. }
  unfold applyConstraint in Hc. destruct c as [reg expr|addr expr].
  - destruct expr as [value width| | |]; try done.
    destruct (addRegisterConstraint ops (engine w) state reg _) as [s1 ok].
    by eapply Hck.
  - destruct (addMemoryConstraint ops (engine w) state addr expr) as [s1 ok].
    by eapply Hck.
Qed.

(** When the injection of a constraint fails and [terminateState] does not
    return, the invocation ends there with the engine's exception: the
    termination of the state is the last call made, the constraint itself
    has been injected and re-marked, the constraints after it are not
    applied and the group is not popped. *)
Theorem failed_injection_stops_the_group
    (state : StateId) (pre post : list Constraint) (c : Constraint)
    (rest : list (list Constraint)) (hasRip : bool) (w w1 w2 : World S) :
  queueOf w state = (pre ++ c :: post) :: rest ->
  applyGroup state pre false (logWarn [addingConstraints] w) = (w1, Ok hasRip) ->
  applyConstraint state c w1 = (w2, CpuExit) ->
  applyNextConstraintGroup state w = (w2, CpuExit) /\
  last (trace w2) = Some (EvTerminateState state "Dynamic ROP failed") /\
  applied w2 = applied w ++ pre ++ [c] /\
  queueOf w2 state = (pre ++ c :: post) :: rest.
Proof.
  intros Hq Hg Hc.
  pose proof (applyGroup_spec _ _ _ _ _ _ Hg) as (Hq1 & _ & _ & _ & k & _ & Happ & Hfull).
  rewrite Hfull, firstn_all in Happ by by eexists.
  destruct (applyConstraint_CpuExit _ _ _ _ Hc) as (Hlast & Happ2 & Hq2).
  split; [|split; [done|split]].
  - unfold applyNextConstraintGroup. rewrite Hq, applyGroup_app, Hg.
    cbv beta iota. by rewrite applyGroup_cons, Hc.
  - rewrite Happ2, Happ, <- app_assoc. done.
  - unfold queueOf. rewrite Hq2, Hq1. exact Hq.
Qed.

(** ** Any number of groups *)






End WithEngine.

(** ** A concrete engine *)

(** An engine without data of its own: every injection succeeds,
    [terminateState] does not return, and the addresses from 0x400000 to
    0x4fffff belong to the image labelled "target", those from 0x7f0000 to
    0x7fffff to "libc.so.6". *)
Definition demoOps : EngineOps unit := {|
  addRegisterConstraint := fun s _ _ _ => (s, true);
  addMemoryConstraint := fun s _ _ _ => (s, true);
  reg_writeSymbolic := fun s _ _ _ => s;
  mem_writeSymbolic := fun s _ _ _ => s;
  reg_readConcrete := fun _ _ _ => 0x401136;
  reg_setRipSymbolic := fun s _ _ => s;
  showRegInfo := fun _ _ => [];
  showMapInfo := fun _ _ => [];
  terminateState := fun s _ _ => (s, false);
  mapInfo_find := fun _ _ a =>
    if (0x400000 <=? a) && (a <? 0x500000) then Some "target"
    else if (0x7f0000 <=? a) && (a <? 0x800000) then Some "libc.so.6"
    else None;
|}.

Definition demoRebase (a base : Z) : Z := wrap64 (a - 0x400000 + base).

Definition demoWorld : World unit := mkWorld tt 0%nat [] ∅ [] [].

Definition demoG1 : list Constraint :=
  [RegisterConstraint RSP (ConstantExpr 0x404800 64);
   RegisterConstraint RIP (ConstantExpr 0x401136 64)].

Definition demoG2 : list Constraint :=
  [MemoryConstraint 0x404800 (ConstantExpr 0 64)].

Example demo_apply_first :
  let committed :=
    commitConstraints (foldl addConstraint
      (commitConstraints (foldl addConstraint demoWorld demoG1)) demoG2) in
  let r := applyNextConstraintGroup demoOps 0x555555554000 demoRebase "target" 0%nat committed in
  trace r.1 = [EvAddRegisterConstraint 0%nat RSP (ConstantExpr 0x555555558800 64);
               EvRegWriteSymbolic 0%nat RSP (ConstantExpr 0x404800 64);
               EvAddRegisterConstraint 0%nat RIP (ConstantExpr 0x555555555136 64);
               EvRegWriteSymbolic 0%nat RIP (ConstantExpr 0x401136 64)] /\
  r.2 = CpuExit /\ queueOf r.1 0%nat = [demoG2].
Proof. vm_compute. auto. Qed.

Lemma demoOps_injectionsSucceed : injectionsSucceed demoOps.
Proof. split; intros; reflexivity. Defined.



(** ** Further concrete runs *)

(** An engine that rejects every constraint on the address 0. *)
Definition strictOps : EngineOps unit := {|
  addRegisterConstraint := fun s _ _ _ => (s, true);
  addMemoryConstraint := fun s _ addr _ => (s, negb (addr =? 0));
  reg_writeSymbolic := fun s _ _ _ => s;
  mem_writeSymbolic := fun s _ _ _ => s;
  reg_readConcrete := fun _ _ _ => 0x401136;
  reg_setRipSymbolic := fun s _ _ => s;
  showRegInfo := fun _ _ => [];
  showMapInfo := fun _ _ => [];
  terminateState := fun s _ _ => (s, false);
  mapInfo_find := fun _ _ _ => None;
|}.

Definition queued (groups : list (list Constraint)) : World unit :=
  mkWorld tt 0%nat [] {[ 0%nat := groups ]} [] [].

Lemma queues_of_other_states_untouched_witness :
  queueOf (commitConstraints (foldl addConstraint demoWorld demoG1)) 7%nat
    = queueOf (foldl addConstraint demoWorld demoG1) 7%nat /\
  queueOf (applyNextConstraintGroup demoOps 0x555555554000 demoRebase "target" 0%nat
             (queued [demoG1; demoG2])).1 7%nat
    = queueOf (queued [demoG1; demoG2]) 7%nat.
Proof.
  split.
  - destruct (queues_of_other_states_untouched demoOps 0x555555554000 demoRebase "target"
                (foldl addConstraint demoWorld demoG1)) as [(_ & _ & Hother) _].
    apply Hother. vm_compute. discriminate.
  - destruct (queues_of_other_states_untouched demoOps 0x555555554000 demoRebase "target"
                (queued [demoG1; demoG2])) as [_ Hrun].
    destruct (Hrun 0%nat
                (applyNextConstraintGroup demoOps 0x555555554000 demoRebase "target" 0%nat
                   (queued [demoG1; demoG2])).1
                (applyNextConstraintGroup demoOps 0x555555554000 demoRebase "target" 0%nat
                   (queued [demoG1; demoG2])).2) as (_ & _ & Hother).
    + reflexivity.
    + apply Hother. discriminate.
Defined.

Definition symbolicGroup : list Constraint :=
  [RegisterConstraint RSP (ConstantExpr 0x404800 64);
   RegisterConstraint RAX (OtherExpr "rax_0");
   MemoryConstraint 0x404800 (ConstantExpr 0 64)].

Lemma non_constant_register_constraint_faults_witness :
  exists w',
    applyNextConstraintGroup demoOps 0x555555554000 demoRebase "target" 0%nat
                             (queued [symbolicGroup; demoG2])
      = (w', NullDeref "ce") /\
    applied w' = applied (queued [symbolicGroup; demoG2])
                 ++ [RegisterConstraint RSP (ConstantExpr 0x404800 64)] /\
    queueOf w' 0%nat
      = ([RegisterConstraint RSP (ConstantExpr 0x404800 64)]
         ++ RegisterConstraint RAX (OtherExpr "rax_0")
            :: [MemoryConstraint 0x404800 (ConstantExpr 0 64)]) :: [demoG2].
Proof.
  apply (non_constant_register_constraint_faults demoOps 0x555555554000 demoRebase "target"
           0%nat [RegisterConstraint RSP (ConstantExpr 0x404800 64)]
           [MemoryConstraint 0x404800 (ConstantExpr 0 64)] RAX (OtherExpr "rax_0")
           [demoG2] (queued [symbolicGroup; demoG2])).
  - reflexivity.
  - intros value width. discriminate.
  - repeat constructor.
  - right. exact demoOps_injectionsSucceed.
Defined.

Definition rejectedGroup : list Constraint :=
  [RegisterConstraint RSP (ConstantExpr 0x404800 64);
   MemoryConstraint 0 (ConstantExpr 1 64);
   RegisterConstraint RIP (ConstantExpr 0x401136 64)].

Lemma failed_injection_stops_the_group_witness :
  let r := applyNextConstraintGroup strictOps 0 demoRebase "target" 0%nat
             (queued [rejectedGroup]) in
  r.2 = CpuExit /\
  last (trace r.1) = Some (EvTerminateState 0%nat "Dynamic ROP failed") /\
  applied r.1 = [RegisterConstraint RSP (ConstantExpr 0x404800 64);
                 MemoryConstraint 0 (ConstantExpr 1 64)] /\
  queueOf r.1 0%nat = [rejectedGroup].
Proof.
  cbv zeta.
  destruct (failed_injection_stops_the_group strictOps 0 demoRebase "target" 0%nat
              [RegisterConstraint RSP (ConstantExpr 0x404800 64)]
              [RegisterConstraint RIP (ConstantExpr 0x401136 64)]
              (MemoryConstraint 0 (ConstantExpr 1 64)) [] false
              (queued [rejectedGroup])
              (applyGroup strictOps 0 demoRebase "target" 0%nat
                 [RegisterConstraint RSP (ConstantExpr 0x404800 64)] false
                 (logWarn [addingConstraints] (queued [rejectedGroup]))).1
              (applyConstraint strictOps 0 demoRebase "target" 0%nat
                 (MemoryConstraint 0 (ConstantExpr 1 64))
                 (applyGroup strictOps 0 demoRebase "target" 0%nat
                    [RegisterConstraint RSP (ConstantExpr 0x404800 64)] false
                    (logWarn [addingConstraints] (queued [rejectedGroup]))).1).1)
    as (Hrun & Hlast & Happ & Hq).
  - reflexivity.
  - reflexivity.
  - reflexivity.
  - rewrite Hrun. simpl. split; [reflexivity|]. split; [exact Hlast|].
    split; [exact Happ|exact Hq].
Defined.


End DynamicRop.

(** * CRAX.cpp *)

Module Crax.

(** [CorePlugin::symbolicAddressReason] *)
Inductive symbolicAddressReason : Type := MEMORY | PC.

Section WithEngine.

Context {S : Type} (ops : EngineOps S).

(** A slot connected to [exploitGenerationHooks]. *)
Definition Hook : Type := World S -> World S * res unit.

(** [exploitGenerationHooks.emit()]: the slots run in the order in which
    they were connected; an exception thrown by one of them leaves [emit]. *)
Fixpoint emit (hooks : list Hook) (w : World S) : World S * res unit :=
  match hooks with
  | [] => (w, Ok tt)
  | hook :: hooks' =>
      match hook w with
      | (w', Ok _) => emit hooks' w'
      | (w', failure) => (w', failure)
      end
  end.

(** [onSymbolicRip] up to the emission of the hooks: the current state is
    selected, the detection is logged, RIP is made symbolic, and the
    registers and the memory map are dumped.  The two dumps are calls into
    [RegisterManager] and [MemoryManager] and stand here for what they log
    when they return; what [showMapInfo] runs before it logs is
    [MemoryManager.getMapInfo], with the outcomes given there. *)
Definition beforeHooks (exploitableState : StateId) (symbolicRip : Expr)
    (concreteRip : Z) (w : World S) : World S :=
  let w1 := setCurrentState exploitableState w in
  let w2 := logWarn [Warn "Detected symbolic RIP: , original value is: "
                          [concreteRip;
                           reg_readConcrete ops (engine w1) (currentState w1) RIP]] w1 in
  let w3 := record [EvSetRipSymbolic (currentState w2) symbolicRip]
              (setEngine (reg_setRipSymbolic ops (engine w2) (currentState w2) symbolicRip)
                         w2) in
  let w4 := logWarn (showRegInfo ops (engine w3) (currentState w3)) w3 in
  logWarn (showMapInfo ops (engine w4) (currentState w4)) w4.

Definition endOfGeneration : string := "End of exploit generation".

(** [CRAX::onSymbolicRip] ([concretize] is passed by reference and left
    untouched). *)
Definition onSymbolicRip (hooks : list Hook) (exploitableState : StateId)
    (symbolicRip : Expr) (concreteRip : Z) (reason : symbolicAddressReason)
    (w : World S) : World S * res unit :=
  match reason with
  | PC =>
      match emit hooks (beforeHooks exploitableState symbolicRip concreteRip w) with
      | (w', Ok _) =>
          let '(s', returns) :=
            terminateState ops (engine w') exploitableState endOfGeneration in
          (record [EvTerminateState exploitableState endOfGeneration] (setEngine s' w'),
           if returns then Ok tt else CpuExit)
      | (w', failure) => (w', failure)
      end
  | MEMORY => (w, Ok tt)
  end.

(** A hook that leaves by an exception takes the handler with it: nothing
    is done after the hooks. *)
Lemma hijack_left_by_hook (hooks : list Hook) exploitableState symbolicRip concreteRip
    (w w' : World S) (o : res unit) :
  emit hooks (beforeHooks exploitableState symbolicRip concreteRip w) = (w', o) ->
  o <> Ok tt ->
  onSymbolicRip hooks exploitableState symbolicRip concreteRip PC w = (w', o).
Proof.
  intros Hemit Ho. unfold onSymbolicRip. rewrite Hemit.
  destruct o as [[]| | | | |]; done.
Qed.

(** C3 (as amended). For a hijack event (the reason is the program
    counter), once the exploit-generation hooks have all returned, whatever
    they did to the world, the handler asks the engine to terminate the
    originating state: that call is the last one it makes.  When a hook
    leaves by an exception, as the DynamicRop hook does after applying a
    group with a constraint on RIP, the handler is left with that exception
    in the world the hook left: it makes no call of its own and does not
    terminate the state.  For any other reason than the program counter the
    handler does nothing. *)
Theorem hijack_terminates_state_when_hooks_return
    (hooks : list Hook) (exploitableState : StateId) (symbolicRip : Expr)
    (concreteRip : Z) (w : World S) :
  let started := beforeHooks exploitableState symbolicRip concreteRip w in
  let r := onSymbolicRip hooks exploitableState symbolicRip concreteRip PC w in
  (forall w', emit hooks started = (w', Ok tt) ->
     trace r.1 = trace w' ++ [EvTerminateState exploitableState endOfGeneration] /\
     engine r.1 = (terminateState ops (engine w') exploitableState endOfGeneration).1 /\
     (r.2 = Ok tt \/ r.2 = CpuExit)) /\
  (forall w' o, emit hooks started = (w', o) -> o <> Ok tt -> r = (w', o)) /\
  onSymbolicRip hooks exploitableState symbolicRip concreteRip MEMORY w = (w, Ok tt).
Proof.
  cbv zeta. split; [|split; [|done]].
  - intros w' Hemit. unfold onSymbolicRip. rewrite Hemit.
    destruct (terminateState ops (engine w') exploitableState endOfGeneration)
      as [s' returns].
    simpl. split; [done|]. split; [done|]. destruct returns; auto.
  - intros w' o. apply hijack_left_by_hook.
Qed.

(** ** Hooks that leave by an exception *)

Lemma emit_app (hooks1 hooks2 : list Hook) (w : World S) :
  emit (hooks1 ++ hooks2) w
  = match emit hooks1 w with
    | (w', Ok _) => emit hooks2 w'
    | (w', failure) => (w', failure)
    end.
Proof.
  revert w. induction hooks1 as [|hook hooks1 IH]; intros w; simpl; [done|].
  destruct (hook w) as [w' [[]|what|what|what| |]]; [apply IH|done..].
Qed.

(** The hooks run in the order in which they were connected, each on the
    world that the one before left.  When one of them leaves by an exception
    (as the DynamicRop hook does after a constraint on RIP), the hooks
    connected after it do not run and the handler is left with the same
    exception: it makes no further call, and the state is not terminated by
    it. *)
Theorem hook_that_leaves_cuts_the_handler
    (before after : list Hook) (hook : Hook) (exploitableState : StateId)
    (symbolicRip : Expr) (concreteRip : Z) (w w1 w2 : World S) (o : res unit) :
  emit before (beforeHooks exploitableState symbolicRip concreteRip w) = (w1, Ok tt) ->
  hook w1 = (w2, o) ->
  o <> Ok tt ->
  emit (before ++ hook :: after)
       (beforeHooks exploitableState symbolicRip concreteRip w) = (w2, o) /\
  onSymbolicRip (before ++ hook :: after) exploitableState symbolicRip concreteRip PC w
    = (w2, o).
Proof.
  intros Hbefore Hhook Ho.
  assert (Hemit : emit (before ++ hook :: after)
                       (beforeHooks exploitableState symbolicRip concreteRip w) = (w2, o)).
  { rewrite emit_app, Hbefore. simpl. rewrite Hhook.
    destruct o as [[]|what|what|what| |]; done. }
  split; [exact Hemit|].
  unfold onSymbolicRip. rewrite Hemit.
  destruct o as [[]|what|what|what| |]; done.
Qed.

End WithEngine.

(** The DynamicRop hook on the current state, over the concrete engine. *)
Definition demoHook : Hook (S := unit) :=
  fun w => DynamicRop.beforeExploitGeneration DynamicRop.demoOps 0x555555554000
             DynamicRop.demoRebase "target" (currentState w) w.

Lemma hijack_terminates_state_when_hooks_return_witness :
  let r := onSymbolicRip DynamicRop.demoOps [demoHook] 3%nat (OtherExpr "rip")
                         0x401136 PC DynamicRop.demoWorld in
  trace r.1 = [EvSetRipSymbolic 3%nat (OtherExpr "rip");
               EvTerminateState 3%nat endOfGeneration].
Proof.
  cbv zeta.
  destruct (hijack_terminates_state_when_hooks_return DynamicRop.demoOps [demoHook] 3%nat
              (OtherExpr "rip") 0x401136 DynamicRop.demoWorld) as (Hreturn & _ & _).
  destruct (Hreturn (logWarn [DynamicRop.noMoreConstraints]
                       (beforeHooks DynamicRop.demoOps 3%nat (OtherExpr "rip") 0x401136
                                    DynamicRop.demoWorld)))
    as (Htrace & _ & _); [reflexivity|].
  rewrite Htrace. reflexivity.
Defined.

(** C3, refuted as stated.  The hijack of a state whose queue holds a group
    with a constraint on RIP: the hooks are run, the DynamicRop hook applies
    the group and leaves by the exception, and the handler ends without any
    call that terminates the state. *)
Lemma hijack_without_termination_counterexample :
  let r := onSymbolicRip DynamicRop.demoOps [demoHook] 0%nat (OtherExpr "rip")
                         0x401136 PC (DynamicRop.queued [DynamicRop.demoG1]) in
  r.2 = CpuExit /\
  trace r.1 = [EvSetRipSymbolic 0%nat (OtherExpr "rip");
               EvAddRegisterConstraint 0%nat RSP (ConstantExpr 0x555555558800 64);
               EvRegWriteSymbolic 0%nat RSP (ConstantExpr 0x404800 64);
               EvAddRegisterConstraint 0%nat RIP (ConstantExpr 0x555555555136 64);
               EvRegWriteSymbolic 0%nat RIP (ConstantExpr 0x401136 64)] /\
  (forall state message, EvTerminateState state message ∉ trace r.1).
Proof.
  cbv zeta.
  assert (Htrace :
    trace (onSymbolicRip DynamicRop.demoOps [demoHook] 0%nat (OtherExpr "rip")
                         0x401136 PC (DynamicRop.queued [DynamicRop.demoG1])).1
    = [EvSetRipSymbolic 0%nat (OtherExpr "rip");
       EvAddRegisterConstraint 0%nat RSP (ConstantExpr 0x555555558800 64);
       EvRegWriteSymbolic 0%nat RSP (ConstantExpr 0x404800 64);
       EvAddRegisterConstraint 0%nat RIP (ConstantExpr 0x555555555136 64);
       EvRegWriteSymbolic 0%nat RIP (ConstantExpr 0x401136 64)])
    by (vm_compute; reflexivity).
  split; [vm_compute; reflexivity|]. split; [exact Htrace|].
  intros state message. rewrite Htrace. intros Hin.
  repeat (apply elem_of_cons in Hin as [Heq|Hin]; [discriminate Heq|]).
  by apply elem_of_nil in Hin.
Qed.

(** The hijack of a state whose queue holds a group with a constraint on
    RIP: the DynamicRop hook applies the group and leaves, a hook connected
    after it does not run, and the state is not terminated. *)
Definition markerHook : Hook (S := unit) :=
  fun w => (logWarn [Warn "generating the exploit" []] w, Ok tt).

Lemma hook_that_leaves_cuts_the_handler_witness :
  let r := onSymbolicRip DynamicRop.demoOps [demoHook; markerHook] 0%nat (OtherExpr "rip")
                         0x401136 PC (DynamicRop.queued [DynamicRop.demoG1]) in
  r.2 = CpuExit /\
  last (trace r.1) = Some (EvRegWriteSymbolic 0%nat RIP (ConstantExpr 0x401136 64)) /\
  warnings r.1 = [Warn "Detected symbolic RIP: , original value is: " [0x401136; 0x401136];
                  DynamicRop.addingConstraints].
Proof.
  cbv zeta.
  destruct (hook_that_leaves_cuts_the_handler DynamicRop.demoOps [] [markerHook] demoHook
              0%nat (OtherExpr "rip") 0x401136 (DynamicRop.queued [DynamicRop.demoG1])
              (beforeHooks DynamicRop.demoOps 0%nat (OtherExpr "rip") 0x401136
                           (DynamicRop.queued [DynamicRop.demoG1]))
              (demoHook (beforeHooks DynamicRop.demoOps 0%nat (OtherExpr "rip") 0x401136
                                     (DynamicRop.queued [DynamicRop.demoG1]))).1
              CpuExit) as [_ Hrun].
  - reflexivity.
  - reflexivity.
  - discriminate.
  - simpl app in Hrun. rewrite Hrun. vm_compute. auto.
Defined.

End Crax.

(** * Techniques/Ret2syscall.cpp *)

Module Ret2syscall.

(** [Function] of the ELF metadata: where a routine starts and how long it
    is; [Instruction] of the disassembler. *)
Record Function : Type := mkFunction {
  fn_address : Z;
  fn_size : Z;
}.

Record Instruction : Type := mkInstruction {
  address : Z;
  mnemonic : string;
  opStr : string;
}.

(** What the technique asks of its surroundings: the target ELF (named by
    its file), the [Ret2csu] technique if it is registered (its
    [getRopSubchains] takes the gadget, which may be a null reference, and
    three arguments), the functions of libc, the bytes of the libc file, and
    the disassembler. *)
Record Env : Type := mkEnv {
  elf : string;
  ret2csu : option (option Expr -> Expr -> Expr -> Expr -> list RopSubchain);
  libcFunctions : gmap string Function;
  libcFile : list byte;
  disasm : list byte -> Z -> list Instruction;
}.

(** The value of a [uint8_t]. *)
Definition u8 (z : Z) : byte := default x00 (Byte.of_N (Z.to_N (z mod 256))).

(** Modelled from the spec: [ljust] (Utils/StringUtil.h) is not among the
    sources; the spec has the byte string right-padded with a fill byte to
    the target length. *)
Definition ljust (s : list byte) (n : nat) (fill : byte) : list byte :=
  s ++ replicate (n - length s) fill.

Definition binsh : list byte := String.list_byte_of_string "/bin/sh".

(** The constructor: [m_requiredGadgets] and [m_syscallGadget].
    [resolveGadget] and [toVarName] belong to [Exploit]. *)
Definition construct (resolveGadget : string -> bool) (toVarName : string -> string)
    (hasFullRELRO : bool) (symbols : gmap string Z) (elfName : string)
  : list (string * string) * option Expr :=
  let gadgetAsm := "syscall ; ret" in
  if resolveGadget gadgetAsm then
    ([(elfName, gadgetAsm)], Some (BaseOffsetExpr VAR elfName (Some (toVarName gadgetAsm))))
  else if negb hasFullRELRO && bool_decide (is_Some (symbols !! "read")) then
    ([], Some (BaseOffsetExpr SYM elfName (Some "read")))
  else ([], None).

(** [Ret2syscall::checkRequirements], over the answer of the base class. *)
Definition checkRequirements (baseRequirements : bool) (m_syscallGadget : option Expr) : bool :=
  baseRequirements && bool_decide (is_Some m_syscallGadget).

Section WithEnv.

Variable env : Env.
Variable m_syscallGadget : option Expr.

(** [code(f.size)] filled by [ifs.seekg(f.address); ifs.read(..., f.size)]:
    the bytes of the file from the offset on, zero where the file ends. *)
Definition readCode (f : Function) : list byte :=
  take (Z.to_nat (fn_size f))
       (drop (Z.to_nat (fn_address f)) (libcFile env)
        ++ replicate (Z.to_nat (fn_size f)) x00).

Definition samePage : string := "(syscallOffset & 0xff00) == (f.address & 0xff00)".

(** The loop over the disassembly, left at the first [syscall]. *)
Fixpoint scan (f : Function) (insns : list Instruction) (syscallOffset : Z) : res Z :=
  match insns with
  | [] => Ok syscallOffset
  | i :: rest =>
      if bool_decide (mnemonic i = "syscall") then
        let syscallOffset := address i in
        if Z.land syscallOffset 0xff00 =? Z.land (fn_address f) 0xff00
        then Ok syscallOffset
        else AssertFail samePage
      else scan f rest syscallOffset
  end.

(** [Ret2syscall::getLsbOfReadSyscall] *)
Definition getLsbOfReadSyscall : res Z :=
  match libcFunctions env !! "__read" with
  | None => OutOfRange "__read"
  | Some f =>
      res_bind (scan f (disasm env (readCode f) (fn_address f)) (wrap64 (-1)))
               (fun syscallOffset => Ok (Z.land syscallOffset 0xff))
  end.

(** [getRopSubchains(...)[0]] of the Ret2csu technique. *)
Definition first (chains : list RopSubchain) : res RopSubchain :=
  match chains with
  | [] => OutOfRange "[0]"
  | c :: _ => Ok c
  end.

(** [Ret2syscall::getRopSubchains] *)
Definition getRopSubchains : res (list RopSubchain) :=
  match ret2csu env with
  | None => AssertFail "ret2csu"
  | Some csu =>
      res_bind (first (csu m_syscallGadget
                           (ConstantExpr 0 Int64)
                           (BaseOffsetExpr GOT (elf env) (Some "read"))
                           (ConstantExpr 1 Int64))) (fun part1 =>
      res_bind (first (csu m_syscallGadget
                           (ConstantExpr 1 Int64)
                           (ConstantExpr 0 Int64)
                           (ConstantExpr 0 Int64))) (fun part2 =>
      res_bind (first (csu m_syscallGadget
                           (ConstantExpr 0 Int64)
                           (BaseOffsetExpr BSS (elf env) None)
                           (ConstantExpr 59 Int64))) (fun part3 =>
      res_bind (first (csu m_syscallGadget
                           (BaseOffsetExpr BSS (elf env) None)
                           (ConstantExpr 0 Int64)
                           (ConstantExpr 0 Int64))) (fun part4 =>
      let ret1 := [ConstantExpr 0 Int64] ++ part1 ++ part2 ++ part3 ++ part4 in
      res_bind getLsbOfReadSyscall (fun lsb =>
      let ret2 := [ByteVectorExpr [u8 lsb]] in
      let ret3 := [ByteVectorExpr (ljust binsh 59 x00)] in
      Ok [ret1; ret2; ret3])))))
  end.

(** ** Properties *)

Lemma scan_first_syscall f pre i post acc :
  Forall (fun j => mnemonic j <> "syscall") pre ->
  mnemonic i = "syscall" ->
  scan f (pre ++ i :: post) acc
  = if Z.land (address i) 0xff00 =? Z.land (fn_address f) 0xff00
    then Ok (address i) else AssertFail samePage.
Proof.
  intros Hpre Hi. induction Hpre as [|j pre Hj _ IH]; simpl.
  - by rewrite bool_decide_eq_true_2.
  - by rewrite bool_decide_eq_false_2.
Qed.

(** The machine code of a routine as it lies in a file: [size] bytes from
    the offset [address] on, byte by byte, and 0x00 where the file has no
    byte. *)
Definition codeAt (file : list byte) (address size : Z) : list byte :=
  (fun k => default x00 (file !! (Z.to_nat address + k)%nat)) <$> seq 0 (Z.to_nat size).

(** What [readCode] hands to the disassembler. *)
Lemma readCode_codeAt (f : Function) :
  readCode f = codeAt (libcFile env) (fn_address f) (fn_size f).
Proof.
  unfold readCode, codeAt. apply list_eq. intros k.
  rewrite list_lookup_fmap.
  destruct (decide (k < Z.to_nat (fn_size f))%nat) as [Hk|Hk].
  - rewrite lookup_take_lt, lookup_seq_lt by done. simpl.
    destruct (decide (k < length (drop (Z.to_nat (fn_address f)) (libcFile env)))%nat)
      as [Hin|Hout].
    + rewrite lookup_app_l, lookup_drop by done.
      apply lookup_lt_is_Some_2 in Hin as [b Hb]. rewrite lookup_drop in Hb.
      by rewrite Hb.
    + rewrite lookup_app_r, lookup_replicate_2 by lia.
      rewrite length_drop in Hout.
      rewrite (lookup_ge_None_2 (libcFile env)) by lia. done.
  - rewrite lookup_take_ge, lookup_seq_ge by lia. done.
Qed.

(** C8. The redirect byte of [__read]: what is disassembled, from the
    routine's address, is the routine's machine code, the [f.size] bytes of
    the libc file at the offset [f.address]; the first [syscall] instruction
    of that disassembly is looked for, and, when bits 8 to 15 of its address
    are those of the routine's address, the low byte of its address is
    returned; when they differ the assertion fails. *)
Theorem getLsbOfReadSyscall_first_syscall
    (f : Function) (pre post : list Instruction) (i : Instruction) :
  libcFunctions env !! "__read" = Some f ->
  disasm env (codeAt (libcFile env) (fn_address f) (fn_size f)) (fn_address f)
    = pre ++ i :: post ->
  Forall (fun j => mnemonic j <> "syscall") pre ->
  mnemonic i = "syscall" ->
  (length (readCode f) = Z.to_nat (fn_size f) /\
   forall k, (k < Z.to_nat (fn_size f))%nat ->
     readCode f !! k = Some (default x00 (libcFile env !! (Z.to_nat (fn_address f) + k)%nat))) /\
  getLsbOfReadSyscall
  = if Z.land (address i) 0xff00 =? Z.land (fn_address f) 0xff00
    then Ok (Z.land (address i) 0xff)
    else AssertFail samePage.
Proof.
  intros Hf Hdis Hpre Hi. split.
  - rewrite readCode_codeAt. unfold codeAt. split.
    + by rewrite length_fmap, length_seq.
    + intros k Hk. by rewrite list_lookup_fmap, lookup_seq_lt.
  - unfold getLsbOfReadSyscall.
    rewrite Hf, readCode_codeAt, Hdis, (scan_first_syscall f pre i post _ Hpre Hi).
    by destruct (Z.land (address i) 0xff00 =? Z.land (fn_address f) 0xff00).
Qed.

(** C2. When the Ret2csu technique is registered and answers each of the
    four requests with at least one subchain, and the redirect byte of
    [__read] is resolved, [getRopSubchains] returns exactly three subchains:
    a zero 64-bit constant followed by the first Ret2csu subchains for
    (0, got read, 1), (1, 0, 0), (0, bss, 59) and (bss, 0, 0), in this order;
    a blob of the one redirect byte; and "/bin/sh" padded with 0x00 to 59
    bytes. *)
Theorem getRopSubchains_three_subchains
    (csu : option Expr -> Expr -> Expr -> Expr -> list RopSubchain)
    (part1 part2 part3 part4 : RopSubchain) (more1 more2 more3 more4 : list RopSubchain)
    (lsb : Z) :
  ret2csu env = Some csu ->
  csu m_syscallGadget (ConstantExpr 0 64) (BaseOffsetExpr GOT (elf env) (Some "read"))
      (ConstantExpr 1 64) = part1 :: more1 ->
  csu m_syscallGadget (ConstantExpr 1 64) (ConstantExpr 0 64) (ConstantExpr 0 64)
    = part2 :: more2 ->
  csu m_syscallGadget (ConstantExpr 0 64) (BaseOffsetExpr BSS (elf env) None)
      (ConstantExpr 59 64) = part3 :: more3 ->
  csu m_syscallGadget (BaseOffsetExpr BSS (elf env) None) (ConstantExpr 0 64)
      (ConstantExpr 0 64) = part4 :: more4 ->
  getLsbOfReadSyscall = Ok lsb ->
  getRopSubchains
  = Ok [ConstantExpr 0 64 :: part1 ++ part2 ++ part3 ++ part4;
        [ByteVectorExpr [u8 lsb]];
        [ByteVectorExpr (binsh ++ replicate 52 x00)]] /\
  length (binsh ++ replicate 52 x00) = 59%nat /\
  take 7 (binsh ++ replicate 52 x00) = String.list_byte_of_string "/bin/sh".
Proof.
  intros Hcsu H1 H2 H3 H4 Hlsb. unfold getRopSubchains, Int64.
  rewrite Hcsu, H1, H2, H3, H4, Hlsb. simpl. done.
Qed.

(** ** Further properties *)

Lemma scan_no_syscall f insns acc :
  Forall (fun j => mnemonic j <> "syscall") insns -> scan f insns acc = Ok acc.
Proof.
  induction 1 as [|j insns Hj _ IH]; simpl; [done|].
  by rewrite bool_decide_eq_false_2.
Qed.

(** The edges of the redirect byte: when libc has no [__read] the lookup
    throws; when the disassembly of [__read] holds no [syscall] instruction,
    nothing is asserted and the byte is 0xff, the low byte of the initial -1;
    and a byte that is returned is always between 0 and 255. *)
Theorem redirect_byte_without_syscall :
  (libcFunctions env !! "__read" = None ->
   getLsbOfReadSyscall = OutOfRange "__read") /\
  (forall f,
     libcFunctions env !! "__read" = Some f ->
     Forall (fun j => mnemonic j <> "syscall") (disasm env (readCode f) (fn_address f)) ->
     getLsbOfReadSyscall = Ok 0xff) /\
  (forall lsb, getLsbOfReadSyscall = Ok lsb -> 0 <= lsb <= 255).
Proof.
  unfold getLsbOfReadSyscall. split; [|split].
  - by intros ->.
  - intros f -> Hnone. by rewrite scan_no_syscall.
  - intros lsb. destruct (libcFunctions env !! "__read") as [f|]; [|done].
    destruct (scan f (disasm env (readCode f) (fn_address f)) (wrap64 (-1)))
      as [off| | | | |]; simpl; try done.
    intros [= <-]. change (Z.land off 0xff) with (Z.land off (Z.ones 8)).
    rewrite Z.land_ones by lia.
    pose proof (Z.mod_pos_bound off (2 ^ 8)). lia.
Qed.

(** [getRopSubchains] returns only in the way of the scenario: whenever it
    returns, Ret2csu is registered and has answered each of the four
    requests with at least one subchain, the redirect byte has been
    resolved, and the result is the three subchains built from them, the
    first of which has one expression more than the four fragments
    together. *)
Theorem getRopSubchains_returns_only_three_subchains (chains : list RopSubchain) :
  getRopSubchains = Ok chains ->
  exists csu part1 part2 part3 part4 more1 more2 more3 more4 lsb,
    ret2csu env = Some csu /\
    csu m_syscallGadget (ConstantExpr 0 64) (BaseOffsetExpr GOT (elf env) (Some "read"))
        (ConstantExpr 1 64) = part1 :: more1 /\
    csu m_syscallGadget (ConstantExpr 1 64) (ConstantExpr 0 64) (ConstantExpr 0 64)
      = part2 :: more2 /\
    csu m_syscallGadget (ConstantExpr 0 64) (BaseOffsetExpr BSS (elf env) None)
        (ConstantExpr 59 64) = part3 :: more3 /\
    csu m_syscallGadget (BaseOffsetExpr BSS (elf env) None) (ConstantExpr 0 64)
        (ConstantExpr 0 64) = part4 :: more4 /\
    getLsbOfReadSyscall = Ok lsb /\
    chains = [ConstantExpr 0 64 :: part1 ++ part2 ++ part3 ++ part4;
              [ByteVectorExpr [u8 lsb]];
              [ByteVectorExpr (ljust binsh 59 x00)]] /\
    length chains = 3%nat /\
    (forall chain0, chains !! 0%nat = Some chain0 ->
       length chain0
       = (1 + length part1 + length part2 + length part3 + length part4)%nat).
Proof.
  unfold getRopSubchains, Int64.
  destruct (ret2csu env) as [csu|]; [|done].
  destruct (csu m_syscallGadget (ConstantExpr 0 64)
              (BaseOffsetExpr GOT (elf env) (Some "read")) (ConstantExpr 1 64))
    as [|part1 more1] eqn:H1; [done|].
  destruct (csu m_syscallGadget (ConstantExpr 1 64) (ConstantExpr 0 64) (ConstantExpr 0 64))
    as [|part2 more2] eqn:H2; [done|].
  destruct (csu m_syscallGadget (ConstantExpr 0 64) (BaseOffsetExpr BSS (elf env) None)
              (ConstantExpr 59 64)) as [|part3 more3] eqn:H3; [done|].
  destruct (csu m_syscallGadget (BaseOffsetExpr BSS (elf env) None) (ConstantExpr 0 64)
              (ConstantExpr 0 64)) as [|part4 more4] eqn:H4; [done|].
  simpl. destruct getLsbOfReadSyscall as [lsb| | | | |] eqn:Hlsb; simpl; try done.
  intros [= <-].
  exists csu, part1, part2, part3, part4, more1, more2, more3, more4, lsb.
  do 7 (split; [done|]). split; [done|].
  intros chain0 [= <-]. simpl. rewrite !length_app. lia.
Qed.

End WithEnv.

(** ** The scenario of the spec *)

(** A libc whose [__read] is at 0x110020 and has its [syscall] at 0x11002f;
    a Ret2csu that answers with one subchain listing its arguments. *)
Definition demoDisasm (code : list byte) (addr : Z) : list Instruction :=
  [mkInstruction addr "mov" "eax, dword ptr fs:[0x18]";
   mkInstruction (addr + 8) "test" "eax, eax";
   mkInstruction (addr + 10) "jne" "0x110040";
   mkInstruction (addr + 15) "syscall" EmptyString;
   mkInstruction (addr + 17) "cmp" "rax, -0x1000";
   mkInstruction (addr + 23) "syscall" EmptyString].

Definition demoCsu (gadget : option Expr) (a1 a2 a3 : Expr) : list RopSubchain :=
  [[default (OtherExpr "null") gadget; a1; a2; a3]].

Definition demoEnv : Env := {|
  elf := "target";
  ret2csu := Some demoCsu;
  libcFunctions := {["__read" := mkFunction 0x110020 157]};
  libcFile := [];
  disasm := demoDisasm;
|}.

(** No "syscall ; ret" gadget, no full RELRO, [read] among the symbols. *)
Definition demoGadget : option Expr :=
  (construct (fun _ => false) (fun s => s) false {["read" := 0x401040]} "target").2.

Example demo_checkRequirements : checkRequirements true demoGadget = true.
Proof. vm_compute. reflexivity. Qed.

(** A disassembler that reads its bytes: 0x0f 0x05 is [syscall], 0x90 is
    [nop], 0xc3 is [ret], and any other byte stands for itself. *)
Fixpoint tinyDisasm (code : list byte) (addr : Z) : list Instruction :=
  match code with
  | [] => []
  | b :: rest =>
      if Byte.eqb b x0f then
        match rest with
        | b' :: rest' =>
            if Byte.eqb b' x05
            then mkInstruction addr "syscall" EmptyString :: tinyDisasm rest' (addr + 2)
            else mkInstruction addr ".byte" EmptyString :: tinyDisasm rest (addr + 1)
        | [] => [mkInstruction addr ".byte" EmptyString]
        end
      else if Byte.eqb b x90 then
        mkInstruction addr "nop" EmptyString :: tinyDisasm rest (addr + 1)
      else if Byte.eqb b xc3 then
        mkInstruction addr "ret" EmptyString :: tinyDisasm rest (addr + 1)
      else mkInstruction addr ".byte" EmptyString :: tinyDisasm rest (addr + 1)
  end.

(** A libc file of 48 bytes whose [__read] is the five bytes at 0x20:
    [nop; nop; syscall; ret].  The bytes around the routine hold a [syscall]
    of their own, at 0x10 and at 0x26. *)
Definition codeEnv : Env := {|
  elf := "target";
  ret2csu := Some demoCsu;
  libcFunctions := {["__read" := mkFunction 0x20 5]};
  libcFile := replicate 16 xcc ++ [x0f; x05] ++ replicate 14 xcc
              ++ [x90; x90; x0f; x05; xc3] ++ [x90; x0f; x05] ++ replicate 8 xcc;
  disasm := tinyDisasm;
|}.

Lemma getLsbOfReadSyscall_first_syscall_witness :
  readCode codeEnv (mkFunction 0x20 5) = [x90; x90; x0f; x05; xc3] /\
  getLsbOfReadSyscall codeEnv = Ok 0x22.
Proof.
  destruct (getLsbOfReadSyscall_first_syscall codeEnv (mkFunction 0x20 5)
              [mkInstruction 0x20 "nop" EmptyString; mkInstruction 0x21 "nop" EmptyString]
              [mkInstruction 0x24 "ret" EmptyString]
              (mkInstruction 0x22 "syscall" EmptyString)) as [[Hlen Hbytes] Hrun].
  - reflexivity.
  - vm_compute. reflexivity.
  - repeat constructor; discriminate.
  - reflexivity.
  - split; [|rewrite Hrun; reflexivity].
    apply list_eq. intros k.
    destruct (decide (k < 5)%nat) as [Hk|Hk].
    + rewrite (Hbytes k Hk).
      destruct k as [|[|[|[|[|k]]]]]; [reflexivity..|lia].
    + rewrite !lookup_ge_None_2; [done|simpl; lia|rewrite Hlen; simpl; lia].
Defined.

Lemma getRopSubchains_three_subchains_witness :
  exists part1 part2 part3 part4,
    getRopSubchains demoEnv demoGadget
    = Ok [ConstantExpr 0 64 :: part1 ++ part2 ++ part3 ++ part4;
          [ByteVectorExpr [x2f]];
          [ByteVectorExpr (binsh ++ replicate 52 x00)]].
Proof.
  eexists _, _, _, _.
  apply (getRopSubchains_three_subchains demoEnv demoGadget demoCsu _ _ _ _ [] [] [] []
           0x2f).
  - reflexivity.
  - reflexivity.
  - reflexivity.
  - reflexivity.
  - reflexivity.
  - vm_compute. reflexivity.
Defined.

(** ** The requirement of the technique *)

(** The technique is usable exactly when the base class agrees and either
    the "syscall ; ret" gadget is resolved, or RELRO is not full and [read]
    is among the symbols of the ELF.  The gadget is preferred: when it is
    resolved it is the only required gadget and [m_syscallGadget] refers to
    its variable, whatever the symbols; otherwise no gadget is required. *)
Theorem requirement_gadget_or_read_symbol
    (resolveGadget : string -> bool) (toVarName : string -> string)
    (hasFullRELRO baseRequirements : bool) (symbols : gmap string Z) (elfName : string) :
  let built := construct resolveGadget toVarName hasFullRELRO symbols elfName in
  checkRequirements baseRequirements built.2
  = baseRequirements &&
    (resolveGadget "syscall ; ret" ||
     negb hasFullRELRO && bool_decide (is_Some (symbols !! "read"))) /\
  (resolveGadget "syscall ; ret" = true ->
   built = ([(elfName, "syscall ; ret")],
            Some (BaseOffsetExpr VAR elfName (Some (toVarName "syscall ; ret"))))) /\
  (resolveGadget "syscall ; ret" = false -> built.1 = []) /\
  (resolveGadget "syscall ; ret" = false -> hasFullRELRO = true -> built.2 = None) /\
  (resolveGadget "syscall ; ret" = false -> symbols !! "read" = None -> built.2 = None).
Proof.
  cbv zeta. unfold construct, checkRequirements.
  destruct (resolveGadget "syscall ; ret") eqn:Hg; simpl.
  - split; [by destruct baseRequirements|]. split; [done|]. by split; [|split].
  - destruct hasFullRELRO; simpl.
    + split; [by destruct baseRequirements|]. by split; [|split; [|split]].
    + destruct (symbols !! "read") as [a|] eqn:Hread; simpl.
      * split; [by destruct baseRequirements|]. by split; [|split; [|split]].
      * split; [by destruct baseRequirements|]. by split; [|split; [|split]].
Qed.

Lemma requirement_gadget_or_read_symbol_witness :
  (construct (fun _ => true) (fun s => "gadget_" +:+ s) true ∅ "target")
  = ([("target", "syscall ; ret")],
     Some (BaseOffsetExpr VAR "target" (Some "gadget_syscall ; ret"))) /\
  (construct (fun _ => false) (fun s => s) true {["read" := 0x401040]} "target").2 = None.
Proof.
  split.
  - destruct (requirement_gadget_or_read_symbol (fun _ => true) (fun s => "gadget_" +:+ s)
                true true ∅ "target") as (_ & Hgadget & _).
    apply Hgadget. reflexivity.
  - destruct (requirement_gadget_or_read_symbol (fun _ => false) (fun s => s)
                true true {["read" := 0x401040]} "target") as (_ & _ & _ & Hrelro & _).
    apply Hrelro; reflexivity.
Defined.

(** A libc whose [__read] holds no [syscall] instruction. *)
Definition noSyscallEnv : Env := {|
  elf := "target";
  ret2csu := Some demoCsu;
  libcFunctions := {["__read" := mkFunction 0x110020 16]};
  libcFile := [];
  disasm := fun _ addr => [mkInstruction addr "jmp" "0x110100"];
|}.

Lemma redirect_byte_without_syscall_witness :
  getLsbOfReadSyscall noSyscallEnv = Ok 0xff /\
  getLsbOfReadSyscall (mkEnv "target" (Some demoCsu) ∅ [] demoDisasm) = OutOfRange "__read" /\
  0 <= 0x2f <= 255.
Proof.
  split; [|split].
  - destruct (redirect_byte_without_syscall noSyscallEnv) as (_ & Hnone & _).
    apply (Hnone (mkFunction 0x110020 16)).
    + reflexivity.
    + repeat constructor. discriminate.
  - destruct (redirect_byte_without_syscall
                (mkEnv "target" (Some demoCsu) ∅ [] demoDisasm)) as (Hmissing & _).
    apply Hmissing. reflexivity.
  - destruct (redirect_byte_without_syscall demoEnv) as (_ & _ & Hrange).
    apply Hrange. vm_compute. reflexivity.
Defined.

Lemma getRopSubchains_returns_only_three_subchains_witness :
  exists lsb, getLsbOfReadSyscall demoEnv = Ok lsb.
Proof.
  destruct (getRopSubchains_returns_only_three_subchains demoEnv demoGadget
              [[ConstantExpr 0 64;
                BaseOffsetExpr SYM "target" (Some "read");
                ConstantExpr 0 64; BaseOffsetExpr GOT "target" (Some "read");
                ConstantExpr 1 64;
                BaseOffsetExpr SYM "target" (Some "read");
                ConstantExpr 1 64; ConstantExpr 0 64; ConstantExpr 0 64;
                BaseOffsetExpr SYM "target" (Some "read");
                ConstantExpr 0 64; BaseOffsetExpr BSS "target" None; ConstantExpr 59 64;
                BaseOffsetExpr SYM "target" (Some "read");
                BaseOffsetExpr BSS "target" None; ConstantExpr 0 64; ConstantExpr 0 64];
               [ByteVectorExpr [x2f]];
               [ByteVectorExpr (binsh ++ replicate 52 x00)]])
    as (csu & p1 & p2 & p3 & p4 & m1 & m2 & m3 & m4 & lsb & _ & _ & _ & _ & _ & Hlsb & _).
  - vm_compute. reflexivity.
  - exists lsb. exact Hlsb.
Defined.

End Ret2syscall.

(** * Modules/IOStates/LeakBasedCoreGenerator.cpp *)

Module CoreGenerator.

(** [IOStates::LeakType] and the three kinds of [StateInfo]. *)
Inductive LeakType : Type := UNKNOWN | CODE | LIBC | HEAP | STACK | CANARY.

Record InputStateInfo : Type := mkInput {
  buf : list byte;
  offset : Z;
}.

Record OutputStateInfo : Type := mkOutput {
  isInteresting : bool;
  bufIndex : Z;
  baseOffset : Z;
  leakType : LeakType;
}.

Record SleepStateInfo : Type := mkSleep {
  sec : Z;
}.

Inductive StateInfo : Type :=
| Input (info : InputStateInfo)
| Output (info : OutputStateInfo)
| Sleep (info : SleepStateInfo).

(** [IOStates::State], as far as the generator reads it. *)
Record State : Type := mkState {
  lastInputStateInfoIdx : Z;
  lastInputStateInfoIdxBeforeFirstSymbolicRip : Z;
  stateInfoList : list StateInfo;
}.

(** The exploit script is an append-only sink. *)
Inductive Emitted : Type :=
| Writeline (line : string)
| AppendRopPayload (payload : string)
| FlushRopPayload.

(** Modelled from the spec: [InputStream] (InputStream.h) is not among the
    sources; the spec has bytes read from it or skipped, both consuming the
    stream.  The stream keeps its bytes and the two counts. *)
Record InputStream : Type := mkStream {
  streamBytes : list byte;
  getNrBytesRead : Z;
  getNrBytesSkipped : Z;
}.

Definition getNrBytesConsumed (s : InputStream) : Z :=
  getNrBytesRead s + getNrBytesSkipped s.

Definition streamRead (n : Z) (s : InputStream) : list byte * InputStream :=
  (take (Z.to_nat n) (drop (Z.to_nat (getNrBytesConsumed s)) (streamBytes s)),
   mkStream (streamBytes s) (getNrBytesRead s + n) (getNrBytesSkipped s)).

Definition streamSkip (n : Z) (s : InputStream) : InputStream :=
  mkStream (streamBytes s) (getNrBytesRead s) (getNrBytesSkipped s + n).

(** A line of the script that sends input to the target. *)
Definition isSend (o : Emitted) : bool :=
  match o with
  | Writeline line => String.prefix "proc.send(" line
  | _ => false
  end.

Section WithContext.

(** The helpers that render values are declared outside the sources and
    taken as given: how [format] prints a number for [%d] and for [%x],
    [std::to_string], [toByteString], [evaluate<std::string>],
    [State::toString] and [IOStates::toString]. *)
Variable showInt : Z -> string.
Variable showHex : Z -> string.
Variable to_string : Z -> string.
Variable toByteString : list byte -> string.
Variable evaluate : Expr -> string.
Variable modStateToString : State -> string.
Variable leakTypeToString : LeakType -> string.

(** The extra parameters of [IOStateInfoVisitor] that do not change. *)
Variable hasCanary hasPIE : bool.
Variable ropChain : list RopSubchain.
Variable modState : State.

(** What the visitor changes: the script and the input stream. *)
Definition Out : Type := list Emitted * InputStream.

Definition writeline (line : string) (st : Out) : Out := (st.1 ++ [Writeline line], st.2).
Definition appendRopPayload (payload : string) (st : Out) : Out :=
  (st.1 ++ [AppendRopPayload payload], st.2).
Definition flushRopPayload (st : Out) : Out := (st.1 ++ [FlushRopPayload], st.2).

(** [IOStateInfoVisitor::shouldSkipInputState]; the member is a [uint32_t],
    so the [-1] of the assertion is 0xffffffff. *)
Definition shouldSkipInputState (i : Z) : res bool :=
  if wrap32 (-1) =? lastInputStateInfoIdxBeforeFirstSymbolicRip modState
  then AssertFail "-1 != modState.lastInputStateInfoIdxBeforeFirstSymbolicRip"
  else Ok (negb (i =? lastInputStateInfoIdx modState) &&
           (lastInputStateInfoIdxBeforeFirstSymbolicRip modState <=? i)).

(** [IOStateInfoVisitor::handleStage1] *)
Definition handleStage1 (stateInfo : InputStateInfo) (st : Out) : res Out :=
  if negb hasCanary && negb hasPIE then
    match ropChain with
    | [] => OutOfRange "ropChain[0]"
    | chain0 :: _ =>
        if bool_decide (length chain0 = 1%nat) then
          let '(bytes, stream) := streamRead (offset stateInfo) st.2 in
          let s := evaluate (ByteVectorExpr bytes) in
          Ok (flushRopPayload (appendRopPayload s (st.1, stream)))
        else AssertFail "ropChain[0] must only contain a ByteVectorExpr"
    end
  else
    let s := "solve_stage1(canary, elf_base, '" +:+ modStateToString modState +:+ "')"
             +:+ "[" +:+ showInt (getNrBytesRead st.2) +:+ ":"
             +:+ (if getNrBytesSkipped st.2 =? 0 then EmptyString
                  else to_string (getNrBytesConsumed st.2))
             +:+ "]" in
    Ok (flushRopPayload (appendRopPayload s st)).

(** The loop over [ropChain[1..]] at the end of the input handler. *)
Definition appendChains (chains : list RopSubchain) (st : Out) : Out :=
  foldl (fun st chain =>
           flushRopPayload (foldl (fun st e => appendRopPayload (evaluate e) st) st chain))
        st chains.

(** [IOStateInfoVisitor::operator()(const InputStateInfo &)] *)
Definition visitInput (i : Z) (stateInfo : InputStateInfo) (st : Out) : res Out :=
  res_bind (shouldSkipInputState i) (fun skip =>
  if skip then
    let st1 := writeline ("# input state (offset = " +:+ showInt (offset stateInfo)
                          +:+ "), skipped") st in
    Ok (st1.1, streamSkip (offset stateInfo) st1.2)
  else
    let st1 := writeline ("# input state (offset = " +:+ showInt (offset stateInfo) +:+ ")")
                         st in
    if negb (i =? lastInputStateInfoIdx modState) then
      let '(bytes, stream) := streamRead (offset stateInfo) st1.2 in
      Ok (writeline ("proc.send(" +:+ toByteString bytes +:+ ")") (st1.1, stream))
    else
      let st2 := writeline "# input state (rop chain begin)" st1 in
      res_bind (handleStage1 stateInfo st2) (fun st3 =>
      Ok (appendChains (drop 1 ropChain) st3))).

(** [IOStateInfoVisitor::operator()(const OutputStateInfo &)] *)
Definition visitOutput (stateInfo : OutputStateInfo) (st : Out) : Out :=
  let st1 := writeline "# output state" st in
  if negb (isInteresting stateInfo) then writeline "proc.recvrepeat(0.1)" st1
  else
    let st2 := writeline ("# leaking: " +:+ leakTypeToString (leakType stateInfo)) st1 in
    match leakType stateInfo with
    | CANARY =>
        writeline "log.info('leaked canary: {}'.format(hex(canary)))"
          (writeline "canary = u64(b'\x00' + proc.recv(7))"
             (writeline ("proc.recv(" +:+ showInt (bufIndex stateInfo) +:+ ")") st2))
    | _ =>
        writeline "log.info('leaked elf_base: {}'.format(hex(elf_base)))"
          (writeline ("elf_base = elf_leak - 0x" +:+ showHex (baseOffset stateInfo))
             (writeline "elf_leak = u64(proc.recv(6).ljust(8, b'\x00'))"
                (writeline ("proc.recv(" +:+ showInt (bufIndex stateInfo) +:+ ")") st2)))
    end.

(** [IOStateInfoVisitor::operator()(const SleepStateInfo &)] *)
Definition visitSleep (stateInfo : SleepStateInfo) (st : Out) : Out :=
  writeline ("sleep(" +:+ showInt (sec stateInfo) +:+ ")") (writeline "# sleep state" st).

(** [std::visit] of the visitor built for index [i]. *)
Definition visit (i : Z) (stateInfo : StateInfo) (st : Out) : res Out :=
  match stateInfo with
  | Input info => visitInput i info st
  | Output info => Ok (visitOutput info st)
  | Sleep info => Ok (visitSleep info st)
  end.

(** The loop of [generateMainFunction] from index [i] on. *)
Fixpoint walk (i : Z) (infos : list StateInfo) (st : Out) : res Out :=
  match infos with
  | [] => Ok st
  | stateInfo :: rest =>
      res_bind (visit i stateInfo (writeline EmptyString st)) (walk (i + 1) rest)
  end.

(** [LeakBasedCoreGenerator::generateMainFunction] *)
Definition generateMainFunction (stage1 : list byte) : res Out :=
  walk 0 (stateInfoList modState) ([], mkStream stage1 0 0).

(** ** Properties *)

Lemma walk_app (i : Z) (pre post : list StateInfo) (st : Out) :
  walk i (pre ++ post) st
  = res_bind (walk i pre st) (walk (i + Z.of_nat (length pre)) post).
Proof.
  revert i st. induction pre as [|x pre IH]; intros i st; simpl.
  - by rewrite Z.add_0_r.
  - destruct (visit i x (writeline EmptyString st)) as [st'| | | | |]; simpl; try done.
    rewrite IH. do 2 f_equal. lia.
Qed.

(** C9. An input state of the timeline whose index is at or after the
    tracker's last input index before the first symbolic RIP, and is not the
    index at which the rop chain is injected, is skipped: its visit emits one
    comment line and no send, and consumes [offset] bytes of the input
    stream by skipping them; the walk of [generateMainFunction] goes on from
    there. *)
Theorem input_state_after_hijack_is_skipped
    (i : nat) (pre post : list StateInfo) (info : InputStateInfo) (st st' : Out) :
  lastInputStateInfoIdxBeforeFirstSymbolicRip modState <> wrap32 (-1) ->
  Z.of_nat i <> lastInputStateInfoIdx modState ->
  lastInputStateInfoIdxBeforeFirstSymbolicRip modState <= Z.of_nat i ->
  length pre = i ->
  walk 0 pre st = Ok st' ->
  let skipped :=
    Writeline ("# input state (offset = " +:+ showInt (offset info) +:+ "), skipped") in
  visitInput (Z.of_nat i) info (writeline EmptyString st')
    = Ok (st'.1 ++ [Writeline EmptyString; skipped], streamSkip (offset info) st'.2) /\
  walk 0 (pre ++ Input info :: post) st
    = walk (Z.of_nat i + 1) post
           (st'.1 ++ [Writeline EmptyString; skipped], streamSkip (offset info) st'.2) /\
  isSend (Writeline EmptyString) = false /\ isSend skipped = false /\
  getNrBytesConsumed (streamSkip (offset info) st'.2)
    = getNrBytesConsumed st'.2 + offset info /\
  getNrBytesRead (streamSkip (offset info) st'.2) = getNrBytesRead st'.2.
Proof.
  intros Hset Hne Hge Hlen Hpre skipped.
  assert (Hvisit : visitInput (Z.of_nat i) info (writeline EmptyString st')
            = Ok (st'.1 ++ [Writeline EmptyString; skipped],
                  streamSkip (offset info) st'.2)).
  { unfold visitInput, shouldSkipInputState.
    destruct (wrap32 (-1) =? lastInputStateInfoIdxBeforeFirstSymbolicRip modState) eqn:Ha.
    { apply Z.eqb_eq in Ha. congruence. }
    simpl.
    replace (Z.of_nat i =? lastInputStateInfoIdx modState) with false
      by (symmetry; by apply Z.eqb_neq).
    replace (lastInputStateInfoIdxBeforeFirstSymbolicRip modState <=? Z.of_nat i) with true
      by (symmetry; by apply Z.leb_le).
    simpl. unfold skipped. by rewrite <- app_assoc. }
  split; [exact Hvisit|]. split.
  - rewrite walk_app, Hpre. simpl. rewrite Z.add_0_l, Hlen, Hvisit. done.
  - split; [done|]. split; [done|]. unfold getNrBytesConsumed, streamSkip. simpl.
    split; [lia|done].
Qed.

(** ** The other input states *)

(** What the subchains after the first add to the script: for each of them
    its payloads, in order, and one flush. *)
Definition chainLines (chains : list RopSubchain) : list Emitted :=
  concat ((fun chain => ((fun e => AppendRopPayload (evaluate e)) <$> chain)
                        ++ [FlushRopPayload]) <$> chains).

Lemma appendPayloads_spec (chain : RopSubchain) (st : Out) :
  foldl (fun st e => appendRopPayload (evaluate e) st) st chain
  = (st.1 ++ ((fun e => AppendRopPayload (evaluate e)) <$> chain), st.2).
Proof.
  revert st. induction chain as [|e chain IH]; intros [script stream]; simpl.
  - by rewrite app_nil_r.
  - rewrite IH. unfold appendRopPayload. simpl. by rewrite <- app_assoc.
Qed.

Lemma appendChains_spec (chains : list RopSubchain) (st : Out) :
  appendChains chains st = (st.1 ++ chainLines chains, st.2).
Proof.
  unfold appendChains, chainLines.
  revert st. induction chains as [|chain chains IH]; intros [script stream]; simpl.
  - by rewrite app_nil_r.
  - rewrite IH, appendPayloads_spec. unfold flushRopPayload. simpl.
    by rewrite <- !app_assoc.
Qed.

Lemma prefix_append (s t : string) : String.prefix s (s +:+ t) = true.
Proof.
  induction s as [|a s IH]; simpl; [by destruct t|].
  destruct (Ascii.ascii_dec a a); [exact IH|done].
Qed.

Definition inputComment (stateInfo : InputStateInfo) : Emitted :=
  Writeline ("# input state (offset = " +:+ showInt (offset stateInfo) +:+ ")").

(** An input state before the tracker's index, other than the injection
    point, is sent: after its comment, one send line carries the next
    [offset] bytes of the stream, which are counted as read. *)
Theorem input_state_before_hijack_is_sent (i : Z) (info : InputStateInfo) (st : Out) :
  lastInputStateInfoIdxBeforeFirstSymbolicRip modState <> wrap32 (-1) ->
  i <> lastInputStateInfoIdx modState ->
  i < lastInputStateInfoIdxBeforeFirstSymbolicRip modState ->
  let bytes := take (Z.to_nat (offset info))
                    (drop (Z.to_nat (getNrBytesConsumed st.2)) (streamBytes st.2)) in
  let send := Writeline ("proc.send(" +:+ toByteString bytes +:+ ")") in
  visitInput i info st
    = Ok (st.1 ++ [inputComment info; send],
          mkStream (streamBytes st.2) (getNrBytesRead st.2 + offset info)
                   (getNrBytesSkipped st.2)) /\
  isSend send = true.
Proof.
  intros Hset Hne Hlt. cbv zeta. split.
  2: { match goal with
       | |- isSend (Writeline ("proc.send(" +:+ ?x +:+ ?y)) = true =>
           change (String.prefix "proc.send(" ("proc.send(" +:+ (x +:+ y)) = true)
       end.
       apply prefix_append. }
  unfold visitInput, shouldSkipInputState.
  destruct (wrap32 (-1) =? lastInputStateInfoIdxBeforeFirstSymbolicRip modState) eqn:Ha.
  { apply Z.eqb_eq in Ha. congruence. }
  simpl.
  replace (i =? lastInputStateInfoIdx modState) with false
    by (symmetry; by apply Z.eqb_neq).
  replace (lastInputStateInfoIdxBeforeFirstSymbolicRip modState <=? i) with false
    by (symmetry; apply Z.leb_gt; lia).
  simpl. unfold writeline, inputComment. simpl. by rewrite <- app_assoc.
Qed.

(** At the injection point, for a target without canary and without PIE,
    the first payload is the next [offset] bytes of the stream, evaluated as
    a byte vector; the first subchain is only required to hold one
    expression, which is not evaluated; then every later subchain follows.
    The injection point is never skipped, wherever the tracker's index is. *)
Theorem rop_chain_injected_from_the_stream
    (info : InputStateInfo) (st : Out) (e0 : Expr) (later : list RopSubchain) :
  hasCanary = false -> hasPIE = false ->
  lastInputStateInfoIdxBeforeFirstSymbolicRip modState <> wrap32 (-1) ->
  ropChain = [e0] :: later ->
  let bytes := take (Z.to_nat (offset info))
                    (drop (Z.to_nat (getNrBytesConsumed st.2)) (streamBytes st.2)) in
  visitInput (lastInputStateInfoIdx modState) info st
  = Ok (st.1 ++ [inputComment info;
                 Writeline "# input state (rop chain begin)";
                 AppendRopPayload (evaluate (ByteVectorExpr bytes));
                 FlushRopPayload] ++ chainLines later,
        mkStream (streamBytes st.2) (getNrBytesRead st.2 + offset info)
                 (getNrBytesSkipped st.2)).
Proof.
  intros Hc Hp Hset Hchain. cbv zeta.
  unfold visitInput, shouldSkipInputState.
  destruct (wrap32 (-1) =? lastInputStateInfoIdxBeforeFirstSymbolicRip modState) eqn:Ha.
  { apply Z.eqb_eq in Ha. congruence. }
  simpl. rewrite Z.eqb_refl. simpl.
  unfold handleStage1. rewrite Hc, Hp, Hchain. simpl.
  rewrite appendChains_spec. simpl. unfold inputComment.
  by rewrite <- !app_assoc.
Qed.

(** Without canary and without PIE the first subchain must be there and
    hold exactly one expression: an empty rop chain is indexed out of its
    range, and a first subchain of another size fails the assertion. *)
Theorem rop_chain_injection_needs_one_expression (info : InputStateInfo) (st : Out) :
  hasCanary = false -> hasPIE = false ->
  lastInputStateInfoIdxBeforeFirstSymbolicRip modState <> wrap32 (-1) ->
  (ropChain = [] ->
   visitInput (lastInputStateInfoIdx modState) info st = OutOfRange "ropChain[0]") /\
  (forall chain0 later,
     ropChain = chain0 :: later -> length chain0 <> 1%nat ->
     visitInput (lastInputStateInfoIdx modState) info st
     = AssertFail "ropChain[0] must only contain a ByteVectorExpr").
Proof.
  intros Hc Hp Hset.
  assert (Hvisit : visitInput (lastInputStateInfoIdx modState) info st
            = res_bind (handleStage1 info
                          (writeline "# input state (rop chain begin)"
                             (writeline ("# input state (offset = "
                                         +:+ showInt (offset info) +:+ ")") st)))
                       (fun st3 => Ok (appendChains (drop 1 ropChain) st3))).
  { unfold visitInput, shouldSkipInputState.
    destruct (wrap32 (-1) =? lastInputStateInfoIdxBeforeFirstSymbolicRip modState) eqn:Ha.
    { apply Z.eqb_eq in Ha. congruence. }
    simpl. by rewrite Z.eqb_refl. }
  rewrite Hvisit. unfold handleStage1. rewrite Hc, Hp. simpl. split.
  - by intros ->.
  - intros chain0 later -> Hlen. by rewrite bool_decide_eq_false_2.
Qed.

(** With a canary or with PIE, stage 1 is left to be solved when the exploit
    runs: the payload is a call of [solve_stage1] sliced from the number of
    bytes read so far, up to the number of bytes consumed when some were
    skipped and without an upper bound otherwise.  The stream is not
    consumed, and the first subchain is not looked at: the rop chain may even
    be empty. *)
Theorem stage1_deferred_with_canary_or_pie (info : InputStateInfo) (st : Out) :
  hasCanary || hasPIE = true ->
  lastInputStateInfoIdxBeforeFirstSymbolicRip modState <> wrap32 (-1) ->
  let upper := if getNrBytesSkipped st.2 =? 0 then EmptyString
               else to_string (getNrBytesConsumed st.2) in
  let placeholder :=
    "solve_stage1(canary, elf_base, '" +:+ modStateToString modState +:+ "')"
    +:+ "[" +:+ showInt (getNrBytesRead st.2) +:+ ":" +:+ upper +:+ "]" in
  visitInput (lastInputStateInfoIdx modState) info st
  = Ok (st.1 ++ [inputComment info;
                 Writeline "# input state (rop chain begin)";
                 AppendRopPayload placeholder;
                 FlushRopPayload] ++ chainLines (drop 1 ropChain),
        st.2).
Proof.
  intros Hcp Hset. cbv zeta.
  unfold visitInput, shouldSkipInputState.
  destruct (wrap32 (-1) =? lastInputStateInfoIdxBeforeFirstSymbolicRip modState) eqn:Ha.
  { apply Z.eqb_eq in Ha. congruence. }
  simpl. rewrite Z.eqb_refl. simpl.
  unfold handleStage1.
  replace (negb hasCanary && negb hasPIE) with false
    by (destruct hasCanary, hasPIE; done).
  simpl. rewrite appendChains_spec. simpl. unfold inputComment.
  by rewrite <- !app_assoc.
Qed.

(** ** The walk as a whole *)

(** What a state of the timeline consumes of the stream: an input state its
    [offset], except the injection point when stage 1 is deferred. *)
Definition consumedBy (i : Z) (stateInfo : StateInfo) : Z :=
  match stateInfo with
  | Input info =>
      if (hasCanary || hasPIE) && (i =? lastInputStateInfoIdx modState)
      then 0 else offset info
  | _ => 0
  end.

Fixpoint consumedFrom (i : Z) (infos : list StateInfo) : Z :=
  match infos with
  | [] => 0
  | stateInfo :: rest => consumedBy i stateInfo + consumedFrom (i + 1) rest
  end.

Definition isInput (stateInfo : StateInfo) : bool :=
  match stateInfo with
  | Input _ => true
  | _ => false
  end.

Lemma visitInput_frame (i : Z) (info : InputStateInfo) (st st' : Out) :
  visitInput i info st = Ok st' ->
  exists added, st'.1 = st.1 ++ added /\ (1 <= length added)%nat /\
    streamBytes st'.2 = streamBytes st.2 /\
    getNrBytesConsumed st'.2 = getNrBytesConsumed st.2 + consumedBy i (Input info).
Proof.
  unfold visitInput, shouldSkipInputState, consumedBy.
  destruct (wrap32 (-1) =? lastInputStateInfoIdxBeforeFirstSymbolicRip modState); [done|].
  simpl. destruct (i =? lastInputStateInfoIdx modState) eqn:Hi; simpl.
  - unfold handleStage1.
    destruct hasCanary, hasPIE; simpl.
    1-3: intros [= <-]; rewrite appendChains_spec; simpl; rewrite <- !app_assoc;
         eexists; split; [reflexivity|]; split; [rewrite !length_app; simpl; lia|];
         split; [done|lia].
    destruct ropChain as [|chain0 later]; [done|].
    destruct (bool_decide (length chain0 = 1%nat)); [|done]. simpl.
    intros [= <-]. rewrite appendChains_spec. simpl. rewrite <- !app_assoc.
    eexists. split; [reflexivity|]. split; [rewrite !length_app; simpl; lia|].
    split; [done|]. unfold getNrBytesConsumed. simpl. lia.
  - rewrite andb_false_r.
    destruct (lastInputStateInfoIdxBeforeFirstSymbolicRip modState <=? i); simpl.
    + intros [= <-]. simpl. eexists. split; [reflexivity|]. split; [simpl; lia|].
      split; [done|]. unfold getNrBytesConsumed. simpl. lia.
    + intros [= <-]. simpl. rewrite <- app_assoc.
      eexists. split; [reflexivity|]. split; [simpl; lia|].
      split; [done|]. unfold getNrBytesConsumed. simpl. lia.
Qed.

Lemma visit_frame (i : Z) (stateInfo : StateInfo) (st st' : Out) :
  visit i stateInfo st = Ok st' ->
  exists added, st'.1 = st.1 ++ added /\ (1 <= length added)%nat /\
    streamBytes st'.2 = streamBytes st.2 /\
    getNrBytesConsumed st'.2 = getNrBytesConsumed st.2 + consumedBy i stateInfo.
Proof.
  destruct stateInfo as [info|info|info]; simpl.
  - apply visitInput_frame.
  - intros [= <-]. unfold visitOutput.
    destruct (isInteresting info); simpl.
    + destruct (leakType info); simpl; rewrite <- !app_assoc;
        (eexists; split; [reflexivity|]; split; [simpl; lia|]; split; [done|lia]).
    + rewrite <- !app_assoc.
      eexists; split; [reflexivity|]; split; [simpl; lia|]; split; [done|lia].
  - intros [= <-]. unfold visitSleep. simpl. rewrite <- !app_assoc.
    eexists; split; [reflexivity|]; split; [simpl; lia|]; split; [done|lia].
Qed.

Lemma walk_frame (i : Z) (infos : list StateInfo) (st st' : Out) :
  walk i infos st = Ok st' ->
  exists added, st'.1 = st.1 ++ added /\ (2 * length infos <= length added)%nat /\
    streamBytes st'.2 = streamBytes st.2 /\
    getNrBytesConsumed st'.2 = getNrBytesConsumed st.2 + consumedFrom i infos.
Proof.
  revert i st. induction infos as [|x infos IH]; intros i st; simpl.
  - intros [= <-]. exists []. rewrite app_nil_r. split; [done|]. split; [simpl; lia|].
    split; [done|lia].
  - destruct (visit i x (writeline EmptyString st)) as [st1| | | | |] eqn:Hv;
      simpl; try done.
    intros Hw.
    destruct (visit_frame _ _ _ _ Hv) as (a1 & Hs1 & Hl1 & Hb1 & Hc1).
    destruct (IH _ _ Hw) as (a2 & Hs2 & Hl2 & Hb2 & Hc2).
    exists ([Writeline EmptyString] ++ a1 ++ a2).
    split; [|split; [|split]].
    + rewrite Hs2, Hs1. simpl. by rewrite <- !app_assoc.
    + rewrite !length_app. simpl. lia.
    + rewrite Hb2, Hb1. done.
    + rewrite Hc2, Hc1. simpl. lia.
Qed.

(** The script is append-only and the bytes of the stream are never changed:
    a walk that ends leaves the script it started from as a prefix of the
    result, adds at least two lines for every state of the timeline (the
    empty line and what the state emits), and keeps the stream's bytes. *)
Theorem walk_only_appends_to_the_script (i : Z) (infos : list StateInfo) (st st' : Out) :
  walk i infos st = Ok st' ->
  (exists added, st'.1 = st.1 ++ added /\ (2 * length infos <= length added)%nat) /\
  streamBytes st'.2 = streamBytes st.2.
Proof.
  intros Hw. destruct (walk_frame _ _ _ _ Hw) as (added & Hs & Hl & Hb & _).
  split; [by exists added|done].
Qed.

(** Every input state consumes exactly its [offset] of the stream, by a
    read or by a skip, except the injection point when a canary or PIE defers
    stage 1, which consumes nothing; output and sleep states consume
    nothing.  So, without canary and without PIE, a walk that ends has
    consumed the sum of the offsets of the input states. *)
Theorem walk_consumes_the_offsets_of_input_states
    (i : Z) (infos : list StateInfo) (st st' : Out) :
  walk i infos st = Ok st' ->
  getNrBytesConsumed st'.2 = getNrBytesConsumed st.2 + consumedFrom i infos /\
  (hasCanary = false -> hasPIE = false ->
   consumedFrom i infos
   = foldr (fun x acc => match x with Input info => offset info + acc | _ => acc end)
           0 infos).
Proof.
  intros Hw. destruct (walk_frame _ _ _ _ Hw) as (_ & _ & _ & _ & Hc).
  split; [done|]. intros Hcan Hpie. clear Hw Hc.
  revert i. induction infos as [|x infos IH]; intros i; simpl; [done|].
  rewrite IH. destruct x as [info|info|info]; simpl; [|done..].
  by rewrite Hcan, Hpie.
Qed.

Lemma walk_without_input (i : Z) (infos : list StateInfo) (st : Out) :
  Forall (fun x => isInput x = false) infos ->
  exists st', walk i infos st = Ok st' /\ st'.2 = st.2.
Proof.
  intros Hno. revert i st. induction Hno as [|x infos Hx _ IH]; intros i st; simpl.
  - by exists st.
  - destruct x as [info|info|info]; [done| |]; simpl.
    + destruct (IH (i + 1) (visitOutput info (writeline EmptyString st)))
        as (st' & -> & Hs).
      exists st'. split; [done|]. rewrite Hs. unfold visitOutput.
      destruct (isInteresting info); [|done]. by destruct (leakType info).
    + destruct (IH (i + 1) (visitSleep info (writeline EmptyString st)))
        as (st' & -> & Hs).
      exists st'. split; [done|]. by rewrite Hs.
Qed.

(** The tracker's index is only looked at by the input states: a timeline
    without input states is always walked to its end, without touching the
    stream, even while the index is unset; and while it is unset (-1 as a
    [uint32_t]), the first input state of a timeline fails the assertion,
    whatever its index. *)
Theorem unset_tracker_fails_at_the_first_input_state
    (i : Z) (pre post : list StateInfo) (info : InputStateInfo) (st : Out) :
  Forall (fun x => isInput x = false) pre ->
  (exists st', walk i pre st = Ok st' /\ st'.2 = st.2) /\
  (lastInputStateInfoIdxBeforeFirstSymbolicRip modState = wrap32 (-1) ->
   walk i (pre ++ Input info :: post) st
   = AssertFail "-1 != modState.lastInputStateInfoIdxBeforeFirstSymbolicRip").
Proof.
  intros Hpre. destruct (walk_without_input i pre st Hpre) as (st' & Hw & Hs).
  split; [by exists st'|].
  intros Hunset. rewrite walk_app, Hw. simpl.
  unfold visitInput, shouldSkipInputState. rewrite Hunset, Z.eqb_refl. done.
Qed.

End WithContext.

(** ** A timeline with a re-entered input state *)

(** Three input states: the first is sent, the second was recorded after the
    first symbolic RIP and is not the injection point, the third is where
    the rop chain goes. *)
Definition demoState : State := {|
  lastInputStateInfoIdx := 2;
  lastInputStateInfoIdxBeforeFirstSymbolicRip := 1;
  stateInfoList := [Input (mkInput [] 2); Input (mkInput [] 3); Input (mkInput [] 4)];
|}.

Definition demoToByteString (bs : list byte) : string :=
  "b'" +:+ String.string_of_list_byte bs +:+ "'".

Definition demoEvaluate (e : Expr) : string :=
  match e with
  | ByteVectorExpr bs => demoToByteString bs
  | _ => "p64(0)"
  end.

Definition demoStage1 : list byte := String.list_byte_of_string "hi---AAAA".

Example demo_generateMainFunction :
  generateMainFunction pretty pretty pretty demoToByteString demoEvaluate (fun _ => "state") (fun _ => "code")
                       false false [[ByteVectorExpr []]; [ConstantExpr 0 64]] demoState
                       demoStage1
  = Ok ([Writeline EmptyString;
         Writeline "# input state (offset = 2)";
         Writeline "proc.send(b'hi')";
         Writeline EmptyString;
         Writeline "# input state (offset = 3), skipped";
         Writeline EmptyString;
         Writeline "# input state (offset = 4)";
         Writeline "# input state (rop chain begin)";
         AppendRopPayload "b'AAAA'";
         FlushRopPayload;
         AppendRopPayload "p64(0)";
         FlushRopPayload],
        mkStream demoStage1 6 3).
Proof. vm_compute. reflexivity. Qed.

Lemma input_state_after_hijack_is_skipped_witness :
  walk pretty pretty pretty demoToByteString demoEvaluate (fun _ => "state") (fun _ => "code")
       false false [[ByteVectorExpr []]; [ConstantExpr 0 64]] demoState
       0 ([Input (mkInput [] 2)] ++ Input (mkInput [] 3) :: [Input (mkInput [] 4)])
       ([], mkStream demoStage1 0 0)
  = walk pretty pretty pretty demoToByteString demoEvaluate (fun _ => "state") (fun _ => "code")
       false false [[ByteVectorExpr []]; [ConstantExpr 0 64]] demoState
       (Z.of_nat 1 + 1) [Input (mkInput [] 4)]
       ([Writeline EmptyString;
         Writeline "# input state (offset = 2)";
         Writeline "proc.send(b'hi')"]
        ++ [Writeline EmptyString;
            Writeline ("# input state (offset = " +:+ pretty 3 +:+ "), skipped")],
        streamSkip 3 (mkStream demoStage1 2 0)).
Proof.
  apply (input_state_after_hijack_is_skipped pretty pretty pretty demoToByteString
           demoEvaluate (fun _ => "state") (fun _ => "code") false false
           [[ByteVectorExpr []]; [ConstantExpr 0 64]] demoState
           1%nat [Input (mkInput [] 2)] [Input (mkInput [] 4)] (mkInput [] 3)
           ([], mkStream demoStage1 0 0)
           ([Writeline EmptyString;
             Writeline "# input state (offset = 2)";
             Writeline "proc.send(b'hi')"], mkStream demoStage1 2 0)).
  - vm_compute. discriminate.
  - vm_compute. discriminate.
  - vm_compute. discriminate.
  - reflexivity.
  - vm_compute. reflexivity.
Defined.

(** ** The other input states, on the same timeline *)

Lemma input_state_before_hijack_is_sent_witness :
  visitInput pretty pretty demoToByteString demoEvaluate (fun _ => "state")
             false false [[ByteVectorExpr []]; [ConstantExpr 0 64]] demoState
             0 (mkInput [] 2) ([], mkStream demoStage1 0 0)
  = Ok ([Writeline "# input state (offset = 2)"; Writeline "proc.send(b'hi')"],
        mkStream demoStage1 2 0).
Proof.
  refine (proj1 (input_state_before_hijack_is_sent pretty pretty demoToByteString
                   demoEvaluate (fun _ => "state") false false
                   [[ByteVectorExpr []]; [ConstantExpr 0 64]] demoState
                   0 (mkInput [] 2) ([], mkStream demoStage1 0 0) _ _ _)).
  - vm_compute. discriminate.
  - vm_compute. discriminate.
  - reflexivity.
Defined.

Lemma rop_chain_injected_from_the_stream_witness :
  visitInput pretty pretty demoToByteString demoEvaluate (fun _ => "state")
             false false [[ByteVectorExpr []]; [ConstantExpr 0 64]] demoState
             2 (mkInput [] 4) ([], mkStream demoStage1 2 3)
  = Ok ([Writeline "# input state (offset = 4)";
         Writeline "# input state (rop chain begin)";
         AppendRopPayload "b'AAAA'";
         FlushRopPayload;
         AppendRopPayload "p64(0)";
         FlushRopPayload],
        mkStream demoStage1 6 3).
Proof.
  refine (rop_chain_injected_from_the_stream pretty pretty demoToByteString
            demoEvaluate (fun _ => "state") false false
            [[ByteVectorExpr []]; [ConstantExpr 0 64]] demoState
            (mkInput [] 4) ([], mkStream demoStage1 2 3)
            (ByteVectorExpr []) [[ConstantExpr 0 64]] _ _ _ _).
  - reflexivity.
  - reflexivity.
  - vm_compute. discriminate.
  - reflexivity.
Defined.

Lemma rop_chain_injection_needs_one_expression_witness :
  visitInput pretty pretty demoToByteString demoEvaluate (fun _ => "state")
             false false [[ConstantExpr 0 64; ConstantExpr 1 64]] demoState
             2 (mkInput [] 4) ([], mkStream demoStage1 2 3)
  = AssertFail "ropChain[0] must only contain a ByteVectorExpr".
Proof.
  refine (proj2 (rop_chain_injection_needs_one_expression pretty pretty demoToByteString
                   demoEvaluate (fun _ => "state") false false
                   [[ConstantExpr 0 64; ConstantExpr 1 64]] demoState
                   (mkInput [] 4) ([], mkStream demoStage1 2 3) _ _ _)
                [ConstantExpr 0 64; ConstantExpr 1 64] [] _ _).
  - reflexivity.
  - reflexivity.
  - vm_compute. discriminate.
  - reflexivity.
  - simpl. lia.
Defined.

Lemma stage1_deferred_with_canary_or_pie_witness :
  visitInput pretty pretty demoToByteString demoEvaluate (fun _ => "state")
             true false [] demoState
             2 (mkInput [] 4) ([], mkStream demoStage1 2 3)
  = Ok ([Writeline "# input state (offset = 4)";
         Writeline "# input state (rop chain begin)";
         AppendRopPayload "solve_stage1(canary, elf_base, 'state')[2:5]";
         FlushRopPayload],
        mkStream demoStage1 2 3).
Proof.
  refine (stage1_deferred_with_canary_or_pie pretty pretty demoToByteString
            demoEvaluate (fun _ => "state") true false [] demoState
            (mkInput [] 4) ([], mkStream demoStage1 2 3) _ _).
  - reflexivity.
  - vm_compute. discriminate.
Defined.

(** The script of [demo_generateMainFunction]. *)
Definition demoScript : list Emitted :=
  [Writeline EmptyString;
   Writeline "# input state (offset = 2)";
   Writeline "proc.send(b'hi')";
   Writeline EmptyString;
   Writeline "# input state (offset = 3), skipped";
   Writeline EmptyString;
   Writeline "# input state (offset = 4)";
   Writeline "# input state (rop chain begin)";
   AppendRopPayload "b'AAAA'";
   FlushRopPayload;
   AppendRopPayload "p64(0)";
   FlushRopPayload].

Lemma walk_only_appends_to_the_script_witness :
  (exists added, demoScript = [] ++ added /\ (2 * 3 <= length added)%nat) /\
  streamBytes (mkStream demoStage1 6 3) = demoStage1.
Proof.
  refine (walk_only_appends_to_the_script pretty pretty pretty demoToByteString
            demoEvaluate (fun _ => "state") (fun _ => "code") false false
            [[ByteVectorExpr []]; [ConstantExpr 0 64]] demoState
            0 (stateInfoList demoState) ([], mkStream demoStage1 0 0)
            (demoScript, mkStream demoStage1 6 3) _).
  vm_compute. reflexivity.
Defined.

Lemma walk_consumes_the_offsets_of_input_states_witness :
  getNrBytesConsumed (mkStream demoStage1 6 3)
  = getNrBytesConsumed (mkStream demoStage1 0 0)
    + consumedFrom false false demoState 0 (stateInfoList demoState).
Proof.
  refine (proj1 (walk_consumes_the_offsets_of_input_states pretty pretty pretty
                   demoToByteString demoEvaluate (fun _ => "state") (fun _ => "code")
                   false false [[ByteVectorExpr []]; [ConstantExpr 0 64]] demoState
                   0 (stateInfoList demoState) ([], mkStream demoStage1 0 0)
                   (demoScript, mkStream demoStage1 6 3) _)).
  vm_compute. reflexivity.
Defined.

(** A tracker that never saw a symbolic RIP, in front of a timeline that
    leaks the canary, sleeps, and then takes input. *)
Definition unsetState : State := {|
  lastInputStateInfoIdx := 2;
  lastInputStateInfoIdxBeforeFirstSymbolicRip := wrap32 (-1);
  stateInfoList := [Output (mkOutput true 8 0 CANARY); Sleep (mkSleep 1);
                    Input (mkInput [] 2)];
|}.

Lemma unset_tracker_fails_at_the_first_input_state_witness :
  walk pretty pretty pretty demoToByteString demoEvaluate (fun _ => "state") (fun _ => "code")
       false false [[ByteVectorExpr []]] unsetState
       0 ([Output (mkOutput true 8 0 CANARY); Sleep (mkSleep 1)] ++ Input (mkInput [] 2) :: [])
       ([], mkStream demoStage1 0 0)
  = AssertFail "-1 != modState.lastInputStateInfoIdxBeforeFirstSymbolicRip".
Proof.
  refine (proj2 (unset_tracker_fails_at_the_first_input_state pretty pretty pretty
                   demoToByteString demoEvaluate (fun _ => "state") (fun _ => "code")
                   false false [[ByteVectorExpr []]] unsetState
                   0 [Output (mkOutput true 8 0 CANARY); Sleep (mkSleep 1)] []
                   (mkInput [] 2) ([], mkStream demoStage1 0 0) _) _).
  - repeat constructor.
  - reflexivity.
Defined.

End CoreGenerator.

(** * CRAX.cpp: the instruction, system-call and fork callbacks *)

Module Callbacks.

(** [SyscallCtx]: the registers of a system call and its return value. *)
Record SyscallCtx : Type := mkCtx {
  ret : Z;
  nr : Z;
  arg1 : Z;
  arg2 : Z;
  arg3 : Z;
  arg4 : Z;
  arg5 : Z;
  arg6 : Z;
}.

#[global] Instance SyscallCtx_eq_dec : EqDecision SyscallCtx.
Proof. solve_decision. Defined.

Definition setRet (r : Z) (c : SyscallCtx) : SyscallCtx :=
  mkCtx r (nr c) (arg1 c) (arg2 c) (arg3 c) (arg4 c) (arg5 c) (arg6 c).

(** A line of the information log: the text that is written, without the
    values printed by [hexval], and those values in their order. *)
Inductive InfoEntry : Type :=
| Info (text : string) (hexvals : list Z).

(** The plugin's own data, over the data [E] of the engine and of the
    modules (which the hooks may change). *)
Record Crax (E : Type) : Type := mkCrax {
  m_currentState : StateId;
  m_scheduledAfterSyscallHooks : gmap Z SyscallCtx;
  m_allowedForkingStates : gset StateId;
  data : E;
  info : list InfoEntry;
}.
Arguments mkCrax {E}.
Arguments m_currentState {E}.
Arguments m_scheduledAfterSyscallHooks {E}.
Arguments m_allowedForkingStates {E}.
Arguments data {E}.
Arguments info {E}.

Section WithEngine.

Context {E : Type}.

(** What the callbacks ask of their surroundings: the concrete value of a
    register of a state, the disassembler at an address (it reads the memory
    of the current state), the monitor's test for kernel addresses, the
    configuration flags, and the slots connected to the signals.  A slot of
    a system-call signal receives the context by reference. *)
Variable readConcrete : E -> StateId -> Register -> Z.
Variable disasm : E -> StateId -> Z -> option Ret2syscall.Instruction.
Variable isKernelAddress : Z -> bool.
Variable m_showInstructions m_showSyscalls m_disableNativeForking : bool.

Definition SyscallHook : Type := StateId -> SyscallCtx -> E -> SyscallCtx * E.
Definition InstructionHook : Type := StateId -> Ret2syscall.Instruction -> E -> E.
Definition ForkHook : Type := StateId -> bool -> E -> bool * E.

Variable beforeInstructionHooks afterInstructionHooks : list InstructionHook.
Variable beforeSyscallHooks afterSyscallHooks : list SyscallHook.
Variable onStateForkModuleDecide : list ForkHook.

Definition emitSyscall (hooks : list SyscallHook) (state : StateId)
    (syscall : SyscallCtx) (d : E) : SyscallCtx * E :=
  foldl (fun '(c, d) hook => hook state c d) (syscall, d) hooks.

Definition emitInstruction (hooks : list InstructionHook) (state : StateId)
    (i : Ret2syscall.Instruction) (d : E) : E :=
  foldl (fun d hook => hook state i d) d hooks.

Definition emitFork (hooks : list ForkHook) (state : StateId)
    (allowForking : bool) (d : E) : bool * E :=
  foldl (fun '(a, d) hook => hook state a d) (allowForking, d) hooks.

Definition setData (d : E) (w : Crax E) : Crax E :=
  mkCrax (m_currentState w) (m_scheduledAfterSyscallHooks w) (m_allowedForkingStates w)
         d (info w).

Definition setScheduled (m : gmap Z SyscallCtx) (w : Crax E) : Crax E :=
  mkCrax (m_currentState w) m (m_allowedForkingStates w) (data w) (info w).

Definition setCurrent (state : StateId) (w : Crax E) : Crax E :=
  mkCrax state (m_scheduledAfterSyscallHooks w) (m_allowedForkingStates w)
         (data w) (info w).

Definition logInfo (l : InfoEntry) (w : Crax E) : Crax E :=
  mkCrax (m_currentState w) (m_scheduledAfterSyscallHooks w) (m_allowedForkingStates w)
         (data w) (info w ++ [l]).

(** The context built at the start of a system call. *)
Definition snapshot (w : Crax E) : SyscallCtx :=
  let rd := readConcrete (data w) (m_currentState w) in
  mkCtx 0 (rd RAX) (rd RDI) (rd RSI) (rd RDX) (rd R10) (rd R8) (rd R9).

(** [CRAX::onExecuteSyscallStart]: the context is stored at [pc + 2] and
    the slots receive a reference to the stored entry. *)
Definition onExecuteSyscallStart (state : StateId) (pc : Z) (w : Crax E) : Crax E :=
  let syscall := snapshot w in
  let w1 := if m_showSyscalls
            then logInfo (Info "syscall:  (, , , , , "
                            [nr syscall; arg1 syscall; arg2 syscall; arg3 syscall;
                             arg4 syscall; arg5 syscall; arg6 syscall]) w
            else w in
  let '(syscall', d') := emitSyscall beforeSyscallHooks state syscall (data w1) in
  setData d' (setScheduled (<[wrap64 (pc + 2) := syscall']>
                              (m_scheduledAfterSyscallHooks w1)) w1).

(** [CRAX::onExecuteSyscallEnd], on the entry found at [pc]. *)
Definition onExecuteSyscallEnd (state : StateId) (pc : Z) (syscall : SyscallCtx)
    (w : Crax E) : Crax E :=
  let syscall1 := setRet (readConcrete (data w) (m_currentState w) RAX) syscall in
  let '(syscall', d') := emitSyscall afterSyscallHooks state syscall1 (data w) in
  setData d' (setScheduled (<[pc := syscall']> (m_scheduledAfterSyscallHooks w)) w).

(** [CRAX::onExecuteInstructionStart] *)
Definition onExecuteInstructionStart (state : StateId) (pc : Z) (w : Crax E) : Crax E :=
  let w0 := setCurrent state w in
  match disasm (data w0) state pc with
  | None => w0
  | Some i =>
      let w1 := if m_showInstructions && negb (isKernelAddress pc)
                then logInfo (Info (": " +:+ Ret2syscall.mnemonic i +:+ " "
                                         +:+ Ret2syscall.opStr i)
                                   [Ret2syscall.address i]) w0
                else w0 in
      let w2 := if bool_decide (Ret2syscall.mnemonic i = "syscall")
                then onExecuteSyscallStart state pc w1 else w1 in
      let w3 := match m_scheduledAfterSyscallHooks w2 !! pc with
                | Some syscall => onExecuteSyscallEnd state pc syscall w2
                | None => w2
                end in
      setData (emitInstruction beforeInstructionHooks state i (data w3)) w3
  end.

(** [CRAX::onExecuteInstructionEnd] *)
Definition onExecuteInstructionEnd (state : StateId) (pc : Z) (w : Crax E) : Crax E :=
  let w0 := setCurrent state w in
  match disasm (data w0) state pc with
  | None => w0
  | Some i => setData (emitInstruction afterInstructionHooks state i (data w0)) w0
  end.

(** [CRAX::onStateForkDecide]: the decision and the plugin afterwards. *)
Definition onStateForkDecide (state : StateId) (allowForking : bool) (w : Crax E)
  : bool * Crax E :=
  if negb m_disableNativeForking then (allowForking, w)
  else
    let '(allow1, d1) := emitFork onStateForkModuleDecide state allowForking (data w) in
    let erased := bool_decide (state ∈ m_allowedForkingStates w) in
    (allow1 || erased,
     mkCrax (m_currentState w) (m_scheduledAfterSyscallHooks w)
            (m_allowedForkingStates w ∖ {[state]}) d1 (info w)).

(** ** The table of scheduled hooks *)

Lemma wrap64_add2_ne (pc : Z) : in_u64 pc -> wrap64 (pc + 2) <> pc.
Proof.
  unfold in_u64, wrap64. intros Hpc.
  destruct (decide (pc + 2 < 2 ^ 64)) as [Hlt|Hge].
  - rewrite Z.mod_small by lia. lia.
  - replace (pc + 2) with (pc + 2 - 2 ^ 64 + 1 * 2 ^ 64) by lia.
    rewrite Z_mod_plus_full, Z.mod_small by lia. lia.
Qed.

Lemma onExecuteSyscallStart_scheduled state pc (w : Crax E) :
  m_scheduledAfterSyscallHooks (onExecuteSyscallStart state pc w)
  = <[wrap64 (pc + 2) := (emitSyscall beforeSyscallHooks state (snapshot w) (data w)).1]>
      (m_scheduledAfterSyscallHooks w).
Proof.
  unfold onExecuteSyscallStart. cbv zeta.
  destruct m_showSyscalls; simpl;
    by destruct (emitSyscall beforeSyscallHooks state (snapshot w) (data w)).
Qed.

Lemma onExecuteSyscallEnd_scheduled state pc syscall (w : Crax E) :
  m_scheduledAfterSyscallHooks (onExecuteSyscallEnd state pc syscall w)
  = <[pc := (emitSyscall afterSyscallHooks state
               (setRet (readConcrete (data w) (m_currentState w) RAX) syscall)
               (data w)).1]>
      (m_scheduledAfterSyscallHooks w).
Proof.
  unfold onExecuteSyscallEnd. cbv zeta.
  by destruct (emitSyscall afterSyscallHooks state _ (data w)).
Qed.

(** A [syscall] instruction at [pc] schedules the after-syscall hooks at
    [pc + 2]: once the instruction has started, the table holds there the
    context taken from the registers (system-call number from RAX, arguments
    from RDI, RSI, RDX, R10, R8, R9, return value 0) as the before-syscall
    slots left it, and the entries at other addresses than [pc] and [pc + 2]
    are as they were. *)
Theorem syscall_schedules_hook_two_bytes_later
    (state : StateId) (pc : Z) (i : Ret2syscall.Instruction) (w : Crax E) :
  in_u64 pc ->
  disasm (data w) state pc = Some i ->
  Ret2syscall.mnemonic i = "syscall" ->
  let w' := onExecuteInstructionStart state pc w in
  let taken := snapshot (setCurrent state w) in
  m_scheduledAfterSyscallHooks w' !! wrap64 (pc + 2)
    = Some (emitSyscall beforeSyscallHooks state taken (data w)).1 /\
  taken = mkCtx 0 (readConcrete (data w) state RAX) (readConcrete (data w) state RDI)
                (readConcrete (data w) state RSI) (readConcrete (data w) state RDX)
                (readConcrete (data w) state R10) (readConcrete (data w) state R8)
                (readConcrete (data w) state R9) /\
  (forall k, k <> wrap64 (pc + 2) -> k <> pc ->
     m_scheduledAfterSyscallHooks w' !! k = m_scheduledAfterSyscallHooks w !! k).
Proof.
  intros Hpc Hdis Hsys. cbv zeta.
  pose proof (wrap64_add2_ne pc Hpc) as Hne.
  unfold onExecuteInstructionStart. cbv zeta.
  change (data (setCurrent state w)) with (data w). rewrite Hdis.
  rewrite (bool_decide_eq_true_2 _ Hsys).
  set (w1 := if m_showInstructions && negb (isKernelAddress pc) then _ else _).
  assert (Hw1 : m_scheduledAfterSyscallHooks w1 = m_scheduledAfterSyscallHooks w /\
                data w1 = data w /\ snapshot w1 = snapshot (setCurrent state w)).
  { unfold w1. by destruct (m_showInstructions && negb (isKernelAddress pc)). }
  destruct Hw1 as (Hs1 & Hd1 & Hsn1).
  set (w2 := onExecuteSyscallStart state pc w1).
  assert (Hs2 : m_scheduledAfterSyscallHooks w2
                = <[wrap64 (pc + 2) :=
                      (emitSyscall beforeSyscallHooks state
                         (snapshot (setCurrent state w)) (data w)).1]>
                    (m_scheduledAfterSyscallHooks w)).
  { unfold w2. by rewrite onExecuteSyscallStart_scheduled, Hs1, Hd1, Hsn1. }
  assert (Hs3 : m_scheduledAfterSyscallHooks
                  (match m_scheduledAfterSyscallHooks w2 !! pc with
                   | Some syscall => onExecuteSyscallEnd state pc syscall w2
                   | None => w2
                   end) !! wrap64 (pc + 2)
                = m_scheduledAfterSyscallHooks w2 !! wrap64 (pc + 2) /\
                forall k, k <> pc ->
                  m_scheduledAfterSyscallHooks
                    (match m_scheduledAfterSyscallHooks w2 !! pc with
                     | Some syscall => onExecuteSyscallEnd state pc syscall w2
                     | None => w2
                     end) !! k
                  = m_scheduledAfterSyscallHooks w2 !! k).
  { destruct (m_scheduledAfterSyscallHooks w2 !! pc) as [syscall|]; [|done].
    rewrite onExecuteSyscallEnd_scheduled.
    split; [by rewrite lookup_insert_ne|].
    intros k Hk. by rewrite lookup_insert_ne. }
  destruct Hs3 as [Hat Hother]. simpl.
  split; [|split; [done|]].
  - rewrite Hat, Hs2. apply lookup_insert_eq.
  - intros k Hk1 Hk2. rewrite Hother, Hs2 by done. by rewrite lookup_insert_ne.
Qed.

(** Scheduled hooks are never removed: whatever instruction starts, every
    address that had an entry still has one.  An instruction that cannot be
    disassembled changes nothing but the selector of the current state, even
    when hooks are scheduled at its address. *)
Theorem scheduled_hooks_are_never_removed (state : StateId) (pc : Z) (w : Crax E) :
  (forall k, is_Some (m_scheduledAfterSyscallHooks w !! k) ->
             is_Some (m_scheduledAfterSyscallHooks
                        (onExecuteInstructionStart state pc w) !! k)) /\
  (disasm (data w) state pc = None ->
   onExecuteInstructionStart state pc w = setCurrent state w).
Proof.
  split.
  - intros k Hk. unfold onExecuteInstructionStart. cbv zeta.
    change (data (setCurrent state w)) with (data w).
    destruct (disasm (data w) state pc) as [i|]; [|done].
    set (w1 := if m_showInstructions && negb (isKernelAddress pc) then _ else _).
    assert (Hs1 : m_scheduledAfterSyscallHooks w1 = m_scheduledAfterSyscallHooks w).
    { unfold w1. by destruct (m_showInstructions && negb (isKernelAddress pc)). }
    set (w2 := if bool_decide (Ret2syscall.mnemonic i = "syscall") then _ else _).
    assert (Hk2 : is_Some (m_scheduledAfterSyscallHooks w2 !! k)).
    { unfold w2. destruct (bool_decide (Ret2syscall.mnemonic i = "syscall")).
      - rewrite onExecuteSyscallStart_scheduled, Hs1.
        destruct (decide (k = wrap64 (pc + 2))) as [->|Hne].
        + rewrite lookup_insert_eq. by eexists.
        + by rewrite lookup_insert_ne.
      - by rewrite Hs1. }
    simpl. destruct (m_scheduledAfterSyscallHooks w2 !! pc) as [syscall|]; [|done].
    rewrite onExecuteSyscallEnd_scheduled.
    destruct (decide (k = pc)) as [->|Hne].
    + rewrite lookup_insert_eq. by eexists.
    + by rewrite lookup_insert_ne.
  - intros Hdis. unfold onExecuteInstructionStart. cbv zeta.
    change (data (setCurrent state w)) with (data w). by rewrite Hdis.
Qed.

(** When an instruction other than [syscall] starts at an address that has
    an entry, the after-syscall slots run first, on the entry with RAX as its
    return value, then the before-instruction slots; the entry stays in the
    table as the slots left it, so the hooks run again whenever that
    instruction starts again. *)
Theorem scheduled_hook_runs_with_return_value
    (state : StateId) (pc : Z) (i : Ret2syscall.Instruction) (syscall : SyscallCtx)
    (w : Crax E) :
  disasm (data w) state pc = Some i ->
  Ret2syscall.mnemonic i <> "syscall" ->
  m_scheduledAfterSyscallHooks w !! pc = Some syscall ->
  let w' := onExecuteInstructionStart state pc w in
  let r := emitSyscall afterSyscallHooks state
             (setRet (readConcrete (data w) state RAX) syscall) (data w) in
  m_scheduledAfterSyscallHooks w' !! pc = Some r.1 /\
  data w' = emitInstruction beforeInstructionHooks state i r.2 /\
  m_currentState w' = state.
Proof.
  intros Hdis Hsys Hat. cbv zeta.
  unfold onExecuteInstructionStart. cbv zeta.
  change (data (setCurrent state w)) with (data w). rewrite Hdis.
  rewrite (bool_decide_eq_false_2 _ Hsys).
  set (w1 := if m_showInstructions && negb (isKernelAddress pc) then _ else _).
  assert (Hw1 : m_scheduledAfterSyscallHooks w1 = m_scheduledAfterSyscallHooks w /\
                data w1 = data w /\ m_currentState w1 = state).
  { unfold w1. by destruct (m_showInstructions && negb (isKernelAddress pc)). }
  destruct Hw1 as (Hs1 & Hd1 & Hc1).
  rewrite Hs1, Hat. unfold onExecuteSyscallEnd. cbv zeta. rewrite Hd1, Hc1.
  destruct (emitSyscall afterSyscallHooks state
              (setRet (readConcrete (data w) state RAX) syscall) (data w))
    as [syscall' d'].
  simpl. rewrite lookup_insert_eq. done.
Qed.

(** ** Forking *)

(** While native forking is enabled the callback changes nothing.  When it
    is disabled, a state that is in [m_allowedForkingStates] is allowed to
    fork whatever the modules decide, and the permission is used up: the
    state is erased (the other states stay), so the next decision for it is
    the one of the modules alone. *)
Theorem fork_permission_is_used_once
    (state : StateId) (allowForking allowForking2 : bool) (w : Crax E) :
  (m_disableNativeForking = false ->
   onStateForkDecide state allowForking w = (allowForking, w)) /\
  (m_disableNativeForking = true ->
   let r := onStateForkDecide state allowForking w in
   (state ∈ m_allowedForkingStates w -> r.1 = true) /\
   (state ∉ m_allowedForkingStates w ->
    r.1 = (emitFork onStateForkModuleDecide state allowForking (data w)).1) /\
   (state ∉ m_allowedForkingStates r.2) /\
   (forall other, other <> state ->
      (other ∈ m_allowedForkingStates r.2 <-> other ∈ m_allowedForkingStates w)) /\
   (onStateForkDecide state allowForking2 r.2).1
     = (emitFork onStateForkModuleDecide state allowForking2 (data r.2)).1).
Proof.
  split.
  - intros Hflag. unfold onStateForkDecide. by rewrite Hflag.
  - intros Hflag. cbv zeta. unfold onStateForkDecide. rewrite Hflag. simpl.
    destruct (emitFork onStateForkModuleDecide state allowForking (data w))
      as [allow1 d1] eqn:Hemit.
    simpl. split; [|split; [|split; [|split]]].
    + intros Hin. rewrite bool_decide_eq_true_2 by done. apply orb_true_r.
    + intros Hnotin. rewrite bool_decide_eq_false_2 by done. apply orb_false_r.
    + rewrite elem_of_difference, elem_of_singleton. by intros [_ ?].
    + intros other Hne. rewrite elem_of_difference, elem_of_singleton. by split; [intros [? _]|].
    + destruct (emitFork onStateForkModuleDecide state allowForking2 d1)
        as [allow2 d2].
      simpl. rewrite bool_decide_eq_false_2; [apply orb_false_r|].
      rewrite elem_of_difference, elem_of_singleton. by intros [_ ?].
Qed.

End WithEngine.

(** ** [CRAX::getBelongingSymbol] *)

Section BelongingSymbol.

(** [std::sort] by address: for equal addresses the order it leaves is not
    determined, so the sorted vector is taken from a function that is given. *)
Variable sortByAddress : list (string * Z) -> list (string * Z).

(** [syms[idx]] for an [int] index. *)
Definition at_ (syms : list (string * Z)) (idx : Z) : option (string * Z) :=
  if idx <? 0 then None else syms !! Z.to_nat idx.

(** The loop [while (left < right)], which yields [left]. *)
Fixpoint bisect (fuel : nat) (syms : list (string * Z)) (instructionAddr : Z)
    (left right : Z) : res Z :=
  match fuel with
  | O => OutOfFuel
  | Datatypes.S fuel' =>
      if left <? right then
        let mid := left + Z.quot (right + left) 2 in
        match at_ syms mid with
        | None => OutOfRange "syms[mid]"
        | Some (_, addr) =>
            if addr <? instructionAddr
            then bisect fuel' syms instructionAddr (mid + 1) right
            else bisect fuel' syms instructionAddr left (mid - 1)
        end
      else Ok left
  end.

Definition unableToFind (instructionAddr : Z) : LogEntry :=
  Warn "Unable to find which symbol  belongs to." [instructionAddr].

(** [CRAX::getBelongingSymbol], over the symbols of the ELF. *)
Definition getBelongingSymbol (fuel : nat) (symbols : list (string * Z))
    (instructionAddr : Z) : res string * list LogEntry :=
  let syms := sortByAddress symbols in
  match syms with
  | [] => (OutOfRange "syms.front()", [])
  | (_, first) :: _ =>
      if instructionAddr <? first
      then (Ok EmptyString, [unableToFind instructionAddr])
      else
        (res_bind (bisect fuel syms instructionAddr 0 (Z.of_nat (length syms) - 1))
           (fun left =>
              match at_ syms left with
              | None => OutOfRange "syms[left]"
              | Some (name, addr) =>
                  if instructionAddr <? addr then
                    match at_ syms (left - 1) with
                    | None => OutOfRange "syms[left]"
                    | Some (name', _) => Ok name'
                    end
                  else Ok name
              end), [])
  end.

Lemma at_elem syms idx x : at_ syms idx = Some x -> x ∈ syms.
Proof.
  unfold at_. destruct (idx <? 0); [done|]. apply list_elem_of_lookup_2.
Qed.

Lemma bisect_left fuel syms a left right l :
  bisect fuel syms a left right = Ok l ->
  0 <= left ->
  (0 < left -> exists name addr, at_ syms (left - 1) = Some (name, addr) /\ addr < a) ->
  0 <= l /\
  (0 < l -> exists name addr, at_ syms (l - 1) = Some (name, addr) /\ addr < a).
Proof.
  revert left right. induction fuel as [|fuel IH]; intros left right; simpl; [done|].
  destruct (left <? right) eqn:Hlt; [|by intros [= <-]].
  apply Z.ltb_lt in Hlt.
  destruct (at_ syms (left + Z.quot (right + left) 2)) as [[name addr]|] eqn:Hat; [|done].
  intros Hrun H0 Hinv.
  assert (0 <= Z.quot (right + left) 2) by (apply Z.quot_pos; lia).
  destruct (addr <? a) eqn:Hc.
  - apply Z.ltb_lt in Hc. apply (IH _ _ Hrun); [lia|].
    intros _. exists name, addr.
    replace (left + Z.quot (right + left) 2 + 1 - 1) with (left + Z.quot (right + left) 2)
      by lia.
    done.
  - by apply (IH _ _ Hrun).
Qed.

(** On a vector that [std::sort] left ordered by address, whenever a name
    is returned, it is either the empty string, with one warning, for an
    address below the lowest address of the table (below the address of
    every symbol), or, without a warning, the name of a symbol whose address
    is not above the address asked for. *)
Theorem getBelongingSymbol_returns_symbol_not_above
    (fuel : nat) (symbols : list (string * Z)) (instructionAddr : Z)
    (name : string) (log : list LogEntry) :
  sortByAddress symbols ≡ₚ symbols ->
  StronglySorted (fun x y => x.2 <= y.2) (sortByAddress symbols) ->
  getBelongingSymbol fuel symbols instructionAddr = (Ok name, log) ->
  (name = EmptyString /\ log = [unableToFind instructionAddr] /\
   symbols <> [] /\
   forall n addr, (n, addr) ∈ symbols -> instructionAddr < addr) \/
  (log = [] /\ exists addr, (name, addr) ∈ symbols /\ addr <= instructionAddr).
Proof.
  intros Hperm Hsorted. unfold getBelongingSymbol. cbv zeta.
  destruct (sortByAddress symbols) as [|[n0 first] tl] eqn:Hs; [done|].
  destruct (instructionAddr <? first) eqn:Hfirst.
  - intros [= <- <-]. apply Z.ltb_lt in Hfirst. left.
    split; [done|]. split; [done|]. split.
    + intros ->. by apply Permutation_nil_r in Hperm.
    + intros n addr Hin. rewrite <- Hperm in Hin.
      apply StronglySorted_inv in Hsorted as [_ Hall].
      rewrite Forall_forall in Hall.
      apply elem_of_cons in Hin as [[= -> ->]|Hin]; [done|].
      specialize (Hall _ Hin). simpl in Hall. lia.
  - apply Z.ltb_ge in Hfirst.
    destruct (bisect fuel ((n0, first) :: tl) instructionAddr 0
                (Z.of_nat (length ((n0, first) :: tl)) - 1)) as [l|?|?|?| |] eqn:Hb;
      simpl; try done.
    destruct (bisect_left _ _ _ _ _ _ Hb) as [Hl0 Hinv]; [lia|intros; lia|].
    destruct (at_ ((n0, first) :: tl) l) as [[name1 addr1]|] eqn:Hat; [|done].
    destruct (instructionAddr <? addr1) eqn:Hc.
    + apply Z.ltb_lt in Hc.
      destruct (at_ ((n0, first) :: tl) (l - 1)) as [[name2 addr2]|] eqn:Hat2; [|done].
      intros [= <- <-]. right. split; [done|].
      assert (0 < l).
      { destruct (decide (l = 0)) as [->|]; [|lia].
        unfold at_ in Hat2. simpl in Hat2. done. }
      destruct (Hinv ltac:(lia)) as (name3 & addr3 & Hat3 & Hlt3).
      injection Hat3 as Hn3 Ha3. subst name3 addr3.
      exists addr2. split; [|lia]. rewrite <- Hperm. by eapply at_elem.
    + apply Z.ltb_ge in Hc. intros [= <- <-]. right. split; [done|].
      exists addr1. split; [|lia]. rewrite <- Hperm. by eapply at_elem.
Qed.

(** An address below every symbol of a table that is not empty gives the
    empty string and one warning. *)
Theorem getBelongingSymbol_below_every_symbol
    (fuel : nat) (symbols : list (string * Z)) (instructionAddr : Z) :
  sortByAddress symbols ≡ₚ symbols ->
  symbols <> [] ->
  (forall name addr, (name, addr) ∈ symbols -> instructionAddr < addr) ->
  getBelongingSymbol fuel symbols instructionAddr
  = (Ok EmptyString, [unableToFind instructionAddr]).
Proof.
  intros Hperm Hne Hbelow. unfold getBelongingSymbol. cbv zeta.
  destruct (sortByAddress symbols) as [|[n0 first] tl] eqn:Hs.
  - apply Permutation_nil_l in Hperm. congruence.
  - assert (instructionAddr < first) as Hlt.
    { apply (Hbelow n0). rewrite <- Hperm. left. }
    apply Z.ltb_lt in Hlt. by rewrite Hlt.
Qed.

(** The midpoint is computed as [left + (right + left) / 2].  In a table of
    four symbols or more, for an address above the one of the symbol in the
    middle, the second probe is at an index that is not below the size of
    the table: the vector is read out of its bounds. *)
Theorem getBelongingSymbol_reads_past_the_end
    (fuel : nat) (symbols : list (string * Z)) (instructionAddr : Z)
    (name : string) (addr : Z) :
  let syms := sortByAddress symbols in
  let n := Z.of_nat (length syms) in
  4 <= n < 2 ^ 30 ->
  StronglySorted (fun x y => x.2 <= y.2) syms ->
  at_ syms (Z.quot (n - 1) 2) = Some (name, addr) ->
  addr < instructionAddr ->
  (2 <= fuel)%nat ->
  n <= Z.quot (n - 1) 2 + 1 + Z.quot (n - 1 + (Z.quot (n - 1) 2 + 1)) 2 /\
  getBelongingSymbol fuel symbols instructionAddr = (OutOfRange "syms[mid]", []).
Proof.
  cbv zeta. intros Hn Hsorted Hmid Haddr Hfuel.
  set (n := Z.of_nat (length (sortByAddress symbols))) in *.
  assert (Hq1 : Z.quot (n - 1) 2 = (n - 1) / 2) by (apply Z.quot_div_nonneg; lia).
  assert (Hq2 : Z.quot (n - 1 + (Z.quot (n - 1) 2 + 1)) 2
                = (n - 1 + ((n - 1) / 2 + 1)) / 2).
  { rewrite Hq1. apply Z.quot_div_nonneg; [|lia].
    pose proof (Z.div_pos (n - 1) 2). lia. }
  assert (Hm : 1 <= (n - 1) / 2 /\ (n - 1) / 2 + 1 < n - 1 /\
               n <= (n - 1) / 2 + 1 + (n - 1 + ((n - 1) / 2 + 1)) / 2).
  { Z.div_mod_to_equations. lia. }
  destruct Hm as (Hm1 & Hm2 & Hm3).
  split; [rewrite Hq2, Hq1; exact Hm3|].
  unfold getBelongingSymbol. cbv zeta. fold n.
  destruct (sortByAddress symbols) as [|[n0 first] tl] eqn:Hs; [simpl in n; lia|].
  assert (Hfirst : first <= addr).
  { apply StronglySorted_inv in Hsorted as [_ Hall].
    rewrite Forall_forall in Hall.
    unfold at_ in Hmid. rewrite Hq1 in Hmid.
    destruct ((n - 1) / 2 <? 0) eqn:Hneg; [done|].
    destruct (Z.to_nat ((n - 1) / 2)) as [|k] eqn:Hk; [lia|].
    simpl in Hmid. apply list_elem_of_lookup_2 in Hmid.
    apply (Hall _ Hmid). }
  replace (instructionAddr <? first) with false by (symmetry; apply Z.ltb_ge; lia).
  destruct fuel as [|[|fuel]]; [lia|lia|].
  simpl bisect.
  replace (0 <? n - 1) with true by (symmetry; apply Z.ltb_lt; lia).
  rewrite Z.add_0_l, Z.add_0_r, Hmid.
  replace (addr <? instructionAddr) with true by (symmetry; by apply Z.ltb_lt).
  rewrite Hq1 in *.
  replace ((n - 1) / 2 + 1 <? n - 1) with true by (symmetry; apply Z.ltb_lt; lia).
  replace (at_ ((n0, first) :: tl)
             ((n - 1) / 2 + 1 + Z.quot (n - 1 + ((n - 1) / 2 + 1)) 2)) with
    (@None (string * Z)); [done|].
  symmetry. unfold at_. rewrite Hq2.
  destruct ((n - 1) / 2 + 1 + (n - 1 + ((n - 1) / 2 + 1)) / 2 <? 0); [done|].
  apply lookup_ge_None_2. unfold n in *. lia.
Qed.

End BelongingSymbol.

(** ** Concrete runs *)

(** The hooks write their name, and the return value they see, into the
    data; a [syscall] instruction is at 0x401000 and a [mov] follows it. *)
Definition demoRead (d : list (string * Z)) (state : StateId) (r : Register) : Z :=
  match r with
  | RAX => Z.of_nat (length d)
  | RSI => 0x404800
  | RDX => 0x80
  | _ => 0
  end.

Definition demoDisasm (d : list (string * Z)) (state : StateId) (pc : Z)
  : option Ret2syscall.Instruction :=
  if pc =? 0x401000 then Some (Ret2syscall.mkInstruction pc "syscall" EmptyString)
  else if pc =? 0x401002 then Some (Ret2syscall.mkInstruction pc "mov" "rbx, rax")
  else None.

Definition noteSyscall (label : string) : SyscallHook (E := list (string * Z)) :=
  fun _ c d => (c, d ++ [(label, ret c)]).

Definition noteInstruction : InstructionHook (E := list (string * Z)) :=
  fun _ i d => d ++ [(Ret2syscall.mnemonic i, Ret2syscall.address i)].

Definition demoStart (state : StateId) (pc : Z) (w : Crax (list (string * Z)))
  : Crax (list (string * Z)) :=
  onExecuteInstructionStart demoRead demoDisasm (fun _ => false) false false
    [noteInstruction] [noteSyscall "before"] [noteSyscall "after"] state pc w.

Definition demoCrax : Crax (list (string * Z)) := mkCrax 0%nat ∅ {[ 4%nat ]} [] [].

Example demo_syscall_then_next_instruction :
  let w1 := demoStart 4%nat 0x401000 demoCrax in
  let w2 := demoStart 4%nat 0x401002 w1 in
  let w3 := demoStart 4%nat 0x401002 w2 in
  data w1 = [("before", 0); ("syscall", 0x401000)] /\
  data w2 = [("before", 0); ("syscall", 0x401000); ("after", 2); ("mov", 0x401002)] /\
  data w3 = [("before", 0); ("syscall", 0x401000); ("after", 2); ("mov", 0x401002);
             ("after", 4); ("mov", 0x401002)].
Proof. vm_compute. auto. Qed.

Lemma syscall_schedules_hook_two_bytes_later_witness :
  m_scheduledAfterSyscallHooks (demoStart 4%nat 0x401000 demoCrax) !! wrap64 (0x401000 + 2)
  = Some (mkCtx 0 0 0 0x404800 0x80 0 0 0).
Proof.
  destruct (syscall_schedules_hook_two_bytes_later demoRead demoDisasm (fun _ => false)
              false false [noteInstruction] [noteSyscall "before"] [noteSyscall "after"]
              4%nat 0x401000 (Ret2syscall.mkInstruction 0x401000 "syscall" EmptyString)
              demoCrax) as (Hat & _ & _).
  - unfold in_u64. lia.
  - reflexivity.
  - reflexivity.
  - exact Hat.
Defined.

Definition scheduledCrax : Crax (list (string * Z)) :=
  mkCrax 0%nat {[ 0x401002 := mkCtx 0 0 0 0x404800 0x80 0 0 0 ]} ∅ [] [].

Lemma scheduled_hooks_are_never_removed_witness :
  is_Some (m_scheduledAfterSyscallHooks (demoStart 4%nat 0x401002 scheduledCrax)
             !! 0x401002) /\
  demoStart 4%nat 0x999 scheduledCrax = setCurrent 4%nat scheduledCrax.
Proof.
  split.
  - destruct (scheduled_hooks_are_never_removed demoRead demoDisasm (fun _ => false)
                false false [noteInstruction] [noteSyscall "before"] [noteSyscall "after"]
                4%nat 0x401002 scheduledCrax) as [Hkeep _].
    apply Hkeep. vm_compute. eexists. reflexivity.
  - destruct (scheduled_hooks_are_never_removed demoRead demoDisasm (fun _ => false)
                false false [noteInstruction] [noteSyscall "before"] [noteSyscall "after"]
                4%nat 0x999 scheduledCrax) as [_ Hnone].
    apply Hnone. reflexivity.
Defined.

Lemma scheduled_hook_runs_with_return_value_witness :
  m_scheduledAfterSyscallHooks (demoStart 4%nat 0x401002 scheduledCrax) !! 0x401002
    = Some (mkCtx 0 0 0 0x404800 0x80 0 0 0) /\
  data (demoStart 4%nat 0x401002 scheduledCrax) = [("after", 0); ("mov", 0x401002)].
Proof.
  destruct (scheduled_hook_runs_with_return_value demoRead demoDisasm (fun _ => false)
              false false [noteInstruction] [noteSyscall "before"] [noteSyscall "after"]
              4%nat 0x401002 (Ret2syscall.mkInstruction 0x401002 "mov" "rbx, rax")
              (mkCtx 0 0 0 0x404800 0x80 0 0 0) scheduledCrax) as (Hat & Hdata & _).
  - reflexivity.
  - discriminate.
  - reflexivity.
  - split; [exact Hat|exact Hdata].
Defined.

(** A module that never allows a fork. *)
Definition denyFork : ForkHook (E := list (string * Z)) := fun _ _ d => (false, d).

Lemma fork_permission_is_used_once_witness :
  onStateForkDecide false [denyFork] 4%nat true demoCrax = (true, demoCrax) /\
  (onStateForkDecide true [denyFork] 4%nat false demoCrax).1 = true /\
  (onStateForkDecide true [denyFork] 4%nat true
     (onStateForkDecide true [denyFork] 4%nat false demoCrax).2).1 = false.
Proof.
  split; [|split].
  - destruct (fork_permission_is_used_once false [denyFork] 4%nat true true demoCrax)
      as [Hon _].
    apply Hon. reflexivity.
  - destruct (fork_permission_is_used_once true [denyFork] 4%nat false true demoCrax)
      as [_ Hoff].
    destruct (Hoff eq_refl) as (Hin & _).
    apply Hin. vm_compute. reflexivity.
  - destruct (fork_permission_is_used_once true [denyFork] 4%nat false true demoCrax)
      as [_ Hoff].
    destruct (Hoff eq_refl) as (_ & _ & _ & _ & Hnext).
    rewrite Hnext. reflexivity.
Defined.

(** Five symbols, sorted by a merge sort on the addresses. *)
Definition byAddress (x y : string * Z) : Prop := x.2 <= y.2.

#[local] Instance byAddress_dec x y : Decision (byAddress x y).
Proof. unfold byAddress. apply _. Defined.

Definition demoSort (l : list (string * Z)) : list (string * Z) :=
  merge_sort byAddress l.

Definition demoSymbols : list (string * Z) :=
  [("_start", 0x401040); ("main", 0x401136); ("read", 0x401030);
   ("vuln", 0x401180); ("win", 0x4011c0)].

Example demo_sorted :
  demoSort demoSymbols
  = [("read", 0x401030); ("_start", 0x401040); ("main", 0x401136);
     ("vuln", 0x401180); ("win", 0x4011c0)].
Proof. vm_compute. reflexivity. Qed.

Lemma getBelongingSymbol_returns_symbol_not_above_witness :
  (exists addr, ("_start", addr) ∈ demoSymbols /\ addr <= 0x401100) /\
  (forall n addr, (n, addr) ∈ demoSymbols -> 0x401000 < addr).
Proof.
  split.
  - destruct (getBelongingSymbol_returns_symbol_not_above demoSort 8 demoSymbols 0x401100
                "_start" []) as [(Hname & _)|(_ & Hsym)].
    + apply merge_sort_Permutation.
    + rewrite demo_sorted. repeat constructor; simpl; lia.
    + vm_compute. reflexivity.
    + discriminate Hname.
    + exact Hsym.
  - destruct (getBelongingSymbol_returns_symbol_not_above demoSort 8 demoSymbols 0x401000
                EmptyString [unableToFind 0x401000]) as [(_ & _ & _ & Hbelow)|(Hlog & _)].
    + apply merge_sort_Permutation.
    + rewrite demo_sorted. repeat constructor; simpl; lia.
    + vm_compute. reflexivity.
    + exact Hbelow.
    + discriminate Hlog.
Defined.

Lemma getBelongingSymbol_below_every_symbol_witness :
  getBelongingSymbol demoSort 8 demoSymbols 0x401000
  = (Ok EmptyString, [unableToFind 0x401000]).
Proof.
  apply (getBelongingSymbol_below_every_symbol demoSort 8 demoSymbols 0x401000).
  - apply merge_sort_Permutation.
  - discriminate.
  - intros name addr Hin. unfold demoSymbols in Hin.
    repeat (apply elem_of_cons in Hin as [Heq|Hin];
            [injection Heq as -> ->; lia|]).
    by apply elem_of_nil in Hin.
Defined.

Lemma getBelongingSymbol_reads_past_the_end_witness :
  getBelongingSymbol demoSort 8 demoSymbols 0x401190 = (OutOfRange "syms[mid]", []).
Proof.
  destruct (getBelongingSymbol_reads_past_the_end demoSort 8 demoSymbols 0x401190
              "main" 0x401136) as [_ Hrun].
  - vm_compute. split; [discriminate|reflexivity].
  - rewrite demo_sorted. repeat constructor; simpl; lia.
  - vm_compute. reflexivity.
  - lia.
  - lia.
  - exact Hrun.
Defined.

End Callbacks.
